(** * KaspaSwarm: the SwarmVisualization component

    A shallow embedding of the [SwarmVisualization] component (in the
    source tree it follows the task list in
    frontend/src/components/TaskHistory.jsx): the agent registry
    [agentMeshesRef], the tracked transaction edges [transactionEdgesRef],
    the React state [selectedAgent], and the four pieces of code that act
    on them: the "Update agents" effect, the "Update transaction edges"
    effect, the [animate] frame callback and the [handleClick] listener.

    Modelling choices.
    - Every Three.js object carries the number of its creation (as
      [Object3D.id] does); two references denote the same object exactly
      when these numbers agree.  The scene is the list of the numbers of
      its children.
    - [agentMeshesRef.current] is a plain JS object used as a map; it is an
      association list in the order in which the properties were created.
      [Object.values] lists the values under array-index keys first, in
      ascending order, then the others in the order of creation.
      Identifiers are taken to be ordinary own keys.
    - [Date.now()] is an argument of each operation, in milliseconds.
      JS numbers are rationals ([Q]) or integers ([Z]); [Math.sin] is a
      variable of the development.
    - [mesh.position] is kept as the data it is computed from (radius,
      index, group size, offset); [position_x] and [position_z] give the
      coordinates over the real numbers.
    - The raycaster is a variable: a function from a pointer event and the
      candidate meshes to the meshes it intersects, nearest first.
    - A roster entry is an object in the typed effect [updateAgents] and an
      object or [null] in [updateAgentsRaw], which can end in a
      [TypeError]; the two agree on rosters of objects.
    - The camera orbit and the label sprite act on none of the above and
      are left out.  Of the per-marker [requestAnimationFrame] chain only
      the last step acts on the scene ([removeMarker]). *)

From Stdlib Require Import List String ZArith QArith Qminmax Bool Lia Lqa Lra Reals.
From Stdlib Require Import Ascii Permutation.
Import ListNotations.

Open Scope Z_scope.
Open Scope list_scope.

(** ** Data received from the transport *)

Module Agent.
Record t := {
  agent_id : string;
  role : string;
  status : option string;
  active_tasks : option Z;
  reputation : option Q;
  specialization : option string
}.
End Agent.

Module Tx.
Record t := {
  from : string;
  msg_type : string;
  timestamp : Q
}.
End Tx.

Record Agents := {
  coordinators : option (list Agent.t);
  solvers : option (list Agent.t)
}.

Record SwarmData := {
  agents : option Agents;
  transactions : option (list Tx.t)
}.

(** ** Scene objects *)

Inductive AngleOffset := NoOffset | QuarterPi.

(** [mesh.position]: x = cos angle * radius, y = 0, z = sin angle * radius
    with angle = (agentIndex / agentsInRole) * PI * 2 + angleOffset. *)
Record Polar := {
  radius : Z;
  agentIndex : Z;
  agentsInRole : Z;
  angleOffset : AngleOffset
}.

Record Ring := {
  ring_color : Z;
  ring_opacity : Q
}.

Module Mesh.
Record t := {
  id : nat;
  color : Z;
  emissiveIntensity : Q;
  scale : Q;
  position : Polar;
  agentId : string;
  role : string;
  ring : option Ring;
  agentData : option Agent.t
}.

Definition set_agentData (m : t) (a : Agent.t) : t :=
  {| id := id m; color := color m; emissiveIntensity := emissiveIntensity m;
     scale := scale m; position := position m; agentId := agentId m;
     role := role m; ring := ring m; agentData := Some a |}.

Definition set_scale (m : t) (s : Q) : t :=
  {| id := id m; color := color m; emissiveIntensity := emissiveIntensity m;
     scale := s; position := position m; agentId := agentId m;
     role := role m; ring := ring m; agentData := agentData m |}.

Definition set_emissiveIntensity (m : t) (e : Q) : t :=
  {| id := id m; color := color m; emissiveIntensity := e;
     scale := scale m; position := position m; agentId := agentId m;
     role := role m; ring := ring m; agentData := agentData m |}.

(** [if (mesh.userData.ring) mesh.userData.ring.material.opacity = o] *)
Definition set_ring_opacity (m : t) (o : Q) : t :=
  {| id := id m; color := color m; emissiveIntensity := emissiveIntensity m;
     scale := scale m; position := position m; agentId := agentId m;
     role := role m;
     ring := match ring m with
             | Some r => Some {| ring_color := ring_color r; ring_opacity := o |}
             | None => None
             end;
     agentData := agentData m |}.
End Mesh.

Module Tube.
Record t := {
  id : nat;
  color : Z;
  opacity : Q;
  curve : Polar * Polar
}.
Definition set_opacity (l : t) (o : Q) : t :=
  {| id := id l; color := color l; opacity := o; curve := curve l |}.
End Tube.

Module Particle.
Record t := {
  id : nat;
  color : Z;
  opacity : Q;
  progress : Q
}.
Definition set_opacity (p : t) (o : Q) : t :=
  {| id := id p; color := color p; opacity := o; progress := progress p |}.
End Particle.

Module Edge.
Record t := {
  line : Tube.t;
  particles : option Particle.t;
  timestamp : Z;
  txTimestamp : Q;
  from : string
}.
End Edge.

(** ** Component state *)

Record State := {
  sceneRef : option (list nat);
  agentMeshesRef : list (string * Mesh.t);
  transactionEdgesRef : list Edge.t;
  selectedAgent : option Agent.t;
  nextObjectId : nat
}.

Definition set_selectedAgent (st : State) (a : option Agent.t) : State :=
  {| sceneRef := sceneRef st; agentMeshesRef := agentMeshesRef st;
     transactionEdgesRef := transactionEdgesRef st; selectedAgent := a;
     nextObjectId := nextObjectId st |}.

Definition set_agentMeshes (st : State) (r : list (string * Mesh.t)) : State :=
  {| sceneRef := sceneRef st; agentMeshesRef := r;
     transactionEdgesRef := transactionEdgesRef st;
     selectedAgent := selectedAgent st; nextObjectId := nextObjectId st |}.

(** Before the first effect has run. *)
Definition unmounted : State :=
  {| sceneRef := None; agentMeshesRef := []; transactionEdgesRef := [];
     selectedAgent := None; nextObjectId := 0 |}.

(** After "Initialize scene once": three lights, the point light and the
    grid helper are in the scene. *)
Definition mounted : State :=
  {| sceneRef := Some [0; 1; 2; 3; 4]%nat; agentMeshesRef := [];
     transactionEdgesRef := []; selectedAgent := None; nextObjectId := 5 |}.

(** ** The registry as a JS object *)

(** [registry[key]] *)
Fixpoint lookup (key : string) (r : list (string * Mesh.t)) : option Mesh.t :=
  match r with
  | [] => None
  | (k, m) :: r' => if String.eqb k key then Some m else lookup key r'
  end.

(** [registry[key] = m], and the write-back of a mutation of the object
    stored under [key]: an existing key keeps its place, a new key goes
    last.  The list is in the order of creation; [values] below gives the
    order of enumeration. *)
Fixpoint store (key : string) (m : Mesh.t) (r : list (string * Mesh.t))
  : list (string * Mesh.t) :=
  match r with
  | [] => [(key, m)]
  | (k, m') :: r' =>
      if String.eqb k key then (k, m) :: r' else (k, m') :: store key m r'
  end.

(** A property key that is an array index: the canonical decimal string of
    a number from 0 to 2^32 - 2. *)
Definition digit (c : ascii) : option N :=
  let n := N_of_ascii c in
  if ((48 <=? n) && (n <=? 57))%N then Some (n - 48)%N else None.

Fixpoint digits (s : string) (acc : N) : option N :=
  match s with
  | EmptyString => Some acc
  | String c s' =>
      match digit c with
      | Some d => digits s' (10 * acc + d)%N
      | None => None
      end
  end.

Definition arrayIndex (key : string) : option N :=
  match key with
  | EmptyString => None
  | String c rest =>
      if Ascii.eqb c "0"
      then match rest with
           | EmptyString => Some 0%N
           | String _ _ => None
           end
      else match digits key 0 with
           | Some n => if (n <? 4294967295)%N then Some n else None
           | None => None
           end
  end.

(** The place of an index key among the index keys: ascending. *)
Fixpoint insertIndexed {A : Type} (n : N) (x : A) (l : list (N * A))
  : list (N * A) :=
  match l with
  | [] => [(n, x)]
  | (n', y) :: l' =>
      if (n <? n')%N then (n, x) :: l else (n', y) :: insertIndexed n x l'
  end.

Definition indexedValues {A : Type} (r : list (string * A)) : list (N * A) :=
  fold_left
    (fun acc e =>
       match arrayIndex (fst e) with
       | Some n => insertIndexed n (snd e) acc
       | None => acc
       end)
    r [].

Definition namedValues {A : Type} (r : list (string * A)) : list A :=
  map snd
    (filter (fun e => match arrayIndex (fst e) with
                      | Some _ => false
                      | None => true
                      end) r).

(** [Object.values(o)] for an object whose properties were created in the
    order of [r]: the values under array-index keys in ascending order of
    the index, then the others in the order of creation. *)
Definition ownValues {A : Type} (r : list (string * A)) : list A :=
  map snd (indexedValues r) ++ namedValues r.

(** [Object.values(registry)] *)
Definition values (r : list (string * Mesh.t)) : list Mesh.t := ownValues r.

(** [Array.prototype.findIndex] *)
Fixpoint findIndex {A : Type} (p : A -> bool) (l : list A) : Z :=
  match l with
  | [] => -1
  | x :: l' =>
      if p x then 0
      else let i := findIndex p l' in if i <? 0 then -1 else i + 1
  end.

(** [scene.remove(obj)] *)
Definition scene_remove (obj : nat) (children : list nat) : list nat :=
  filter (fun c => negb (Nat.eqb c obj)) children.

(** ** Agent update effect *)

Definition isCoordinator (agent : Agent.t) : bool :=
  String.eqb (Agent.role agent) "coordinator".

Definition sameId (agentId : string) (a : Agent.t) : bool :=
  String.eqb (Agent.agent_id a) agentId.

(** "Position agents" *)
Definition place (agent : Agent.t) (coordinators solvers : list Agent.t)
  : Polar :=
  let agentId := Agent.agent_id agent in
  {| radius := if isCoordinator agent then 15 else 25;
     agentIndex :=
       if isCoordinator agent
       then findIndex (sameId agentId) coordinators
       else findIndex (sameId agentId) solvers;
     agentsInRole :=
       if isCoordinator agent
       then Z.of_nat (List.length coordinators)
       else Z.of_nat (List.length solvers);
     angleOffset := if isCoordinator agent then NoOffset else QuarterPi |}.

Definition ringColor (agent : Agent.t) : Z :=
  let c0 := 0x00ff88 in
  let c1 :=
    match Agent.specialization agent with
    | Some s => if String.eqb s "hash_cracking" then 0x9d00ff else c0
    | None => c0
    end in
  let c2 :=
    match Agent.specialization agent with
    | Some s => if String.eqb s "sorting" then 0xffaa00 else c1
    | None => c1
    end in
  match Agent.specialization agent with
  | Some s => if String.eqb s "data_search" then 0x00aaff else c2
  | None => c2
  end.

(** The creation branch, up to [scene.add(mesh)]. *)
Definition createMesh (n : nat) (agent : Agent.t)
  (coordinators solvers : list Agent.t) : Mesh.t :=
  {| Mesh.id := n;
     Mesh.color := if isCoordinator agent then 0x00ff88 else 0x0088ff;
     Mesh.emissiveIntensity := 3 # 10;
     Mesh.scale := 1;
     Mesh.position := place agent coordinators solvers;
     Mesh.agentId := Agent.agent_id agent;
     Mesh.role := Agent.role agent;
     Mesh.ring :=
       Some {| ring_color :=
                 if isCoordinator agent then 0x00ff88 else ringColor agent;
               ring_opacity := 0 |};
     Mesh.agentData := None |}.

Definition isActive (agent : Agent.t) : bool :=
  match Agent.active_tasks agent with
  | Some n => 0 <? n
  | None => false
  end
  || match Agent.status agent with
     | Some s => String.eqb s "working"
     | None => false
     end.

Definition reputationScale (agent : Agent.t) : Q :=
  match Agent.reputation agent with
  | Some r =>
      if Qeq_bool r 0 then 1
      else Qmax (8 # 10) (Qmin 2 (r / 100))
  | None => 1
  end.

Section Component.

(** [Math.sin] *)
Variable Math_sin : Q -> Q.

(** Pointer events, and [raycaster.intersectObjects(objects, false)] for the
    ray through the pointer. *)
Variable Event : Type.
Variable intersectObjects : Event -> list Mesh.t -> list Mesh.t.

(** "Animate based on activity and reputation" *)
Definition pulse (now : Z) (agent : Agent.t) (mesh : Mesh.t) : Mesh.t :=
  let reputationScale := reputationScale agent in
  if isActive agent then
    let scale :=
      ((1 + Math_sin (inject_Z now * (3 # 1000)) * (15 # 100))
       * reputationScale)%Q in
    Mesh.set_ring_opacity
      (Mesh.set_emissiveIntensity (Mesh.set_scale mesh scale)
         ((4 # 10) + Math_sin (inject_Z now * (5 # 1000)) * (2 # 10))%Q)
      ((3 # 10) + Math_sin (inject_Z now * (5 # 1000)) * (2 # 10))%Q
  else
    let scale := (1 * reputationScale)%Q in
    Mesh.set_ring_opacity
      (Mesh.set_emissiveIntensity (Mesh.set_scale mesh scale) (1 # 10))
      0.

(** "Highlight selected agent" *)
Definition highlight (selected : option Agent.t) (agentId : string)
  (mesh : Mesh.t) : Mesh.t :=
  match selected with
  | Some s =>
      if String.eqb (Agent.agent_id s) agentId
      then Mesh.set_ring_opacity
             (Mesh.set_emissiveIntensity mesh (8 # 10)) (8 # 10)
      else mesh
  | None => mesh
  end.

(** One turn of [allAgents.forEach]. *)
Definition updateAgent (coordinators solvers : list Agent.t) (now : Z)
  (st : State) (agent : Agent.t) : State :=
  let agentId := Agent.agent_id agent in
  let '(mesh, st1) :=
    match lookup agentId (agentMeshesRef st) with
    | Some mesh => (mesh, st)
    | None =>
        let mesh := createMesh (nextObjectId st) agent coordinators solvers in
        (mesh,
         {| sceneRef :=
              option_map (fun children => children ++ [Mesh.id mesh])
                (sceneRef st);
            agentMeshesRef := store agentId mesh (agentMeshesRef st);
            transactionEdgesRef := transactionEdgesRef st;
            selectedAgent := selectedAgent st;
            nextObjectId := S (nextObjectId st) |})
    end in
  let mesh := Mesh.set_agentData mesh agent in
  let mesh := pulse now agent mesh in
  let mesh := highlight (selectedAgent st) agentId mesh in
  set_agentMeshes st1 (store agentId mesh (agentMeshesRef st1)).

Definition orEmpty {A : Type} (l : option (list A)) : list A :=
  match l with
  | Some l => l
  | None => []
  end.

(** The effect with dependencies [swarmData, selectedAgent], on a roster
    whose entries are all objects; [updateAgentsRaw] below is the effect on
    a roster as parsed, where an entry may be [null]. *)
Definition updateAgents (swarmData : option SwarmData) (now : Z)
  (st : State) : State :=
  match sceneRef st, swarmData with
  | Some _, Some sd =>
      match agents sd with
      | Some ag =>
          let coordinators := orEmpty (coordinators ag) in
          let solvers := orEmpty (solvers ag) in
          let allAgents := coordinators ++ solvers in
          fold_left (updateAgent coordinators solvers now) allAgents st
      | None => st
      end
  | _, _ => st
  end.

(** ** Transaction edge effect *)

Definition txColor (msg_type : string) : Z :=
  if String.eqb msg_type "task_announcement" then 0x00ff88
  else if String.eqb msg_type "task_bid" then 0x0088ff
  else if String.eqb msg_type "solution_submission" then 0xff00ff
  else 0xffffff.

(** [edge.txTimestamp === txTimestamp && edge.from === tx.from] *)
Definition sameTx (txTimestamp : Q) (from : string) (edge : Edge.t) : bool :=
  Qeq_bool (Edge.txTimestamp edge) txTimestamp
  && String.eqb (Edge.from edge) from.

Definition roleIs (r : string) (m : Mesh.t) : bool :=
  match Mesh.agentData m with
  | Some a => String.eqb (Agent.role a) r
  | None => false
  end.

Definition targetMeshes (tx : Tx.t) (fromMesh : Mesh.t)
  (registry : list (string * Mesh.t)) : list Mesh.t :=
  if String.eqb (Tx.msg_type tx) "task_announcement"
  then filter (roleIs "solver") (values registry)
  else filter
         (fun m => roleIs "coordinator" m
                   && negb (Nat.eqb (Mesh.id m) (Mesh.id fromMesh)))
         (values registry).

(** The edge record pushed for one target; [n] and [S n] number the tube
    and the particle. *)
Definition newEdge (n : nat) (now : Z) (tx : Tx.t) (color : Z)
  (fromMesh toMesh : Mesh.t) : Edge.t :=
  {| Edge.line :=
       {| Tube.id := n; Tube.color := color; Tube.opacity := 7 # 10;
          Tube.curve := (Mesh.position fromMesh, Mesh.position toMesh) |};
     Edge.particles :=
       Some {| Particle.id := S n; Particle.color := color;
               Particle.opacity := 8 # 10; Particle.progress := 2 # 100 |};
     Edge.timestamp := now;
     Edge.txTimestamp := (Tx.timestamp tx * 1000)%Q;
     Edge.from := Tx.from tx |}.

(** One turn of [targetMeshes.forEach]. *)
Definition spawnEdge (now : Z) (tx : Tx.t) (color : Z) (fromMesh : Mesh.t)
  (st : State) (toMesh : Mesh.t) : State :=
  let edge := newEdge (nextObjectId st) now tx color fromMesh toMesh in
  {| sceneRef :=
       option_map
         (fun children =>
            children ++ [Tube.id (Edge.line edge); S (Tube.id (Edge.line edge))])
         (sceneRef st);
     agentMeshesRef := agentMeshesRef st;
     transactionEdgesRef := transactionEdgesRef st ++ [edge];
     selectedAgent := selectedAgent st;
     nextObjectId := S (S (nextObjectId st)) |}.

(** One turn of [transactions.forEach]. *)
Definition processTx (now : Z) (st : State) (tx : Tx.t) : State :=
  let txTimestamp := (Tx.timestamp tx * 1000)%Q in
  let alreadyExists :=
    existsb (sameTx txTimestamp (Tx.from tx)) (transactionEdgesRef st) in
  if alreadyExists then st
  else
    match lookup (Tx.from tx) (agentMeshesRef st) with
    | None => st
    | Some fromMesh =>
        let color := txColor (Tx.msg_type tx) in
        let targetMeshes := targetMeshes tx fromMesh (agentMeshesRef st) in
        fold_left (spawnEdge now tx color fromMesh) targetMeshes st
    end.

(** The effect with dependency [swarmData?.transactions]. *)
Definition updateTransactions (swarmData : option SwarmData) (now : Z)
  (st : State) : State :=
  match sceneRef st, swarmData with
  | Some _, Some sd =>
      match transactions sd with
      | Some transactions => fold_left (processTx now) transactions st
      | None => st
      end
  | _, _ => st
  end.

(** ** Frame callback: fade and expiry *)

Definition maxAge : Z := 3000.

(** [1 - (age / maxAge)] *)
Definition fade (age : Z) : Q := (1 - inject_Z age / inject_Z maxAge)%Q.

Definition fadeEdge (opacity : Q) (edge : Edge.t) : Edge.t :=
  {| Edge.line := Tube.set_opacity (Edge.line edge) opacity;
     Edge.particles :=
       match Edge.particles edge with
       | Some p => Some (Particle.set_opacity p (opacity * (8 # 10))%Q)
       | None => None
       end;
     Edge.timestamp := Edge.timestamp edge;
     Edge.txTimestamp := Edge.txTimestamp edge;
     Edge.from := Edge.from edge |}.

Definition removeEdgeObjects (edge : Edge.t) (children : list nat) : list nat :=
  let children := scene_remove (Tube.id (Edge.line edge)) children in
  match Edge.particles edge with
  | Some p => scene_remove (Particle.id p) children
  | None => children
  end.

(** [array.splice(index, 1)] *)
Fixpoint splice1 {A : Type} (index : nat) (l : list A) : list A :=
  match index, l with
  | _, [] => []
  | O, _ :: l' => l'
  | S i, x :: l' => x :: splice1 i l'
  end.

(** [array[index] = x] for an index in range *)
Fixpoint setNth {A : Type} (index : nat) (x : A) (l : list A) : list A :=
  match index, l with
  | _, [] => []
  | O, _ :: l' => x :: l'
  | S i, y :: l' => y :: setNth i x l'
  end.

(** The callback of [transactionEdgesRef.current.forEach] at [index], on
    the scene children and the tracked array. *)
Definition sweepAt (now : Z) (index : nat) (edge : Edge.t)
  (s : list nat * list Edge.t) : list nat * list Edge.t :=
  let age := now - Edge.timestamp edge in
  if age >? maxAge
  then (removeEdgeObjects edge (fst s), splice1 index (snd s))
  else (fst s, setNth index (fadeEdge (fade age) edge) (snd s)).

(** [forEach]: the length is read once ([len] turns remain), each turn
    visits [index] if the array still has it. *)
Fixpoint forEachEdge (now : Z) (len : nat) (index : nat)
  (s : list nat * list Edge.t) : list nat * list Edge.t :=
  match len with
  | O => s
  | S len' =>
      match nth_error (snd s) index with
      | Some edge => forEachEdge now len' (S index) (sweepAt now index edge s)
      | None => forEachEdge now len' (S index) s
      end
  end.

(** [animate], without the camera and the render call. *)
Definition animate (now : Z) (st : State) : State :=
  match sceneRef st with
  | Some children =>
      let s := forEachEdge now (List.length (transactionEdgesRef st)) 0
                 (children, transactionEdgesRef st) in
      {| sceneRef := Some (fst s); agentMeshesRef := agentMeshesRef st;
         transactionEdgesRef := snd s; selectedAgent := selectedAgent st;
         nextObjectId := nextObjectId st |}
  | None => st
  end.

(** ** Picking *)

Definition handleClick (ev : Event) (st : State) : State :=
  let intersects :=
    intersectObjects ev (filter (fun _ => true) (values (agentMeshesRef st))) in
  match intersects with
  | clickedMesh :: _ =>
      match Mesh.agentData clickedMesh with
      | Some agentData => set_selectedAgent st (Some agentData)
      | None => st
      end
  | [] => set_selectedAgent st None
  end.

(** The close button of the info panel. *)
Definition closePanel (st : State) : State := set_selectedAgent st None.

(** ** Sessions *)

Inductive Op :=
| UpdateAgents (swarmData : option SwarmData) (now : Z)
| UpdateTransactions (swarmData : option SwarmData) (now : Z)
| Animate (now : Z)
| HandleClick (ev : Event)
| ClosePanel.

Definition step (st : State) (op : Op) : State :=
  match op with
  | UpdateAgents sd now => updateAgents sd now st
  | UpdateTransactions sd now => updateTransactions sd now st
  | Animate now => animate now st
  | HandleClick ev => handleClick ev st
  | ClosePanel => closePanel st
  end.

Definition run (ops : list Op) (st : State) : State := fold_left step ops st.

End Component.

Arguments UpdateAgents {Event}.
Arguments UpdateTransactions {Event}.
Arguments Animate {Event}.
Arguments HandleClick {Event}.
Arguments ClosePanel {Event}.
Arguments handleClick {Event}.
Arguments step Math_sin {Event}.
Arguments run Math_sin {Event}.

(** ** The agent effect on a roster as parsed *)

(** A roster list as parsed: absent (or another falsy value), a value that
    cannot be spread (a number, [true], a plain object), or an array whose
    entries are objects or [null]. *)
Inductive RosterField :=
| Absent
| NotIterable
| Entries (l : list (option Agent.t)).

Record RawAgents := {
  rawCoordinators : RosterField;
  rawSolvers : RosterField
}.

(** [field || []], for a field that can be spread *)
Definition entries (field : RosterField) : list (option Agent.t) :=
  match field with
  | Entries l => l
  | _ => []
  end.

Definition spreadable (field : RosterField) : bool :=
  match field with
  | NotIterable => false
  | _ => true
  end.

Record RawSwarmData := {
  rawAgents : option RawAgents;
  rawTransactions : option (list Tx.t)
}.

(** How the effect ends: it returns, or a [TypeError] leaves it. *)
Inductive Completion := Returned | Thrown.

(** [l.findIndex(a => a.agent_id === agentId)]: reading [agent_id] of
    [null] throws, [None]. *)
Fixpoint findIndexRaw (agentId : string) (l : list (option Agent.t))
  : option Z :=
  match l with
  | [] => Some (-1)
  | None :: _ => None
  | Some a :: l' =>
      if sameId agentId a then Some 0
      else match findIndexRaw agentId l' with
           | Some i => Some (if i <? 0 then -1 else i + 1)
           | None => None
           end
  end.

(** "Position agents" *)
Definition placeRaw (agent : Agent.t)
  (coordinators solvers : list (option Agent.t)) : option Polar :=
  let agentId := Agent.agent_id agent in
  match (if isCoordinator agent
         then findIndexRaw agentId coordinators
         else findIndexRaw agentId solvers) with
  | Some agentIndex =>
      Some {| radius := if isCoordinator agent then 15 else 25;
              agentIndex := agentIndex;
              agentsInRole :=
                if isCoordinator agent
                then Z.of_nat (List.length coordinators)
                else Z.of_nat (List.length solvers);
              angleOffset :=
                if isCoordinator agent then NoOffset else QuarterPi |}
  | None => None
  end.

(** The creation branch, for a position already computed. *)
Definition createMeshAt (n : nat) (agent : Agent.t) (position : Polar)
  : Mesh.t :=
  {| Mesh.id := n;
     Mesh.color := if isCoordinator agent then 0x00ff88 else 0x0088ff;
     Mesh.emissiveIntensity := 3 # 10;
     Mesh.scale := 1;
     Mesh.position := position;
     Mesh.agentId := Agent.agent_id agent;
     Mesh.role := Agent.role agent;
     Mesh.ring :=
       Some {| ring_color :=
                 if isCoordinator agent then 0x00ff88 else ringColor agent;
               ring_opacity := 0 |};
     Mesh.agentData := None |}.

(** One turn of [allAgents.forEach].  [agent.agent_id] throws on [null];
    in the creation branch the mesh has been constructed when [findIndex]
    throws, and is neither added to the scene nor registered. *)
Definition updateAgentRaw (Math_sin : Q -> Q)
  (coordinators solvers : list (option Agent.t)) (now : Z)
  (st : State) (entry : option Agent.t) : State * Completion :=
  match entry with
  | None => (st, Thrown)
  | Some agent =>
      let agentId := Agent.agent_id agent in
      let finish mesh st1 :=
        let mesh := Mesh.set_agentData mesh agent in
        let mesh := pulse Math_sin now agent mesh in
        let mesh := highlight (selectedAgent st) agentId mesh in
        (set_agentMeshes st1 (store agentId mesh (agentMeshesRef st1)),
         Returned) in
      match lookup agentId (agentMeshesRef st) with
      | Some mesh => finish mesh st
      | None =>
          match placeRaw agent coordinators solvers with
          | None =>
              ({| sceneRef := sceneRef st;
                  agentMeshesRef := agentMeshesRef st;
                  transactionEdgesRef := transactionEdgesRef st;
                  selectedAgent := selectedAgent st;
                  nextObjectId := S (nextObjectId st) |}, Thrown)
          | Some position =>
              let mesh := createMeshAt (nextObjectId st) agent position in
              finish mesh
                {| sceneRef :=
                     option_map (fun children => children ++ [Mesh.id mesh])
                       (sceneRef st);
                   agentMeshesRef := store agentId mesh (agentMeshesRef st);
                   transactionEdgesRef := transactionEdgesRef st;
                   selectedAgent := selectedAgent st;
                   nextObjectId := S (nextObjectId st) |}
          end
      end
  end.

(** [forEach] with a callback that may throw: the first throw ends it. *)
Fixpoint forEachRaw {A : Type} (f : State -> A -> State * Completion)
  (l : list A) (st : State) : State * Completion :=
  match l with
  | [] => (st, Returned)
  | x :: l' =>
      match f st x with
      | (st', Returned) => forEachRaw f l' st'
      | (st', Thrown) => (st', Thrown)
      end
  end.

Definition rawAllAgents (ag : RawAgents) : list (option Agent.t) :=
  entries (rawCoordinators ag) ++ entries (rawSolvers ag).

(** The effect with dependencies [swarmData, selectedAgent];
    [[...coordinators, ...solvers]] throws on a value that cannot be
    spread. *)
Definition updateAgentsRaw (Math_sin : Q -> Q)
  (swarmData : option RawSwarmData) (now : Z) (st : State)
  : State * Completion :=
  match sceneRef st, swarmData with
  | Some _, Some sd =>
      match rawAgents sd with
      | Some ag =>
          let coordinators := entries (rawCoordinators ag) in
          let solvers := entries (rawSolvers ag) in
          if spreadable (rawCoordinators ag) && spreadable (rawSolvers ag)
          then
            let allAgents := coordinators ++ solvers in
            forEachRaw (updateAgentRaw Math_sin coordinators solvers now)
              allAgents st
          else (st, Thrown)
      | None => (st, Returned)
      end
  | _, _ => (st, Returned)
  end.

(** The group of the parsed roster an agent is counted in. *)
Definition rawGroup (agent : Agent.t) (ag : RawAgents)
  : list (option Agent.t) :=
  if isCoordinator agent then entries (rawCoordinators ag)
  else entries (rawSolvers ag).

Definition asParsed (l : option (list Agent.t)) : RosterField :=
  match l with
  | Some l => Entries (map Some l)
  | None => Absent
  end.

(** A roster of objects, as it is parsed. *)
Definition parsed (swarmData : option SwarmData) : option RawSwarmData :=
  match swarmData with
  | Some sd =>
      Some {| rawAgents :=
                match agents sd with
                | Some ag =>
                    Some {| rawCoordinators := asParsed (coordinators ag);
                            rawSolvers := asParsed (solvers ag) |}
                | None => None
                end;
              rawTransactions := transactions sd |}
  | None => None
  end.

(** ** Coordinates of a position *)

(** [(agentIndex / agentsInRole) * Math.PI * 2 + angleOffset]; with an empty
    role group the quotient is not a finite number and neither is the
    angle. *)
Definition angle (p : Polar) : option R :=
  if agentsInRole p =? 0 then None
  else Some (IZR (agentIndex p) / IZR (agentsInRole p) * PI * 2
             + match angleOffset p with
               | NoOffset => 0
               | QuarterPi => PI / 4
               end)%R.

(** [(mesh.position.x, mesh.position.z)]; [mesh.position.y] is 0. *)
Definition position_xz (p : Polar) : option (R * R) :=
  match angle p with
  | Some a => Some (cos a * IZR (radius p), sin a * IZR (radius p))%R
  | None => None
  end.

(** ** Vocabulary of the properties *)

(** The mesh an [allAgents.forEach] turn works on, and what the turn makes
    of it. *)
Definition baseMesh (coordinators solvers : list Agent.t) (st : State)
  (agent : Agent.t) : Mesh.t :=
  match lookup (Agent.agent_id agent) (agentMeshesRef st) with
  | Some mesh => mesh
  | None => createMesh (nextObjectId st) agent coordinators solvers
  end.

Definition dress (Math_sin : Q -> Q) (now : Z) (selected : option Agent.t)
  (agent : Agent.t) (mesh : Mesh.t) : Mesh.t :=
  highlight selected (Agent.agent_id agent)
    (pulse Math_sin now agent (Mesh.set_agentData mesh agent)).

(** The roster the agent effect iterates over. *)
Definition allAgents (ag : Agents) : list Agent.t :=
  orEmpty (coordinators ag) ++ orEmpty (solvers ag).

(** The group of the roster an agent is counted in. *)
Definition roleGroup (agent : Agent.t) (ag : Agents) : list Agent.t :=
  if isCoordinator agent then orEmpty (coordinators ag)
  else orEmpty (solvers ag).

(** The angle of index [i] in a role group of [n] agents. *)
Definition ringAngle (agent : Agent.t) (i n : nat) : R :=
  (IZR (Z.of_nat i) / IZR (Z.of_nat n) * PI * 2
   + (if isCoordinator agent then 0 else PI / 4))%R.

(** What every registry entry satisfies between two operations. *)
Definition entryOk (next : nat) (e : string * Mesh.t) : Prop :=
  Mesh.agentId (snd e) = fst e
  /\ (exists a, Mesh.agentData (snd e) = Some a /\ Agent.agent_id a = fst e)
  /\ Mesh.ring (snd e) <> None
  /\ (Mesh.id (snd e) < next)%nat.

Record Inv (st : State) : Prop := {
  inv_scene : sceneRef st <> None;
  inv_keys : NoDup (map fst (agentMeshesRef st));
  inv_ids : NoDup (map Mesh.id (values (agentMeshesRef st)));
  inv_entries : Forall (entryOk (nextObjectId st)) (agentMeshesRef st);
  inv_selected :
    forall s, selectedAgent st = Some s ->
              lookup (Agent.agent_id s) (agentMeshesRef st) <> None;
  inv_edges :
    Forall (fun e => lookup (Edge.from e) (agentMeshesRef st) <> None)
      (transactionEdgesRef st)
}.

(** Every registered object of [st] is still registered in [st'], under the
    same identifier, as the same object at the same position. *)
Definition persists (st st' : State) : Prop :=
  forall k m,
    lookup k (agentMeshesRef st) = Some m ->
    exists m',
      lookup k (agentMeshesRef st') = Some m'
      /\ Mesh.id m' = Mesh.id m
      /\ Mesh.position m' = Mesh.position m.

(** The selection override on an object: both values at 0.8. *)
Definition carriesOverride (m : Mesh.t) : bool :=
  Qeq_bool (Mesh.emissiveIntensity m) (8 # 10)
  && match Mesh.ring m with
     | Some r => Qeq_bool (ring_opacity r) (8 # 10)
     | None => false
     end.

Definition isSelected (selected : option Agent.t) (agentId : string) : bool :=
  match selected with
  | Some s => String.eqb (Agent.agent_id s) agentId
  | None => false
  end.

Definition expired (now : Z) (edge : Edge.t) : bool :=
  now - Edge.timestamp edge >? maxAge.

Definition faded (now : Z) (edge : Edge.t) : Edge.t :=
  fadeEdge (fade (now - Edge.timestamp edge)) edge.

(** The Three.js objects of an edge. *)
Definition edgeObjects (edge : Edge.t) : list nat :=
  Tube.id (Edge.line edge)
  :: match Edge.particles edge with
     | Some p => [Particle.id p]
     | None => []
     end.

(** The sweep by recursion on the array: the edge after a removed one is
    not visited. *)
Fixpoint sweepList (now : Z) (children : list nat) (edges : list Edge.t)
  : list nat * list Edge.t :=
  match edges with
  | [] => (children, [])
  | edge :: rest =>
      if expired now edge then
        match rest with
        | [] => (removeEdgeObjects edge children, [])
        | next :: rest' =>
            let s := sweepList now (removeEdgeObjects edge children) rest' in
            (fst s, next :: snd s)
        end
      else
        let s := sweepList now children rest in
        (fst s, faded now edge :: snd s)
  end.

(** The edges the callback of [forEach] is called on, turn by turn: the
    loop of [forEachEdge], keeping the arguments of [sweepAt]. *)
Fixpoint visits (now : Z) (len : nat) (index : nat)
  (s : list nat * list Edge.t) : list Edge.t :=
  match len with
  | O => []
  | S len' =>
      match nth_error (snd s) index with
      | Some edge => edge :: visits now len' (S index) (sweepAt now index edge s)
      | None => visits now len' (S index) s
      end
  end.

(** The edges a frame visits. *)
Definition visited (now : Z) (st : State) : list Edge.t :=
  match sceneRef st with
  | Some children =>
      visits now (List.length (transactionEdgesRef st)) 0
        (children, transactionEdgesRef st)
  | None => []
  end.

(** The visits by recursion on the array. *)
Fixpoint visitList (now : Z) (edges : list Edge.t) : list Edge.t :=
  match edges with
  | [] => []
  | edge :: rest =>
      if expired now edge then
        edge :: match rest with
                | [] => []
                | _ :: rest' => visitList now rest'
                end
      else edge :: visitList now rest
  end.

(** The edges pushed by [targetMeshes.forEach], numbered from [n]. *)
Fixpoint spawned (n : nat) (now : Z) (tx : Tx.t) (color : Z)
  (fromMesh : Mesh.t) (targets : list Mesh.t) : list Edge.t :=
  match targets with
  | [] => []
  | toMesh :: targets' =>
      newEdge n now tx color fromMesh toMesh
      :: spawned (S (S n)) now tx color fromMesh targets'
  end.

(** The edges one [transactions.forEach] turn pushes. *)
Definition pushed (now : Z) (st : State) (tx : Tx.t) : list Edge.t :=
  if existsb (sameTx (Tx.timestamp tx * 1000)%Q (Tx.from tx))
       (transactionEdgesRef st)
  then []
  else
    match lookup (Tx.from tx) (agentMeshesRef st) with
    | None => []
    | Some fromMesh =>
        spawned (nextObjectId st) now tx (txColor (Tx.msg_type tx)) fromMesh
          (targetMeshes tx fromMesh (agentMeshesRef st))
    end.

(** The states of a mounted component. *)
Definition reachable (Math_sin : Q -> Q) {Event : Type}
  (intersectObjects : Event -> list Mesh.t -> list Mesh.t) (st : State)
  : Prop :=
  exists ops, st = run Math_sin intersectObjects ops mounted.

(** The agent effect returns nothing and calls nothing back: what a caller
    can observe of a pass is the component state it leaves.  A pass surfaces
    an event when some observation tells the state after it from the state
    before. *)
Definition surfaces (before after : State) : Prop :=
  exists observe : State -> bool, observe after <> observe before.

Definition inScene (obj : nat) (st : State) : Prop :=
  match sceneRef st with
  | Some children => In obj children
  | None => False
  end.

Definition lineIds (edges : list Edge.t) : list nat :=
  map (fun e => Tube.id (Edge.line e)) edges.

(** ** Fixtures *)

Module Fixtures.

(** An oscillator at rest; the agents below are idle, so it is never read. *)
Definition atRest (x : Q) : Q := 0.

(** Pointer events name what lies under the pointer. *)
Definition rayAt (ev : string) (objects : list Mesh.t) : list Mesh.t :=
  filter (fun m => String.eqb (Mesh.agentId m) ev) objects.

Definition agent (agentId role : string) : Agent.t :=
  {| Agent.agent_id := agentId; Agent.role := role; Agent.status := None;
     Agent.active_tasks := None; Agent.reputation := None;
     Agent.specialization := None |}.

Definition c1 : Agent.t := agent "c1" "coordinator".
Definition c2 : Agent.t := agent "c2" "coordinator".
Definition s1 : Agent.t := agent "s1" "solver".
Definition s2 : Agent.t := agent "s2" "solver".

Definition announcement : Tx.t :=
  {| Tx.from := "c1"; Tx.msg_type := "task_announcement"; Tx.timestamp := 100 |}.

Definition roster (cs ss : list Agent.t) : Agents :=
  {| coordinators := Some cs; solvers := Some ss |}.

Definition data (cs ss : list Agent.t) (txs : list Tx.t) : SwarmData :=
  {| agents := Some (roster cs ss); transactions := Some txs |}.

Definition snapshot (cs ss : list Agent.t) (txs : list Tx.t)
  : option SwarmData :=
  Some (data cs ss txs).

Definition oneSolver : option SwarmData := snapshot [c1] [s1] [announcement].
Definition twoSolvers : option SwarmData :=
  snapshot [c1] [s1; s2] [announcement].
Definition pair : option SwarmData := snapshot [c1; c2] [] [].
Definition c2Alone : option SwarmData := snapshot [c2] [] [].

(** [{ transactions: [] }]: no [agents] mapping. *)
Definition corrupt : option SwarmData :=
  Some {| agents := None; transactions := Some [] |}.

(** [{ agents: { coordinators: [c1, null, c2] } }] *)
Definition holed : option RawSwarmData :=
  Some {| rawAgents :=
            Some {| rawCoordinators := Entries [Some c1; None; Some c2];
                    rawSolvers := Absent |};
          rawTransactions := None |}.

(** [{ agents: { coordinators: [c1], solvers: 7 } }] *)
Definition unspreadable : option RawSwarmData :=
  Some {| rawAgents :=
            Some {| rawCoordinators := Entries [Some c1];
                    rawSolvers := NotIterable |};
          rawTransactions := None |}.

Definition session (ops : list (@Op string)) : State :=
  run atRest rayAt ops mounted.

End Fixtures.

(** ** Further vocabulary *)

(** An event a [transactions.forEach] turn does nothing for: its key is
    tracked, its sender is not registered, or it has no target. *)
Definition settled (st : State) (tx : Tx.t) : bool :=
  existsb (sameTx (Tx.timestamp tx * 1000)%Q (Tx.from tx))
    (transactionEdgesRef st)
  || match lookup (Tx.from tx) (agentMeshesRef st) with
     | None => true
     | Some fromMesh =>
         match targetMeshes tx fromMesh (agentMeshesRef st) with
         | [] => true
         | _ :: _ => false
         end
     end.

(** A run in which no agent pass takes place and no frame removes an edge:
    every frame comes at a time when no tracked edge has expired. *)
Fixpoint quietRun (Math_sin : Q -> Q) {Event : Type}
  (intersectObjects : Event -> list Mesh.t -> list Mesh.t)
  (ops : list (@Op Event)) (st : State) : bool :=
  match ops with
  | [] => true
  | op :: ops' =>
      match op with
      | UpdateAgents _ _ => false
      | Animate now =>
          forallb (fun e => negb (expired now e)) (transactionEdgesRef st)
      | _ => true
      end
      && quietRun Math_sin intersectObjects ops'
           (step Math_sin intersectObjects st op)
  end.

(** What the registry keeps of an entry for good. *)
Definition entryCore (e : string * Mesh.t) : string * nat * Polar :=
  (fst e, Mesh.id (snd e), Mesh.position (snd e)).

(** What stays of a mesh for good: the object and its position. *)
Definition meshCore (m : Mesh.t) : nat * Polar := (Mesh.id m, Mesh.position m).

(** [l1] is [l2] with some elements left out. *)
Inductive Subsequence {A : Type} : list A -> list A -> Prop :=
| sub_nil l : Subsequence [] l
| sub_take x l1 l2 : Subsequence l1 l2 -> Subsequence (x :: l1) (x :: l2)
| sub_skip x l1 l2 : Subsequence l1 l2 -> Subsequence l1 (x :: l2).

(** The objects the scene may hold: lights and grid, one mesh per registered
    agent, tube and marker of every tracked edge. *)
Definition baseObjects : list nat := [0; 1; 2; 3; 4]%nat.

Definition sceneObjects (st : State) : list nat :=
  baseObjects
  ++ map Mesh.id (values (agentMeshesRef st))
  ++ flat_map edgeObjects (transactionEdgesRef st).

(** The objects that must be in the scene: lights and grid, the meshes and
    the tubes of the tracked edges. *)
Definition essentialObjects (st : State) : list nat :=
  baseObjects
  ++ map Mesh.id (values (agentMeshesRef st))
  ++ lineIds (transactionEdgesRef st).

Definition Tidy (st : State) : Prop :=
  exists children,
    sceneRef st = Some children
    /\ NoDup children
    /\ (forall x, In x children -> In x (sceneObjects st))
    /\ (forall x, In x (essentialObjects st) -> In x children)
    /\ NoDup (sceneObjects st)
    /\ (forall x, In x (sceneObjects st) -> (x < nextObjectId st)%nat).

(** The last step of [animateParticle]: [scene.remove(particle)]. *)
Definition removeMarker (particle : nat) (st : State) : State :=
  {| sceneRef := option_map (scene_remove particle) (sceneRef st);
     agentMeshesRef := agentMeshesRef st;
     transactionEdgesRef := transactionEdgesRef st;
     selectedAgent := selectedAgent st;
     nextObjectId := nextObjectId st |}.

(** The states of a mounted component when the markers' own animations run
    too.  Of a marker's animation only its last step acts on the state; a
    marker is a mesh of its own, so what that step removes is none of the
    lights, the grid, the agent meshes or the tubes. *)
Inductive displayed (Math_sin : Q -> Q) {Event : Type}
  (intersectObjects : Event -> list Mesh.t -> list Mesh.t) : State -> Prop :=
| displayed_mounted : displayed Math_sin intersectObjects mounted
| displayed_step st op :
    displayed Math_sin intersectObjects st ->
    displayed Math_sin intersectObjects (step Math_sin intersectObjects st op)
| displayed_marker st particle :
    displayed Math_sin intersectObjects st ->
    ~ In particle (essentialObjects st) ->
    displayed Math_sin intersectObjects (removeMarker particle st).

(** The ranges of the animated values of a mesh. *)
Definition inBounds (m : Mesh.t) : Prop :=
  ((1 # 10) <= Mesh.emissiveIntensity m <= (8 # 10))%Q
  /\ ((68 # 100) <= Mesh.scale m <= (23 # 10))%Q
  /\ match Mesh.ring m with
     | Some r => (0 <= ring_opacity r <= (8 # 10))%Q
     | None => True
     end.

(** The elements at the odd indices 1, 3, 5, ... *)
Fixpoint oddIndexed {A : Type} (l : list A) : list A :=
  match l with
  | _ :: y :: l' => y :: oddIndexed l'
  | _ => []
  end.

(** The elements at the even indices 0, 2, 4, ... *)
Fixpoint evenIndexed {A : Type} (l : list A) : list A :=
  match l with
  | [] => []
  | [x] => [x]
  | x :: _ :: l' => x :: evenIndexed l'
  end.

(** Frames at the given times, one after the other. *)
Definition frames (nows : list Z) (st : State) : State :=
  fold_left (fun st now => animate now st) nows st.

(** The operations that come from the pointer. *)
Definition isPointerOp {Event : Type} (op : @Op Event) : bool :=
  match op with
  | HandleClick _ | ClosePanel => true
  | _ => false
  end.

(** * The other components *)

(** ** utils/config: [getWsUrl] and [getApiBase] *)

Module Config.

(** [import.meta.env] and [window.location], as far as they are read. *)
Record Env := {
  VITE_WS_URL : option string;
  VITE_API_URL : option string;
  protocol : string;
  host : string
}.

(** Truthiness of a string that may be undefined. *)
Definition truthy (s : option string) : bool :=
  match s with
  | None => false
  | Some EmptyString => false
  | Some (String _ _) => true
  end.

(** [a || b] *)
Definition orElse (a b : option string) : option string :=
  if truthy a then a else b.

(** [Some rest] when [s] is [pat] followed by [rest]. *)
Fixpoint dropPrefix (pat s : string) : option string :=
  match pat, s with
  | EmptyString, _ => Some s
  | String _ _, EmptyString => None
  | String c pat', String d s' =>
      if Ascii.eqb c d then dropPrefix pat' s' else None
  end.

(** [s.replace(/^pat/, rep)] for a literal [pat] *)
Definition replaceStart (pat rep s : string) : string :=
  match dropPrefix pat s with
  | Some rest => (rep ++ rest)%string
  | None => s
  end.

(** [s.endsWith(suffix)] *)
Fixpoint endsWith (suffix s : string) : bool :=
  if String.eqb s suffix then true
  else match s with
       | EmptyString => false
       | String _ s' => endsWith suffix s'
       end.

(** [s.replace(/pat$/, '')] for a literal, non-empty [pat] *)
Fixpoint replaceEnd (pat s : string) : string :=
  if String.eqb s pat then EmptyString
  else match s with
       | EmptyString => EmptyString
       | String c s' => String c (replaceEnd pat s')
       end.

Definition getWsUrl (env : Env) : string :=
  let envUrl := orElse (VITE_WS_URL env) (VITE_API_URL env) in
  match envUrl with
  | Some (String c u) =>
      let envUrl := replaceStart "http" "ws" (String c u) in
      if endsWith "/ws" envUrl then envUrl
      else (replaceEnd "/" envUrl ++ "/ws")%string
  | _ =>
      let protocol :=
        if String.eqb (protocol env) "https:" then "wss:"%string
        else "ws:"%string in
      (protocol ++ "//" ++ host env ++ "/ws")%string
  end.

Definition getApiBase (env : Env) : string :=
  let wsUrl := getWsUrl env in
  if negb (truthy (VITE_WS_URL env)) && negb (truthy (VITE_API_URL env))
  then EmptyString
  else replaceEnd "/ws" (replaceStart "ws" "http" wsUrl).

(** The environment in which [url] has been put in [VITE_WS_URL]. *)
Definition withWsUrl (url : string) (env : Env) : Env :=
  {| VITE_WS_URL := Some url; VITE_API_URL := VITE_API_URL env;
     protocol := protocol env; host := host env |}.

End Config.

(** ** hooks/useWebSocket *)

Module Socket.

(** A parsed frame: [message.type] and [message.data]. *)
Record Message := {
  type : option string;
  data : option SwarmData
}.

(** What the socket delivers; a frame carries the outcome of the [try]
    block's [JSON.parse] and property reads, [None] when they throw. *)
Inductive Event :=
| Open
| Frame (parsed : option Message)
| Error
| Close.

Record Hook := {
  swarmData : option SwarmData;
  isConnected : bool;
  reconnects : nat
}.

(** [useState(null)], [useState(false)] *)
Definition initial : Hook :=
  {| swarmData := None; isConnected := false; reconnects := 0 |}.

(** [message.type === 'swarm_update' || message.type === 'initial_state'] *)
Definition accepted (message : Message) : bool :=
  match type message with
  | Some t => String.eqb t "swarm_update" || String.eqb t "initial_state"
  | None => false
  end.

Definition handle (h : Hook) (ev : Event) : Hook :=
  match ev with
  | Open =>
      {| swarmData := swarmData h; isConnected := true;
         reconnects := reconnects h |}
  | Frame (Some message) =>
      if accepted message
      then {| swarmData := data message; isConnected := isConnected h;
              reconnects := reconnects h |}
      else h
  | Frame None => h
  | Error => h
  | Close =>
      {| swarmData := swarmData h; isConnected := false;
         reconnects := S (reconnects h) |}
  end.

Definition deliver (events : list Event) (h : Hook) : Hook :=
  fold_left handle events h.

Definition isAccepted (ev : Event) : bool :=
  match ev with
  | Frame (Some message) => accepted message
  | _ => false
  end.

Definition isOpenOrClose (ev : Event) : bool :=
  match ev with
  | Open | Close => true
  | _ => false
  end.

End Socket.

(** ** PerformanceCharts: the doughnut data *)

Module Task.
Record t := {
  status : string;
  created_at : Q
}.
End Task.

Module Charts.

(** The second [taskHistory.forEach]: [(completed, failed)]. *)
Definition tally (taskHistory : list Task.t) : Z * Z :=
  fold_left
    (fun counts task =>
       (if String.eqb (Task.status task) "completed"
        then fst counts + 1 else fst counts,
        if String.eqb (Task.status task) "failed"
        then snd counts + 1 else snd counts))
    taskHistory (0, 0).

(** [[completed, failed, taskHistory.length - completed - failed]] *)
Definition doughnutData (taskHistory : list Task.t) : list Z :=
  let completed := fst (tally taskHistory) in
  let failed := snd (tally taskHistory) in
  [completed; failed; Z.of_nat (List.length taskHistory) - completed - failed].

Definition hasStatus (s : string) (task : Task.t) : bool :=
  String.eqb (Task.status task) s.

Definition isOpen (task : Task.t) : bool :=
  negb (hasStatus "completed" task) && negb (hasStatus "failed" task).

End Charts.

(** ** StatsOverlay: totals over the solvers *)

Module Stats.

(** A property of a parsed JSON object: absent, [null], a value of the
    expected kind, or a value of another kind (a number or a string where
    an object is expected, anything but an array where an array is). *)
Inductive Field (A : Type) :=
| Undefined
| Null
| Other
| Defined (a : A).
Arguments Undefined {A}.
Arguments Null {A}.
Arguments Other {A}.
Arguments Defined {A}.

(** A solver as the overlay reads it; the two properties are numbers or
    missing. *)
Record Solver := {
  earnings : option Q;
  success_rate : option Q
}.

(** [swarmData.agents], as far as the overlay reads it; an entry of the
    array is a solver or [null]. *)
Record AgentsField := {
  solvers : Field (list (option Solver))
}.

(** [x || 0] on a number that may be missing *)
Definition orZero (x : option Q) : Q :=
  match x with
  | Some v => if Qeq_bool v 0 then 0 else v
  | None => 0
  end.

(** [solvers.reduce((sum, s) => sum + (s.p || 0), 0)]: reading a property
    of [null] throws, [None]. *)
Fixpoint reduceSum (p : Solver -> option Q) (solvers : list (option Solver))
  (sum : Q) : option Q :=
  match solvers with
  | [] => Some sum
  | None :: _ => None
  | Some s :: solvers' => reduceSum p solvers' (sum + orZero (p s))%Q
  end.

Definition totalEarnings (solvers : list (option Solver)) : option Q :=
  reduceSum earnings solvers 0.

Definition avgSuccessRate (solvers : list (option Solver)) : option Q :=
  if (0 <? List.length solvers)%nat
  then match reduceSum success_rate solvers 0 with
       | Some sum =>
           Some (sum / inject_Z (Z.of_nat (List.length solvers)))%Q
       | None => None
       end
  else Some 0%Q.

Inductive Rendered :=
| Placeholder
| Card (totalEarnings avgSuccessRate : Q)
| TypeError.

(** [swarmData], as far as the component function can fail on it. *)
Record Snapshot := {
  agents : Field AgentsField;
  mode : Field string
}.

(** [const { coordinators = [], solvers = [] } = swarmData.agents || {}]
    followed by the two [solvers.reduce]; a default applies to an absent
    property only, [null] has no [reduce] and neither has a value that is
    not an array. *)
Definition totals (agents : Field AgentsField) : option (Q * Q) :=
  let solvers :=
    match agents with
    | Defined a => solvers a
    | _ => Undefined
    end in
  match solvers with
  | Undefined => Some (0, 0)%Q
  | Null | Other => None
  | Defined l =>
      match totalEarnings l with
      | Some total =>
          match avgSuccessRate l with
          | Some avg => Some (total, avg)
          | None => None
          end
      | None => None
      end
  end.

(** The component function: the placeholder without data; otherwise the
    totals, then the card, where [swarmData.mode?.toUpperCase()] throws on a
    mode that is neither missing nor a string.  The other values are shown
    as they come. *)
Definition overlay (swarmData : option Snapshot) : Rendered :=
  match swarmData with
  | None => Placeholder
  | Some sd =>
      match totals (agents sd) with
      | None => TypeError
      | Some (total, avg) =>
          match mode sd with
          | Other => TypeError
          | _ => Card total avg
          end
      end
  end.

End Stats.

(** ** TaskHistory: the solver shown on a card *)

Module History.

(** [s.split(sep)] for a one-character separator *)
Fixpoint split (sep : ascii) (s : string) : list string :=
  match s with
  | EmptyString => [EmptyString]
  | String c s' =>
      if Ascii.eqb c sep then EmptyString :: split sep s'
      else match split sep s' with
           | piece :: pieces => String c piece :: pieces
           | [] => [String c EmptyString]
           end
  end.

(** [task.assigned_to && task.assigned_to.split('_')[1]]: what the card
    shows as solver, [None] when it shows nothing. *)
Definition solverLabel (assigned_to : option string) : option string :=
  match assigned_to with
  | None => None
  | Some EmptyString => None
  | Some s => nth_error (split "_" s) 1
  end.

Definition free (sep : ascii) (s : string) : Prop :=
  Forall (fun c => c <> sep) (list_ascii_of_string s).

End History.

(** ** Examples for the other components *)

Module Samples.

Definition production : Config.Env :=
  {| Config.VITE_WS_URL := None;
     Config.VITE_API_URL := Some "https://swarm.example"%string;
     Config.protocol := "http:"; Config.host := "localhost:5173" |}.

Definition update : Socket.Message :=
  {| Socket.type := Some "swarm_update"%string; Socket.data := None |}.

Definition steady : Stats.Solver :=
  {| Stats.earnings := Some 1500%Q; Stats.success_rate := Some (3 # 4)%Q |}.

Definition novice : Stats.Solver :=
  {| Stats.earnings := None; Stats.success_rate := None |}.

End Samples.

(** Two edges tracked under one dedup key. *)
Definition sameKey (e1 e2 : Edge.t) : bool :=
  sameTx (Edge.txTimestamp e1) (Edge.from e1) e2.

(** Edges of one key were made together. *)
Definition OneTurnPerKey (edges : list Edge.t) : Prop :=
  forall e1 e2,
    In e1 edges -> In e2 edges -> sameKey e1 e2 = true ->
    Tube.color (Edge.line e1) = Tube.color (Edge.line e2)
    /\ fst (Tube.curve (Edge.line e1)) = fst (Tube.curve (Edge.line e2)).

(** Two edge records that differ at most in their opacities. *)
Definition madeAlike (e e' : Edge.t) : Prop :=
  Edge.timestamp e' = Edge.timestamp e
  /\ Edge.txTimestamp e' = Edge.txTimestamp e
  /\ Edge.from e' = Edge.from e
  /\ Tube.color (Edge.line e') = Tube.color (Edge.line e)
  /\ Tube.curve (Edge.line e') = Tube.curve (Edge.line e).

(** * Properties *)

(** ** Enumeration of a JS object *)

Lemma insertIndexed_perm {A : Type} n (x : A) l :
  Permutation (insertIndexed n x l) ((n, x) :: l).
Proof.
  induction l as [|[n' y] l IH]; simpl; [reflexivity|].
  destruct (n <? n')%N; [reflexivity|].
  rewrite IH. apply perm_swap.
Qed.

Lemma indexedValues_fold_perm {A : Type} (r : list (string * A)) acc :
  Permutation
    (map snd
       (fold_left
          (fun acc e =>
             match arrayIndex (fst e) with
             | Some n => insertIndexed n (snd e) acc
             | None => acc
             end) r acc)
     ++ namedValues r)
    (map snd acc ++ map snd r).
Proof.
  revert acc. induction r as [|e r IH]; intros acc.
  - reflexivity.
  - cbn [fold_left]. unfold namedValues. cbn [filter map].
    destruct (arrayIndex (fst e)) as [n|].
    + fold (namedValues r). rewrite IH.
      rewrite (Permutation_map snd (insertIndexed_perm n (snd e) acc)).
      cbn [map snd]. apply Permutation_middle.
    + cbn [map]. fold (namedValues r).
      rewrite <- !Permutation_middle. now rewrite IH.
Qed.

Lemma ownValues_perm {A : Type} (r : list (string * A)) :
  Permutation (ownValues r) (map snd r).
Proof. apply (indexedValues_fold_perm r []). Qed.

Lemma insertIndexed_map {A B : Type} (f : A -> B) n x l :
  map (fun e => (fst e, f (snd e))) (insertIndexed n x l)
  = insertIndexed n (f x) (map (fun e => (fst e, f (snd e))) l).
Proof.
  induction l as [|[n' y] l IH]; simpl; [reflexivity|].
  destruct (n <? n')%N; simpl; [reflexivity | now rewrite IH].
Qed.

Lemma indexedValues_fold_map {A B : Type} (f : A -> B)
  (r : list (string * A)) acc :
  map (fun e => (fst e, f (snd e)))
    (fold_left
       (fun acc e =>
          match arrayIndex (fst e) with
          | Some n => insertIndexed n (snd e) acc
          | None => acc
          end) r acc)
  = fold_left
      (fun acc e =>
         match arrayIndex (fst e) with
         | Some n => insertIndexed n (snd e) acc
         | None => acc
         end)
      (map (fun e => (fst e, f (snd e))) r)
      (map (fun e => (fst e, f (snd e))) acc).
Proof.
  revert acc. induction r as [|e r IH]; intros acc; cbn [fold_left map];
    [reflexivity|].
  cbn [fst snd]. rewrite IH.
  destruct (arrayIndex (fst e)) as [n|]; [|reflexivity].
  now rewrite insertIndexed_map.
Qed.

Lemma ownValues_map {A B : Type} (f : A -> B) (r : list (string * A)) :
  map f (ownValues r) = ownValues (map (fun e => (fst e, f (snd e))) r).
Proof.
  unfold ownValues. rewrite map_app. f_equal.
  - unfold indexedValues.
    pose proof (indexedValues_fold_map f r []) as H. cbn [map] in H.
    rewrite <- H, !map_map. apply map_ext. reflexivity.
  - unfold namedValues. induction r as [|e r IH]; cbn [filter map fst];
      [reflexivity|].
    destruct (arrayIndex (fst e)); cbn [map snd]; now rewrite IH.
Qed.

Lemma values_perm r : Permutation (values r) (map snd r).
Proof. apply ownValues_perm. Qed.

Lemma in_values m r : In m (values r) <-> In m (map snd r).
Proof.
  split; apply Permutation_in;
    [apply values_perm | symmetry; apply values_perm].
Qed.

Lemma values_ids_perm r :
  Permutation (map Mesh.id (values r)) (map Mesh.id (map snd r)).
Proof. apply Permutation_map, values_perm. Qed.

Lemma values_ids_NoDup r :
  NoDup (map Mesh.id (values r)) <-> NoDup (map Mesh.id (map snd r)).
Proof.
  split; apply Permutation_NoDup;
    [apply values_ids_perm | symmetry; apply values_ids_perm].
Qed.

Lemma in_values_ids x r :
  In x (map Mesh.id (values r)) <-> In x (map Mesh.id (map snd r)).
Proof.
  split; apply Permutation_in;
    [apply values_ids_perm | symmetry; apply values_ids_perm].
Qed.

Lemma Subsequence_refl {A : Type} (l : list A) : Subsequence l l.
Proof. induction l; constructor; auto. Qed.

Lemma Subsequence_trans {A : Type} (l1 l2 l3 : list A) :
  Subsequence l1 l2 -> Subsequence l2 l3 -> Subsequence l1 l3.
Proof.
  intros H12 H23. revert l1 H12.
  induction H23 as [l3|x l2 l3 H IH|x l2 l3 H IH]; intros l1 H12.
  - inversion H12; subst. constructor.
  - inversion H12; subst; constructor; auto.
  - constructor. auto.
Qed.

Lemma Subsequence_app {A : Type} (l1 l1' l2 l2' : list A) :
  Subsequence l1 l1' -> Subsequence l2 l2' ->
  Subsequence (l1 ++ l2) (l1' ++ l2').
Proof.
  intros H1 H2. induction H1 as [l|x l1 l1' H IH|x l1 l1' H IH]; simpl.
  - induction l as [|y l IH]; simpl; [exact H2 | now constructor].
  - now constructor.
  - now constructor.
Qed.

Lemma Subsequence_app_l {A : Type} (l added : list A) :
  Subsequence l (l ++ added).
Proof.
  rewrite <- (app_nil_r l) at 1.
  apply Subsequence_app; [apply Subsequence_refl | constructor].
Qed.

Lemma insertIndexed_Subsequence {A : Type} n (x : A) l :
  Subsequence (map snd l) (map snd (insertIndexed n x l)).
Proof.
  induction l as [|[n' y] l IH]; simpl; [constructor|].
  destruct (n <? n')%N; simpl.
  - constructor. apply Subsequence_refl.
  - now constructor.
Qed.

(** New properties never reorder the values listed before. *)
Lemma ownValues_app_Subsequence {A : Type} (r added : list (string * A)) :
  Subsequence (ownValues r) (ownValues (r ++ added)).
Proof.
  unfold ownValues. apply Subsequence_app.
  - unfold indexedValues. rewrite fold_left_app.
    generalize (fold_left
                  (fun acc (e : string * A) =>
                     match arrayIndex (fst e) with
                     | Some n => insertIndexed n (snd e) acc
                     | None => acc
                     end) r []).
    induction added as [|e added IH]; intros acc; cbn [fold_left].
    + apply Subsequence_refl.
    + eapply Subsequence_trans; [|apply IH].
      destruct (arrayIndex (fst e)) as [n|];
        [apply insertIndexed_Subsequence | apply Subsequence_refl].
  - unfold namedValues. rewrite filter_app, map_app.
    apply Subsequence_app_l.
Qed.

(** ** The registry *)

Lemma lookup_store_same k m r : lookup k (store k m r) = Some m.
Proof.
  induction r as [|[k' m'] r IH]; simpl.
  - now rewrite String.eqb_refl.
  - destruct (String.eqb k' k) eqn:E; simpl; rewrite E; auto.
Qed.

Lemma lookup_store_other k k' m r :
  k <> k' -> lookup k' (store k m r) = lookup k' r.
Proof.
  intros Hne. induction r as [|[k0 m0] r IH]; simpl.
  - destruct (String.eqb_spec k k'); congruence.
  - destruct (String.eqb_spec k0 k) as [->|]; simpl.
    + destruct (String.eqb_spec k k'); congruence.
    + now rewrite IH.
Qed.

Lemma store_store k m m' r : store k m' (store k m r) = store k m' r.
Proof.
  induction r as [|[k0 m0] r IH]; simpl.
  - now rewrite String.eqb_refl.
  - destruct (String.eqb k0 k) eqn:E; simpl; rewrite E; congruence.
Qed.

Lemma lookup_none_notin k r : lookup k r = None <-> ~ In k (map fst r).
Proof.
  induction r as [|[k0 m0] r IH]; simpl.
  - tauto.
  - destruct (String.eqb_spec k0 k); split; intros H.
    + discriminate.
    + tauto.
    + intros [?|?]; [congruence | tauto].
    + tauto.
Qed.

Lemma lookup_in k m r : lookup k r = Some m -> In (k, m) r.
Proof.
  induction r as [|[k0 m0] r IH]; simpl; [discriminate|].
  destruct (String.eqb_spec k0 k); intros H.
  - left. congruence.
  - auto.
Qed.

Lemma in_lookup k m r : NoDup (map fst r) -> In (k, m) r -> lookup k r = Some m.
Proof.
  induction r as [|[k0 m0] r IH]; simpl; [tauto|].
  intros Hnd [H|H]; inversion Hnd; subst.
  - inversion H; subst. now rewrite String.eqb_refl.
  - destruct (String.eqb_spec k0 k) as [->|]; auto.
    exfalso. apply H2. change k with (fst (k, m)). now apply in_map.
Qed.

Lemma store_absent k m r : lookup k r = None -> store k m r = r ++ [(k, m)].
Proof.
  induction r as [|[k0 m0] r IH]; simpl; [reflexivity|].
  destruct (String.eqb k0 k); [discriminate|].
  intros H. now rewrite IH.
Qed.

Lemma store_present_keys k m m0 r :
  lookup k r = Some m0 -> map fst (store k m r) = map fst r.
Proof.
  induction r as [|[k1 m1] r IH]; simpl; [discriminate|].
  destruct (String.eqb k1 k); simpl; [reflexivity|].
  intros H. now rewrite IH.
Qed.

Lemma store_present_ids k m m0 r :
  lookup k r = Some m0 -> Mesh.id m = Mesh.id m0 ->
  map Mesh.id (values (store k m r)) = map Mesh.id (values r).
Proof.
  intros H Hid. unfold values. rewrite !ownValues_map. f_equal.
  revert H. induction r as [|[k1 m1] r IH]; simpl; [discriminate|].
  destruct (String.eqb_spec k1 k) as [->|]; simpl; intros H.
  - inversion H; subst. now rewrite Hid.
  - now rewrite IH.
Qed.

Lemma store_Forall (P : string * Mesh.t -> Prop) k m r :
  Forall P r -> P (k, m) -> Forall P (store k m r).
Proof.
  intros Hr Hm. induction Hr as [|[k1 m1] r H1 Hr IH]; simpl.
  - constructor; auto.
  - destruct (String.eqb_spec k1 k) as [->|]; constructor; auto.
Qed.

Lemma lookup_store_some k k' m r :
  lookup k' r <> None -> lookup k' (store k m r) <> None.
Proof.
  destruct (String.eqb_spec k k') as [->|Hne].
  - rewrite lookup_store_same. discriminate.
  - now rewrite lookup_store_other.
Qed.

Lemma filter_all {A : Type} (l : list A) : filter (fun _ => true) l = l.
Proof. induction l; simpl; congruence. Qed.

Lemma in_values_lookup m r :
  NoDup (map fst r) -> Forall (fun e => Mesh.agentId (snd e) = fst e) r ->
  In m (values r) -> lookup (Mesh.agentId m) r = Some m.
Proof.
  intros Hnd Hall Hin. apply in_values in Hin.
  apply in_map_iff in Hin as [[k m'] [Heq Hin]]. simpl in Heq. subst m'.
  rewrite Forall_forall in Hall. specialize (Hall _ Hin). simpl in Hall.
  rewrite Hall. now apply in_lookup.
Qed.

Lemma lookup_in_values k m r : lookup k r = Some m -> In m (values r).
Proof.
  intros H. apply lookup_in in H. apply in_values.
  change m with (snd (k, m)). now apply in_map.
Qed.

Lemma NoDup_snoc {A : Type} (x : A) (l : list A) :
  NoDup l -> ~ In x l -> NoDup (l ++ [x]).
Proof.
  induction l as [|y l IH]; simpl; intros Hnd Hx.
  - constructor; [tauto | constructor].
  - inversion Hnd; subst. constructor.
    + rewrite in_app_iff. simpl. intros [?|[?|[]]]; [tauto | subst; tauto].
    + apply IH; tauto.
Qed.

Lemma entryOk_mono n n' e : (n <= n')%nat -> entryOk n e -> entryOk n' e.
Proof. unfold entryOk. intros Hle (H1 & H2 & H3 & H4). repeat split; auto. lia. Qed.

Lemma entries_lookup n r k m :
  Forall (entryOk n) r -> lookup k r = Some m -> entryOk n (k, m).
Proof.
  intros Hall H. rewrite Forall_forall in Hall. apply Hall. now apply lookup_in.
Qed.

Lemma entries_ids_below n r :
  Forall (entryOk n) r -> ~ In n (map Mesh.id (values r)).
Proof.
  intros Hall Hin. apply in_values_ids in Hin. rewrite map_map in Hin.
  apply in_map_iff in Hin as [e [He Hin]].
  rewrite Forall_forall in Hall. destruct (Hall _ Hin) as (_ & _ & _ & Hlt). lia.
Qed.

Lemma entries_agentId n r :
  Forall (entryOk n) r -> Forall (fun e => Mesh.agentId (snd e) = fst e) r.
Proof. apply Forall_impl. intros e H. apply H. Qed.

Section Properties.

Variable Math_sin : Q -> Q.
Hypothesis Math_sin_range : forall x, (-1 <= Math_sin x <= 1)%Q.

Variable Event : Type.
Variable intersectObjects : Event -> list Mesh.t -> list Mesh.t.
Hypothesis intersectObjects_among :
  forall ev objects m, In m (intersectObjects ev objects) -> In m objects.

(** ** One turn of the agent loop *)

Lemma dress_core now sel a base :
  Mesh.id (dress Math_sin now sel a base) = Mesh.id base
  /\ Mesh.position (dress Math_sin now sel a base) = Mesh.position base
  /\ Mesh.agentId (dress Math_sin now sel a base) = Mesh.agentId base
  /\ Mesh.agentData (dress Math_sin now sel a base) = Some a
  /\ (Mesh.ring base <> None -> Mesh.ring (dress Math_sin now sel a base) <> None).
Proof.
  unfold dress, highlight, pulse.
  destruct sel as [s|]; [destruct (String.eqb _ _)|];
    destruct (isActive a); simpl; repeat split; try reflexivity;
    destruct (Mesh.ring base); simpl; congruence.
Qed.

Lemma updateAgent_registry cs ss now st a :
  agentMeshesRef (updateAgent Math_sin cs ss now st a)
  = store (Agent.agent_id a)
      (dress Math_sin now (selectedAgent st) a (baseMesh cs ss st a))
      (agentMeshesRef st).
Proof.
  unfold updateAgent, baseMesh, dress.
  destruct (lookup (Agent.agent_id a) (agentMeshesRef st)); simpl;
    [reflexivity | apply store_store].
Qed.

Lemma updateAgent_next cs ss now st a :
  nextObjectId (updateAgent Math_sin cs ss now st a)
  = match lookup (Agent.agent_id a) (agentMeshesRef st) with
    | Some _ => nextObjectId st
    | None => S (nextObjectId st)
    end.
Proof.
  unfold updateAgent.
  destruct (lookup (Agent.agent_id a) (agentMeshesRef st)); reflexivity.
Qed.

Lemma updateAgent_selected cs ss now st a :
  selectedAgent (updateAgent Math_sin cs ss now st a) = selectedAgent st.
Proof.
  unfold updateAgent.
  destruct (lookup (Agent.agent_id a) (agentMeshesRef st)); reflexivity.
Qed.

Lemma updateAgent_edges cs ss now st a :
  transactionEdgesRef (updateAgent Math_sin cs ss now st a)
  = transactionEdgesRef st.
Proof.
  unfold updateAgent.
  destruct (lookup (Agent.agent_id a) (agentMeshesRef st)); reflexivity.
Qed.

Lemma updateAgent_scene cs ss now st a :
  sceneRef st <> None -> sceneRef (updateAgent Math_sin cs ss now st a) <> None.
Proof.
  unfold updateAgent.
  destruct (lookup (Agent.agent_id a) (agentMeshesRef st)); simpl; auto.
  destruct (sceneRef st); simpl; congruence.
Qed.

Lemma baseMesh_ok cs ss now st a :
  Forall (entryOk (nextObjectId st)) (agentMeshesRef st) ->
  Mesh.agentId (baseMesh cs ss st a) = Agent.agent_id a
  /\ Mesh.ring (baseMesh cs ss st a) <> None
  /\ (Mesh.id (baseMesh cs ss st a)
      < nextObjectId (updateAgent Math_sin cs ss now st a))%nat.
Proof.
  intros Hall. rewrite updateAgent_next. unfold baseMesh.
  destruct (lookup (Agent.agent_id a) (agentMeshesRef st)) as [m0|] eqn:E.
  - destruct (entries_lookup _ _ _ _ Hall E) as (H1 & _ & H3 & H4).
    simpl in *. auto.
  - simpl. repeat split; [discriminate | lia].
Qed.

Lemma updateAgent_Inv cs ss now st a :
  Inv st -> Inv (updateAgent Math_sin cs ss now st a).
Proof.
  intros [Hsc Hk Hi He Hs Hed].
  pose proof (dress_core now (selectedAgent st) a (baseMesh cs ss st a))
    as (Did & _ & Dag & Ddata & Dring).
  pose proof (baseMesh_ok cs ss now st a He) as (Bag & Bring & Bid).
  constructor.
  - now apply updateAgent_scene.
  - rewrite updateAgent_registry.
    destruct (lookup (Agent.agent_id a) (agentMeshesRef st)) as [m0|] eqn:E.
    + now rewrite (store_present_keys _ _ _ _ E).
    + rewrite (store_absent _ _ _ E), map_app. simpl.
      apply NoDup_snoc; auto. now apply lookup_none_notin.
  - rewrite updateAgent_registry.
    destruct (lookup (Agent.agent_id a) (agentMeshesRef st)) as [m0|] eqn:E.
    + rewrite (store_present_ids _ _ _ _ E); auto.
      rewrite Did. unfold baseMesh. now rewrite E.
    + rewrite (store_absent _ _ _ E). apply values_ids_NoDup.
      rewrite !map_app. simpl.
      apply NoDup_snoc; [now apply values_ids_NoDup|].
      rewrite Did. unfold baseMesh. rewrite E. simpl.
      intros Hin. apply in_values_ids in Hin. revert Hin.
      now apply entries_ids_below.
  - rewrite updateAgent_registry. apply store_Forall.
    + eapply Forall_impl; [|exact He]. intros e. apply entryOk_mono.
      rewrite updateAgent_next.
      destruct (lookup (Agent.agent_id a) (agentMeshesRef st)); lia.
    + unfold entryOk. simpl. rewrite Dag, Did.
      repeat split; auto. exists a. auto.
  - intros s. rewrite updateAgent_selected, updateAgent_registry. intros H.
    apply lookup_store_some. now apply Hs.
  - rewrite updateAgent_edges, updateAgent_registry.
    eapply Forall_impl; [|exact Hed]. intros e. apply lookup_store_some.
Qed.

Lemma updateAgent_persists cs ss now st a :
  persists st (updateAgent Math_sin cs ss now st a).
Proof.
  intros k m Hk. rewrite updateAgent_registry.
  pose proof (dress_core now (selectedAgent st) a (baseMesh cs ss st a))
    as (Did & Dpos & _).
  destruct (String.eqb_spec (Agent.agent_id a) k) as [Heq|Hne].
  - subst k. rewrite lookup_store_same. eexists. split; [reflexivity|].
    rewrite Did, Dpos. unfold baseMesh. rewrite Hk. auto.
  - rewrite lookup_store_other by assumption. eauto.
Qed.

Lemma persists_refl st : persists st st.
Proof. intros k m H. eauto. Qed.

Lemma persists_trans st1 st2 st3 :
  persists st1 st2 -> persists st2 st3 -> persists st1 st3.
Proof.
  intros H12 H23 k m H.
  destruct (H12 _ _ H) as (m2 & L2 & I2 & P2).
  destruct (H23 _ _ L2) as (m3 & L3 & I3 & P3).
  exists m3. repeat split; congruence.
Qed.

Lemma persists_same_registry st st' :
  agentMeshesRef st' = agentMeshesRef st -> persists st st'.
Proof. intros E k m H. rewrite E. eauto. Qed.

(** ** The agent loop *)

Lemma forEach_updateAgent_Inv cs ss now l st :
  Inv st -> Inv (fold_left (updateAgent Math_sin cs ss now) l st).
Proof.
  revert st. induction l as [|a l IH]; simpl; intros st H; auto.
  apply IH. now apply updateAgent_Inv.
Qed.

Lemma forEach_updateAgent_persists cs ss now l st :
  persists st (fold_left (updateAgent Math_sin cs ss now) l st).
Proof.
  revert st. induction l as [|a l IH]; simpl; intros st.
  - apply persists_refl.
  - eapply persists_trans; [apply updateAgent_persists | apply IH].
Qed.

Lemma forEach_updateAgent_selected cs ss now l st :
  selectedAgent (fold_left (updateAgent Math_sin cs ss now) l st)
  = selectedAgent st.
Proof.
  revert st. induction l as [|a l IH]; simpl; intros st; auto.
  now rewrite IH, updateAgent_selected.
Qed.

Lemma forEach_updateAgent_edges cs ss now l st :
  transactionEdgesRef (fold_left (updateAgent Math_sin cs ss now) l st)
  = transactionEdgesRef st.
Proof.
  revert st. induction l as [|a l IH]; simpl; intros st; auto.
  now rewrite IH, updateAgent_edges.
Qed.

Lemma forEach_updateAgent_next cs ss now l st :
  (nextObjectId st
   <= nextObjectId (fold_left (updateAgent Math_sin cs ss now) l st))%nat.
Proof.
  revert st. induction l as [|a l IH]; simpl; intros st; auto.
  etransitivity; [|apply IH]. rewrite updateAgent_next.
  destruct (lookup (Agent.agent_id a) (agentMeshesRef st)); lia.
Qed.

Lemma forEach_updateAgent_others cs ss now l st k :
  (forall a, In a l -> Agent.agent_id a <> k) ->
  lookup k (agentMeshesRef (fold_left (updateAgent Math_sin cs ss now) l st))
  = lookup k (agentMeshesRef st).
Proof.
  revert st. induction l as [|a l IH]; simpl; intros st H; auto.
  rewrite IH by auto. rewrite updateAgent_registry.
  apply lookup_store_other. auto.
Qed.

(** After the loop, the object of an identifier of the roster is what the
    last turn for that identifier made of it. *)
Lemma forEach_updateAgent_each (P : Mesh.t -> Prop) cs ss now l st k :
  Inv st ->
  (forall a base, In a l -> Agent.agent_id a = k -> Mesh.ring base <> None ->
                  P (dress Math_sin now (selectedAgent st) a base)) ->
  (exists a, In a l /\ Agent.agent_id a = k) ->
  exists m,
    lookup k (agentMeshesRef (fold_left (updateAgent Math_sin cs ss now) l st))
    = Some m /\ P m.
Proof.
  intros HI.
  induction l as [|a l IH] using rev_ind; intros HP [a0 [Hin Hid]].
  - destruct Hin.
  - rewrite fold_left_app. simpl. rewrite updateAgent_registry.
    destruct (String.eqb_spec (Agent.agent_id a) k) as [Heq|Hne].
    + rewrite <- Heq. rewrite lookup_store_same.
      eexists. split; [reflexivity|].
      rewrite forEach_updateAgent_selected. apply HP; auto.
      * apply in_or_app. right. now left.
      * apply (baseMesh_ok cs ss now). apply inv_entries.
        now apply forEach_updateAgent_Inv.
    + rewrite lookup_store_other by assumption. apply IH.
      * intros a1 base H1 H2. apply HP; auto. apply in_or_app. now left.
      * apply in_app_or in Hin as [Hin|[Hin|[]]]; [eauto | congruence].
Qed.

Lemma updateAgents_Inv sd now st : Inv st -> Inv (updateAgents Math_sin sd now st).
Proof.
  intros H. unfold updateAgents.
  destruct (sceneRef st); auto. destruct sd as [sd|]; auto.
  destruct (agents sd); auto. now apply forEach_updateAgent_Inv.
Qed.

Lemma updateAgents_persists sd now st :
  persists st (updateAgents Math_sin sd now st).
Proof.
  unfold updateAgents.
  destruct (sceneRef st); try apply persists_refl.
  destruct sd as [sd|]; try apply persists_refl.
  destruct (agents sd); try apply persists_refl.
  apply forEach_updateAgent_persists.
Qed.

Lemma updateAgents_selected sd now st :
  selectedAgent (updateAgents Math_sin sd now st) = selectedAgent st.
Proof.
  unfold updateAgents.
  destruct (sceneRef st); auto. destruct sd as [sd|]; auto.
  destruct (agents sd); auto. apply forEach_updateAgent_selected.
Qed.

Lemma updateAgents_edges sd now st :
  transactionEdgesRef (updateAgents Math_sin sd now st) = transactionEdgesRef st.
Proof.
  unfold updateAgents.
  destruct (sceneRef st); auto. destruct sd as [sd|]; auto.
  destruct (agents sd); auto. apply forEach_updateAgent_edges.
Qed.

(** ** The transaction loop *)

Lemma edgeObjects_newEdge n now tx color fromMesh toMesh :
  edgeObjects (newEdge n now tx color fromMesh toMesh) = [n; S n].
Proof. reflexivity. Qed.

Lemma forEach_spawnEdge now tx color fromMesh targets st :
  fold_left (spawnEdge now tx color fromMesh) targets st
  = {| sceneRef :=
         option_map
           (fun children =>
              children
              ++ flat_map edgeObjects
                   (spawned (nextObjectId st) now tx color fromMesh targets))
           (sceneRef st);
       agentMeshesRef := agentMeshesRef st;
       transactionEdgesRef :=
         transactionEdgesRef st
         ++ spawned (nextObjectId st) now tx color fromMesh targets;
       selectedAgent := selectedAgent st;
       nextObjectId := (nextObjectId st + 2 * List.length targets)%nat |}.
Proof.
  revert st. induction targets as [|t ts IH]; intros st.
  - destruct st as [sc r e s n]. simpl. rewrite app_nil_r, Nat.add_0_r.
    destruct sc; simpl; [rewrite app_nil_r|]; reflexivity.
  - simpl fold_left. rewrite IH. unfold spawnEdge at 1 2 3 4 5. simpl.
    f_equal.
    + destruct (sceneRef st); simpl; [|reflexivity].
      now rewrite <- app_assoc.
    + now rewrite <- app_assoc.
    + lia.
Qed.

Lemma spawned_length n now tx color fromMesh targets :
  List.length (spawned n now tx color fromMesh targets) = List.length targets.
Proof.
  revert n. induction targets as [|t ts IH]; intros n; simpl; auto.
Qed.

Lemma spawned_objects_length n now tx color fromMesh targets :
  List.length (flat_map edgeObjects (spawned n now tx color fromMesh targets))
  = (2 * List.length targets)%nat.
Proof.
  revert n. induction targets as [|t ts IH]; intros n; simpl; auto.
  rewrite IH. simpl. lia.
Qed.

Lemma processTx_eq now st tx :
  processTx now st tx
  = {| sceneRef :=
         option_map
           (fun children => children ++ flat_map edgeObjects (pushed now st tx))
           (sceneRef st);
       agentMeshesRef := agentMeshesRef st;
       transactionEdgesRef := transactionEdgesRef st ++ pushed now st tx;
       selectedAgent := selectedAgent st;
       nextObjectId :=
         (nextObjectId st + List.length (flat_map edgeObjects (pushed now st tx)))%nat |}.
Proof.
  assert (Hsame :
    st = {| sceneRef := option_map (fun children => children ++ []) (sceneRef st);
            agentMeshesRef := agentMeshesRef st;
            transactionEdgesRef := transactionEdgesRef st ++ [];
            selectedAgent := selectedAgent st;
            nextObjectId := (nextObjectId st + 0)%nat |}).
  { destruct st as [sc r e s n]. simpl. rewrite app_nil_r, Nat.add_0_r.
    destruct sc; simpl; [rewrite app_nil_r|]; reflexivity. }
  unfold processTx, pushed.
  destruct (existsb _ _); [exact Hsame|].
  destruct (lookup (Tx.from tx) (agentMeshesRef st)) as [fromMesh|];
    [|exact Hsame].
  rewrite forEach_spawnEdge, spawned_objects_length. reflexivity.
Qed.

Lemma pushed_from now st tx e :
  In e (pushed now st tx) ->
  Edge.from e = Tx.from tx
  /\ Edge.txTimestamp e = (Tx.timestamp tx * 1000)%Q
  /\ Edge.timestamp e = now
  /\ Tube.color (Edge.line e) = txColor (Tx.msg_type tx)
  /\ Tube.opacity (Edge.line e) = 7 # 10
  /\ lookup (Tx.from tx) (agentMeshesRef st) <> None.
Proof.
  unfold pushed. destruct (existsb _ _); [intros []|].
  destruct (lookup (Tx.from tx) (agentMeshesRef st)) as [fromMesh|];
    [|intros []].
  generalize (nextObjectId st).
  induction (targetMeshes tx fromMesh (agentMeshesRef st)) as [|t ts IH];
    intros n; simpl; [intros []|].
  intros [<-|H]; [simpl; repeat split; discriminate | eauto].
Qed.

Lemma processTx_Inv now st tx : Inv st -> Inv (processTx now st tx).
Proof.
  intros [Hsc Hk Hi He Hs Hed]. rewrite processTx_eq.
  constructor; simpl; auto.
  - destruct (sceneRef st); simpl; congruence.
  - eapply Forall_impl; [|exact He]. intros e. apply entryOk_mono. lia.
  - apply Forall_app. split; auto.
    apply Forall_forall. intros e H.
    destruct (pushed_from _ _ _ _ H) as (-> & _ & _ & _ & _ & Hl). exact Hl.
Qed.

Lemma forEach_processTx_Inv now txs st :
  Inv st -> Inv (fold_left (processTx now) txs st).
Proof.
  revert st. induction txs as [|tx txs IH]; simpl; intros st H; auto.
  apply IH. now apply processTx_Inv.
Qed.

Lemma forEach_processTx_registry now txs st :
  agentMeshesRef (fold_left (processTx now) txs st) = agentMeshesRef st.
Proof.
  revert st. induction txs as [|tx txs IH]; simpl; intros st; auto.
  rewrite IH, processTx_eq. reflexivity.
Qed.

Lemma forEach_processTx_selected now txs st :
  selectedAgent (fold_left (processTx now) txs st) = selectedAgent st.
Proof.
  revert st. induction txs as [|tx txs IH]; simpl; intros st; auto.
  rewrite IH, processTx_eq. reflexivity.
Qed.

Lemma updateTransactions_Inv sd now st :
  Inv st -> Inv (updateTransactions sd now st).
Proof.
  intros H. unfold updateTransactions.
  destruct (sceneRef st); auto. destruct sd as [sd|]; auto.
  destruct (transactions sd); auto. now apply forEach_processTx_Inv.
Qed.

Lemma updateTransactions_registry sd now st :
  agentMeshesRef (updateTransactions sd now st) = agentMeshesRef st.
Proof.
  unfold updateTransactions.
  destruct (sceneRef st); auto. destruct sd as [sd|]; auto.
  destruct (transactions sd); auto. apply forEach_processTx_registry.
Qed.

Lemma updateTransactions_selected sd now st :
  selectedAgent (updateTransactions sd now st) = selectedAgent st.
Proof.
  unfold updateTransactions.
  destruct (sceneRef st); auto. destruct sd as [sd|]; auto.
  destruct (transactions sd); auto. apply forEach_processTx_selected.
Qed.

(** ** The frame sweep *)

Lemma pair_induction {A : Type} (P : list A -> Prop) :
  P [] -> (forall x, P [x]) ->
  (forall x y l, P l -> P (y :: l) -> P (x :: y :: l)) ->
  forall l, P l.
Proof.
  intros H0 H1 H2.
  assert (H : forall l, P l /\ forall x, P (x :: l)).
  { induction l as [|y l [IHa IHb]]; split; auto. }
  intros l. apply H.
Qed.

Lemma splice1_app {A : Type} (done : list A) x rest :
  splice1 (List.length done) (done ++ x :: rest) = done ++ rest.
Proof. induction done as [|y done IH]; simpl; congruence. Qed.

Lemma setNth_app {A : Type} (done : list A) x y rest :
  setNth (List.length done) y (done ++ x :: rest) = done ++ y :: rest.
Proof. induction done as [|z done IH]; simpl; congruence. Qed.

Lemma nth_error_middle {A : Type} (done : list A) x rest :
  nth_error (done ++ x :: rest) (List.length done) = Some x.
Proof. induction done as [|y done IH]; simpl; auto. Qed.

Lemma forEachEdge_past now len index children edges :
  (List.length edges <= index)%nat ->
  forEachEdge now len index (children, edges) = (children, edges).
Proof.
  revert index. induction len as [|len IH]; intros index H; simpl; auto.
  destruct (nth_error edges index) eqn:E.
  - apply nth_error_None in H. congruence.
  - apply IH. lia.
Qed.

(** The loop computes [sweepList] on the part of the array not yet
    visited. *)
Lemma forEachEdge_sweepList now len done rest children :
  (List.length rest <= len)%nat ->
  forEachEdge now len (List.length done) (children, done ++ rest)
  = (fst (sweepList now children rest), done ++ snd (sweepList now children rest)).
Proof.
  revert done rest children.
  induction len as [|len IH]; intros done rest children Hlen.
  - destruct rest; [reflexivity | simpl in Hlen; lia].
  - destruct rest as [|e rest].
    + simpl sweepList. simpl fst. simpl snd.
      apply forEachEdge_past. rewrite app_nil_r. lia.
    + simpl forEachEdge. rewrite nth_error_middle.
      unfold sweepAt. simpl fst. simpl snd.
      simpl sweepList. unfold expired.
      destruct (now - Edge.timestamp e >? maxAge).
      * rewrite splice1_app. destruct rest as [|e2 rest].
        -- simpl. apply forEachEdge_past. rewrite app_nil_r. lia.
        -- replace (S (List.length done)) with (List.length (done ++ [e2]))
             by (rewrite length_app; simpl; lia).
           replace (done ++ e2 :: rest) with ((done ++ [e2]) ++ rest)
             by (rewrite <- app_assoc; reflexivity).
           rewrite IH by (simpl in Hlen; lia).
           simpl. now rewrite <- app_assoc.
      * rewrite setNth_app. fold (faded now e).
        replace (S (List.length done))
          with (List.length (done ++ [faded now e]))
          by (rewrite length_app; simpl; lia).
        replace (done ++ faded now e :: rest)
          with ((done ++ [faded now e]) ++ rest)
          by (rewrite <- app_assoc; reflexivity).
        rewrite IH by (simpl in Hlen; lia).
        simpl. now rewrite <- app_assoc.
Qed.

Lemma animate_sweepList now st children :
  sceneRef st = Some children ->
  animate now st
  = {| sceneRef := Some (fst (sweepList now children (transactionEdgesRef st)));
       agentMeshesRef := agentMeshesRef st;
       transactionEdgesRef :=
         snd (sweepList now children (transactionEdgesRef st));
       selectedAgent := selectedAgent st;
       nextObjectId := nextObjectId st |}.
Proof.
  intros H. unfold animate. rewrite H.
  rewrite (forEachEdge_sweepList now _ [] (transactionEdgesRef st) children)
    by lia.
  reflexivity.
Qed.

Lemma in_scene_remove x obj children :
  In x (scene_remove obj children) <-> In x children /\ x <> obj.
Proof.
  unfold scene_remove. rewrite filter_In, negb_true_iff, Nat.eqb_neq. tauto.
Qed.

Lemma in_removeEdgeObjects x edge children :
  In x (removeEdgeObjects edge children)
  <-> In x children /\ ~ In x (edgeObjects edge).
Proof.
  unfold removeEdgeObjects, edgeObjects.
  destruct (Edge.particles edge); simpl; rewrite ?in_scene_remove;
    intuition congruence.
Qed.

Lemma sweepList_Forall (P : Edge.t -> Prop) now children edges :
  (forall e, P e -> P (faded now e)) ->
  Forall P edges -> Forall P (snd (sweepList now children edges)).
Proof.
  intros HP. revert children.
  induction edges as [|e|e e2 rest IH1 IH2] using pair_induction;
    intros children H.
  - constructor.
  - simpl. destruct (expired now e); simpl; [constructor|].
    inversion H; subst. constructor; auto.
  - inversion H as [|? ? He H']; subst. inversion H' as [|? ? He2 H'']; subst.
    change (sweepList now children (e :: e2 :: rest))
      with (if expired now e
            then (fst (sweepList now (removeEdgeObjects e children) rest),
                  e2 :: snd (sweepList now (removeEdgeObjects e children) rest))
            else (fst (sweepList now children (e2 :: rest)),
                  faded now e :: snd (sweepList now children (e2 :: rest)))).
    destruct (expired now e); cbn [snd]; constructor; auto.
Qed.

(** The sweep adds nothing to the scene. *)
Lemma sweepList_scene_subset now children edges x :
  In x (fst (sweepList now children edges)) -> In x children.
Proof.
  revert children.
  induction edges as [|e|e e2 rest IH1 IH2] using pair_induction;
    intros children.
  - auto.
  - simpl. destruct (expired now e); simpl; auto.
    rewrite in_removeEdgeObjects. tauto.
  - change (sweepList now children (e :: e2 :: rest))
      with (if expired now e
            then (fst (sweepList now (removeEdgeObjects e children) rest),
                  e2 :: snd (sweepList now (removeEdgeObjects e children) rest))
            else (fst (sweepList now children (e2 :: rest)),
                  faded now e :: snd (sweepList now children (e2 :: rest)))).
    destruct (expired now e); cbn [fst]; intros H.
    + apply IH1 in H. apply in_removeEdgeObjects in H. tauto.
    + now apply IH2.
Qed.

(** An object that belongs to none of the edges stays in the scene. *)
Lemma sweepList_scene_keeps now children edges x :
  In x children -> ~ In x (flat_map edgeObjects edges) ->
  In x (fst (sweepList now children edges)).
Proof.
  revert children.
  induction edges as [|e|e e2 rest IH1 IH2] using pair_induction;
    intros children Hin Hno.
  - auto.
  - simpl in *. rewrite app_nil_r in Hno.
    destruct (expired now e); simpl; auto.
    apply in_removeEdgeObjects. tauto.
  - change (sweepList now children (e :: e2 :: rest))
      with (if expired now e
            then (fst (sweepList now (removeEdgeObjects e children) rest),
                  e2 :: snd (sweepList now (removeEdgeObjects e children) rest))
            else (fst (sweepList now children (e2 :: rest)),
                  faded now e :: snd (sweepList now children (e2 :: rest)))).
    cbn [flat_map] in Hno. rewrite !in_app_iff in Hno.
    destruct (expired now e); cbn [fst].
    + apply IH1; [apply in_removeEdgeObjects|]; tauto.
    + apply IH2; auto. cbn [flat_map]. rewrite in_app_iff. tauto.
Qed.

Lemma animate_Inv now st : Inv st -> Inv (animate now st).
Proof.
  intros [Hsc Hk Hi He Hs Hed].
  destruct (sceneRef st) as [children|] eqn:E; [|congruence].
  rewrite (animate_sweepList _ _ _ E).
  constructor; simpl; auto; [discriminate|].
  apply sweepList_Forall; auto.
Qed.

Lemma animate_registry now st : agentMeshesRef (animate now st) = agentMeshesRef st.
Proof. unfold animate. destruct (sceneRef st); reflexivity. Qed.

Lemma animate_selected now st : selectedAgent (animate now st) = selectedAgent st.
Proof. unfold animate. destruct (sceneRef st); reflexivity. Qed.

(** ** Picking *)

Lemma handleClick_registry ev st :
  agentMeshesRef (handleClick intersectObjects ev st) = agentMeshesRef st.
Proof.
  unfold handleClick. destruct (intersectObjects ev _) as [|m ?]; auto.
  destruct (Mesh.agentData m); auto.
Qed.

Lemma handleClick_rest ev st :
  sceneRef (handleClick intersectObjects ev st) = sceneRef st
  /\ transactionEdgesRef (handleClick intersectObjects ev st)
     = transactionEdgesRef st
  /\ nextObjectId (handleClick intersectObjects ev st) = nextObjectId st.
Proof.
  unfold handleClick. destruct (intersectObjects ev _) as [|m ?]; auto.
  destruct (Mesh.agentData m); auto.
Qed.

(** A struck object is a registered one and holds the data of its
    identifier. *)
Lemma struck_registered ev st m rest :
  Inv st ->
  intersectObjects ev (filter (fun _ => true) (values (agentMeshesRef st)))
  = m :: rest ->
  lookup (Mesh.agentId m) (agentMeshesRef st) = Some m
  /\ exists a, Mesh.agentData m = Some a /\ Agent.agent_id a = Mesh.agentId m.
Proof.
  intros [Hsc Hk Hi He Hs Hed] Hhit.
  assert (Hin : In m (values (agentMeshesRef st))).
  { rewrite <- (filter_all (values (agentMeshesRef st))).
    apply (intersectObjects_among ev). rewrite Hhit. now left. }
  assert (Hl : lookup (Mesh.agentId m) (agentMeshesRef st) = Some m).
  { apply in_values_lookup; auto. now apply entries_agentId with (n := nextObjectId st). }
  split; auto.
  destruct (entries_lookup _ _ _ _ He Hl) as (_ & Hd & _). exact Hd.
Qed.

Lemma handleClick_Inv ev st : Inv st -> Inv (handleClick intersectObjects ev st).
Proof.
  intros HI. pose proof HI as [Hsc Hk Hi He Hs Hed].
  unfold handleClick.
  destruct (intersectObjects ev _) as [|m rest] eqn:Hhit.
  - constructor; simpl; auto. discriminate.
  - destruct (struck_registered _ _ _ _ HI Hhit) as (Hl & a & Hd & Ha).
    rewrite Hd. constructor; simpl; auto.
    intros s Hsel. inversion Hsel; subst. rewrite Ha, Hl. discriminate.
Qed.

Lemma closePanel_Inv st : Inv st -> Inv (closePanel st).
Proof.
  intros [Hsc Hk Hi He Hs Hed]. constructor; simpl; auto. discriminate.
Qed.

(** ** Sessions *)

Lemma mounted_Inv : Inv mounted.
Proof.
  constructor; simpl; try constructor; discriminate.
Qed.

Lemma step_Inv st op :
  Inv st -> Inv (step Math_sin intersectObjects st op).
Proof.
  destruct op; simpl.
  - apply updateAgents_Inv.
  - apply updateTransactions_Inv.
  - apply animate_Inv.
  - apply handleClick_Inv.
  - apply closePanel_Inv.
Qed.

Lemma run_Inv ops st :
  Inv st -> Inv (run Math_sin intersectObjects ops st).
Proof.
  unfold run. revert st.
  induction ops as [|op ops IH]; simpl; intros st H; auto.
  apply IH. now apply step_Inv.
Qed.

Lemma step_persists st op :
  persists st (step Math_sin intersectObjects st op).
Proof.
  destruct op; simpl.
  - apply updateAgents_persists.
  - apply persists_same_registry, updateTransactions_registry.
  - apply persists_same_registry, animate_registry.
  - apply persists_same_registry, handleClick_registry.
  - apply persists_same_registry. reflexivity.
Qed.

Lemma run_persists ops st :
  persists st (run Math_sin intersectObjects ops st).
Proof.
  unfold run. revert st.
  induction ops as [|op ops IH]; simpl; intros st.
  - apply persists_refl.
  - eapply persists_trans; [apply step_persists | apply IH].
Qed.

Lemma run_app ops1 ops2 st :
  run Math_sin intersectObjects (ops1 ++ ops2) st
  = run Math_sin intersectObjects ops2
      (run Math_sin intersectObjects ops1 st).
Proof. unfold run. apply fold_left_app. Qed.

Lemma reachable_Inv st : reachable Math_sin intersectObjects st -> Inv st.
Proof. intros [ops ->]. apply run_Inv, mounted_Inv. Qed.

Lemma reachable_run ops st :
  reachable Math_sin intersectObjects st ->
  reachable Math_sin intersectObjects (run Math_sin intersectObjects ops st).
Proof. intros [ops0 ->]. exists (ops0 ++ ops). now rewrite run_app. Qed.

(** ** First sighting of an identifier *)

Lemma find_split k l a0 :
  find (sameId k) l = Some a0 ->
  exists l1 l2,
    l = l1 ++ a0 :: l2 /\ Agent.agent_id a0 = k
    /\ forall x, In x l1 -> Agent.agent_id x <> k.
Proof.
  induction l as [|a l IH]; simpl; [discriminate|].
  unfold sameId at 1. destruct (String.eqb_spec (Agent.agent_id a) k) as [E|E].
  - intros H. inversion H; subst. exists [], l. simpl. tauto.
  - intros H. destruct (IH H) as (l1 & l2 & -> & Hk & Hl1).
    exists (a :: l1), l2. simpl. repeat split; auto.
    intros x [<-|Hx]; auto.
Qed.

Lemma find_of_in k l a :
  In a l -> Agent.agent_id a = k -> exists a0, find (sameId k) l = Some a0.
Proof.
  induction l as [|b l IH]; simpl; [tauto|].
  intros Hin Hk. destruct (sameId k b) eqn:E; [eauto|].
  destruct Hin as [->|Hin]; [|eauto].
  unfold sameId in E. rewrite Hk, String.eqb_refl in E. discriminate.
Qed.

Lemma forEach_updateAgent_creates cs ss now l st k a0 :
  lookup k (agentMeshesRef st) = None ->
  find (sameId k) l = Some a0 ->
  exists m,
    lookup k (agentMeshesRef (fold_left (updateAgent Math_sin cs ss now) l st))
    = Some m
    /\ (nextObjectId st <= Mesh.id m)%nat
    /\ Mesh.position m = place a0 cs ss.
Proof.
  intros Hnone Hfind.
  destruct (find_split _ _ _ Hfind) as (l1 & l2 & -> & Hk & Hl1).
  rewrite fold_left_app. simpl.
  set (st' := fold_left (updateAgent Math_sin cs ss now) l1 st).
  assert (Hnone' : lookup k (agentMeshesRef st') = None).
  { unfold st'. rewrite forEach_updateAgent_others; auto. }
  assert (Hnext : (nextObjectId st <= nextObjectId st')%nat)
    by apply forEach_updateAgent_next.
  pose proof (dress_core now (selectedAgent st') a0 (baseMesh cs ss st' a0))
    as (Did & Dpos & _).
  assert (Hbase : baseMesh cs ss st' a0 = createMesh (nextObjectId st') a0 cs ss).
  { unfold baseMesh. now rewrite Hk, Hnone'. }
  destruct (forEach_updateAgent_persists cs ss now l2
              (updateAgent Math_sin cs ss now st' a0) k
              (dress Math_sin now (selectedAgent st') a0 (baseMesh cs ss st' a0)))
    as (m & Hm & Hid & Hpos).
  { rewrite updateAgent_registry, <- Hk. apply lookup_store_same. }
  exists m. split; [exact Hm|].
  rewrite Hid, Hpos, Did, Dpos, Hbase. simpl. split; [lia | reflexivity].
Qed.


(** ** Positions *)

Lemma findIndex_found {A : Type} (p : A -> bool) (l : list A) :
  (exists x, In x l /\ p x = true) ->
  0 <= findIndex p l < Z.of_nat (List.length l).
Proof.
  induction l as [|y l IH]; intros (x & Hin & Hp).
  - destruct Hin.
  - cbn [findIndex List.length]. destruct (p y) eqn:E; [lia|].
    destruct Hin as [->|Hin]; [congruence|].
    assert (H : 0 <= findIndex p l < Z.of_nat (List.length l)) by eauto.
    destruct (Z.ltb_spec (findIndex p l) 0); lia.
Qed.

Lemma on_ring p :
  agentsInRole p <> 0 ->
  exists x z,
    position_xz p = Some (x, z)
    /\ (x * x + z * z = IZR (radius p) * IZR (radius p))%R.
Proof.
  intros Hn. unfold position_xz, angle.
  destruct (Z.eqb_spec (agentsInRole p) 0); [contradiction|].
  eexists. eexists. split; [reflexivity|].
  match goal with |- context [cos ?a] => pose proof (sin2_cos2 a) as H end.
  unfold Rsqr in H. nra.
Qed.

Lemma place_in_group a0 cs ss :
  In a0 (if isCoordinator a0 then cs else ss) ->
  0 <= agentIndex (place a0 cs ss) < agentsInRole (place a0 cs ss).
Proof.
  unfold place. simpl. intros Hin.
  destruct (isCoordinator a0); apply findIndex_found; exists a0;
    (split; [exact Hin | apply String.eqb_refl]).
Qed.

Lemma findIndex_nth {A : Type} (p : A -> bool) (l : list A) i x :
  nth_error l i = Some x ->
  p x = true ->
  (forall j y, (j < i)%nat -> nth_error l j = Some y -> p y = false) ->
  findIndex p l = Z.of_nat i.
Proof.
  revert i. induction l as [|y l IH]; intros i Hnth Hp Hbefore.
  - destruct i; discriminate.
  - destruct i as [|i]; cbn [findIndex].
    + simpl in Hnth. inversion Hnth; subst. now rewrite Hp.
    + rewrite (Hbefore 0%nat y) by (simpl; auto; lia).
      rewrite (IH i); auto.
      * destruct (Z.ltb_spec (Z.of_nat i) 0); lia.
      * intros j z Hj Hz. apply (Hbefore (S j)); [lia | exact Hz].
Qed.

(** C3. An agent's position is fixed when its object is created.  For the
    agent that stands at index [i] of its role group in the creating
    snapshot (the first entry there with its identifier), the radius is 15
    for a coordinator and 25 otherwise (a solver), the angle is
    i / size * 2 PI, plus PI / 4 off the coordinator ring, size being the
    length of the group, and the coordinates are
    (cos angle * radius, 0, sin angle * radius), a point of that ring; a
    coordinator at index 0 (a single coordinator) is at angle 0, at
    (15, 0, 0); and no later operation, whatever rosters it carries,
    changes the position. *)
Theorem position_assigned_once st sd ag a0 now i :
  reachable Math_sin intersectObjects st ->
  agents sd = Some ag ->
  lookup (Agent.agent_id a0) (agentMeshesRef st) = None ->
  find (sameId (Agent.agent_id a0)) (allAgents ag) = Some a0 ->
  nth_error (roleGroup a0 ag) i = Some a0 ->
  (forall j a,
      (j < i)%nat -> nth_error (roleGroup a0 ag) j = Some a ->
      Agent.agent_id a <> Agent.agent_id a0) ->
  exists m,
    lookup (Agent.agent_id a0)
      (agentMeshesRef (updateAgents Math_sin (Some sd) now st)) = Some m
    /\ radius (Mesh.position m)
       = (if String.eqb (Agent.role a0) "coordinator" then 15 else 25)
    /\ agentIndex (Mesh.position m) = Z.of_nat i
    /\ agentsInRole (Mesh.position m)
       = Z.of_nat (List.length (roleGroup a0 ag))
    /\ position_xz (Mesh.position m)
       = Some (cos (ringAngle a0 i (List.length (roleGroup a0 ag)))
               * (if String.eqb (Agent.role a0) "coordinator" then 15 else 25),
               sin (ringAngle a0 i (List.length (roleGroup a0 ag)))
               * (if String.eqb (Agent.role a0) "coordinator" then 15 else 25))%R
    /\ (exists x z,
           position_xz (Mesh.position m) = Some (x, z)
           /\ (x * x + z * z
               = IZR (radius (Mesh.position m))
                 * IZR (radius (Mesh.position m)))%R)
    /\ (Agent.role a0 = "coordinator"%string -> i = 0%nat ->
        position_xz (Mesh.position m) = Some (15, 0)%R)
    /\ forall later,
         exists m',
           lookup (Agent.agent_id a0)
             (agentMeshesRef
                (run Math_sin intersectObjects later
                   (updateAgents Math_sin (Some sd) now st))) = Some m'
           /\ Mesh.position m' = Mesh.position m.
Proof.
  intros Hreach Hag Hnone Hfind Hnth Hfirst.
  pose proof (reachable_Inv _ Hreach) as HI.
  set (cs := orEmpty (coordinators ag)) in *.
  set (ss := orEmpty (solvers ag)) in *.
  assert (Hst1 : updateAgents Math_sin (Some sd) now st
                 = fold_left (updateAgent Math_sin cs ss now) (allAgents ag) st).
  { unfold updateAgents. destruct (sceneRef st) eqn:E.
    - now rewrite Hag.
    - destruct (inv_scene _ HI E). }
  destruct (forEach_updateAgent_creates cs ss now _ _ _ _ Hnone Hfind)
    as (m & Hm & _ & Hpos).
  rewrite <- Hst1 in Hm.
  assert (Hidx : findIndex (sameId (Agent.agent_id a0)) (roleGroup a0 ag)
                 = Z.of_nat i).
  { apply (findIndex_nth _ _ i a0); auto.
    - apply String.eqb_refl.
    - intros j y Hj Hy. unfold sameId. apply String.eqb_neq. eauto. }
  assert (Hlen : (0 < List.length (roleGroup a0 ag))%nat).
  { destruct (roleGroup a0 ag); [destruct i; discriminate | simpl; lia]. }
  assert (Hplace : place a0 cs ss
                   = {| radius := if String.eqb (Agent.role a0) "coordinator"
                                  then 15 else 25;
                        agentIndex := Z.of_nat i;
                        agentsInRole := Z.of_nat (List.length (roleGroup a0 ag));
                        angleOffset := if String.eqb (Agent.role a0) "coordinator"
                                       then NoOffset else QuarterPi |}).
  { unfold place. rewrite <- Hidx. unfold roleGroup, isCoordinator.
    fold cs. fold ss.
    destruct (String.eqb (Agent.role a0) "coordinator"); reflexivity. }
  assert (Hxz : position_xz (Mesh.position m)
                = Some (cos (ringAngle a0 i (List.length (roleGroup a0 ag)))
                        * (if String.eqb (Agent.role a0) "coordinator"
                           then 15 else 25),
                        sin (ringAngle a0 i (List.length (roleGroup a0 ag)))
                        * (if String.eqb (Agent.role a0) "coordinator"
                           then 15 else 25))%R).
  { rewrite Hpos, Hplace. unfold position_xz, angle, ringAngle.
    cbn [agentsInRole agentIndex radius angleOffset].
    destruct (Z.eqb_spec (Z.of_nat (List.length (roleGroup a0 ag))) 0); [lia|].
    unfold isCoordinator.
    destruct (String.eqb (Agent.role a0) "coordinator"); reflexivity. }
  exists m. split; [exact Hm|]. rewrite Hpos at 1 2 3. rewrite Hplace.
  cbn [radius agentIndex agentsInRole].
  split; [reflexivity|]. split; [reflexivity|]. split; [reflexivity|].
  split; [exact Hxz|]. split; [|split].
  - eexists. eexists. split; [exact Hxz|]. rewrite Hpos, Hplace.
    cbn [radius].
    pose proof (sin2_cos2 (ringAngle a0 i (List.length (roleGroup a0 ag))))
      as H.
    unfold Rsqr in H.
    destruct (String.eqb (Agent.role a0) "coordinator"); nra.
  - intros Hrole ->. rewrite Hxz. unfold ringAngle, isCoordinator.
    rewrite Hrole. cbn [String.eqb Ascii.eqb Bool.eqb Z.of_nat IZR].
    simpl String.eqb. cbv iota.
    assert (E : (0 / IZR (Z.of_nat (List.length (roleGroup a0 ag))) * PI * 2
                 + 0 = 0)%R).
    { unfold Rdiv. lra. }
    rewrite E, cos_0, sin_0. f_equal. f_equal; lra.
  - intros later.
    destruct (run_persists later _ _ m Hm) as (m' & Hm' & _ & Hp).
    exists m'. split; [exact Hm' | exact Hp].
Qed.

(** ** Reconciliation of one snapshot *)

Lemma findIndexRaw_objects agentId l :
  findIndexRaw agentId (map Some l) = Some (findIndex (sameId agentId) l).
Proof.
  induction l as [|a l IH]; simpl; [reflexivity|].
  destruct (sameId agentId a); [reflexivity|]. now rewrite IH.
Qed.

Lemma findIndexRaw_throws agentId l :
  findIndexRaw agentId l = None ->
  exists pre post,
    l = map Some pre ++ None :: post
    /\ forall b, In b pre -> Agent.agent_id b <> agentId.
Proof.
  induction l as [|[a|] l IH]; simpl; [discriminate| |].
  - destruct (sameId agentId a) eqn:E; [discriminate|].
    destruct (findIndexRaw agentId l); [discriminate|]. intros _.
    destruct (IH eq_refl) as (pre & post & -> & Hpre).
    exists (a :: pre), post. split; [reflexivity|].
    intros b [<-|Hb]; auto.
    unfold sameId in E. now apply String.eqb_neq.
  - intros _. exists [], l. split; [reflexivity | intros b []].
Qed.

Lemma placeRaw_objects a cs ss :
  placeRaw a (map Some cs) (map Some ss) = Some (place a cs ss).
Proof.
  unfold placeRaw, place. rewrite !findIndexRaw_objects, !length_map.
  destruct (isCoordinator a); reflexivity.
Qed.

Lemma placeRaw_throws a ag :
  placeRaw a (entries (rawCoordinators ag)) (entries (rawSolvers ag)) = None ->
  exists pre post,
    rawGroup a ag = map Some pre ++ None :: post
    /\ forall b, In b pre -> Agent.agent_id b <> Agent.agent_id a.
Proof.
  unfold placeRaw, rawGroup. destruct (isCoordinator a);
    match goal with
    | |- context [findIndexRaw ?k ?l] =>
        destruct (findIndexRaw k l) eqn:E; [discriminate|];
        intros _; now apply findIndexRaw_throws
    end.
Qed.

(** On a roster of objects the effect is [updateAgent]. *)
Lemma updateAgentRaw_objects cs ss now st a :
  updateAgentRaw Math_sin (map Some cs) (map Some ss) now st (Some a)
  = (updateAgent Math_sin cs ss now st a, Returned).
Proof.
  unfold updateAgentRaw, updateAgent. rewrite placeRaw_objects.
  destruct (lookup (Agent.agent_id a) (agentMeshesRef st)); reflexivity.
Qed.

Lemma forEachRaw_objects cs ss now l st :
  forEachRaw (updateAgentRaw Math_sin (map Some cs) (map Some ss) now)
    (map Some l) st
  = (fold_left (updateAgent Math_sin cs ss now) l st, Returned).
Proof.
  revert st. induction l as [|a l IH]; intros st; [reflexivity|].
  cbn [map forEachRaw fold_left]. rewrite updateAgentRaw_objects. apply IH.
Qed.

Lemma updateAgentsRaw_objects swarmData now st :
  updateAgentsRaw Math_sin (parsed swarmData) now st
  = (updateAgents Math_sin swarmData now st, Returned).
Proof.
  unfold updateAgentsRaw, updateAgents, parsed.
  destruct (sceneRef st); [|now destruct swarmData].
  destruct swarmData as [sd|]; [|reflexivity]. cbn [rawAgents].
  destruct (agents sd) as [ag|]; [|reflexivity].
  cbn [rawCoordinators rawSolvers].
  assert (E : forall o : option (list Agent.t),
             entries (asParsed o) = map Some (orEmpty o))
    by (intros [o|]; reflexivity).
  assert (S : forall o : option (list Agent.t), spreadable (asParsed o) = true)
    by (intros [o|]; reflexivity).
  rewrite !E, !S, <- map_app. apply forEachRaw_objects.
Qed.

(** A turn that returns has applied its entry and touched no other. *)
Lemma updateAgentRaw_returned cs ss now st a st' :
  updateAgentRaw Math_sin cs ss now st (Some a) = (st', Returned) ->
  (exists m,
      lookup (Agent.agent_id a) (agentMeshesRef st') = Some m
      /\ Mesh.agentData m = Some a)
  /\ forall k, k <> Agent.agent_id a ->
               lookup k (agentMeshesRef st') = lookup k (agentMeshesRef st).
Proof.
  unfold updateAgentRaw.
  destruct (lookup (Agent.agent_id a) (agentMeshesRef st)) as [m0|] eqn:E;
    [|destruct (placeRaw a cs ss) as [position|]; [|discriminate]];
    intros H; inversion H; subst; clear H; cbn [agentMeshesRef set_agentMeshes];
    (split;
     [ eexists; split; [apply lookup_store_same|];
       match goal with
       | |- Mesh.agentData (highlight ?sel ?k (pulse _ ?n ?ag (Mesh.set_agentData ?b _))) = _ =>
           apply (dress_core n sel ag b)
       end
     | intros k Hk; rewrite !lookup_store_other by congruence; reflexivity ]).
Qed.

(** A turn that throws leaves scene and registry as they were. *)
Lemma updateAgentRaw_thrown ag now st entry st' :
  updateAgentRaw Math_sin (entries (rawCoordinators ag))
    (entries (rawSolvers ag)) now st entry = (st', Thrown) ->
  sceneRef st' = sceneRef st
  /\ agentMeshesRef st' = agentMeshesRef st
  /\ match entry with
     | None => True
     | Some a =>
         lookup (Agent.agent_id a) (agentMeshesRef st) = None
         /\ exists pre post,
              rawGroup a ag = map Some pre ++ None :: post
              /\ forall b, In b pre -> Agent.agent_id b <> Agent.agent_id a
     end.
Proof.
  unfold updateAgentRaw. destruct entry as [a|].
  - destruct (lookup (Agent.agent_id a) (agentMeshesRef st)) as [m0|] eqn:E;
      [discriminate|].
    destruct (placeRaw a _ _) as [position|] eqn:P; [discriminate|].
    intros H. inversion H; subst. cbn [sceneRef agentMeshesRef].
    repeat split; auto. now apply placeRaw_throws.
  - intros H. inversion H; subst. auto.
Qed.

(** The loop applies a prefix of the roster: all of it when it returns, the
    entries before the one it throws at otherwise. *)
Lemma forEachRaw_prefix ag now l st :
  exists applied rest,
    l = map Some applied ++ rest
    /\ (forall agent,
           In agent applied ->
           exists m a,
             lookup (Agent.agent_id agent)
               (agentMeshesRef
                  (fst (forEachRaw
                          (updateAgentRaw Math_sin (entries (rawCoordinators ag))
                             (entries (rawSolvers ag)) now) l st)))
             = Some m
             /\ In a applied
             /\ Agent.agent_id a = Agent.agent_id agent
             /\ Mesh.agentData m = Some a)
    /\ (forall k,
           (forall a, In a applied -> Agent.agent_id a <> k) ->
           lookup k
             (agentMeshesRef
                (fst (forEachRaw
                        (updateAgentRaw Math_sin (entries (rawCoordinators ag))
                           (entries (rawSolvers ag)) now) l st)))
           = lookup k (agentMeshesRef st))
    /\ (rest = [] ->
        snd (forEachRaw
               (updateAgentRaw Math_sin (entries (rawCoordinators ag))
                  (entries (rawSolvers ag)) now) l st) = Returned)
    /\ (rest <> [] ->
        snd (forEachRaw
               (updateAgentRaw Math_sin (entries (rawCoordinators ag))
                  (entries (rawSolvers ag)) now) l st) = Thrown)
    /\ match rest with
       | [] => True
       | None :: _ => True
       | Some a :: _ =>
           lookup (Agent.agent_id a)
             (agentMeshesRef
                (fst (forEachRaw
                        (updateAgentRaw Math_sin (entries (rawCoordinators ag))
                           (entries (rawSolvers ag)) now) l st)))
           = None
           /\ exists pre post,
                rawGroup a ag = map Some pre ++ None :: post
                /\ forall b, In b pre -> Agent.agent_id b <> Agent.agent_id a
       end.
Proof.
  revert st. induction l as [|entry l IH]; intros st.
  - exists [], []. cbn [forEachRaw fst snd map app].
    repeat split; auto; try tauto. intros agent [].
  - cbn [forEachRaw].
    destruct (updateAgentRaw Math_sin _ _ now st entry) as [st' [|]] eqn:E.
    + destruct entry as [a|]; [|discriminate E].
      destruct (updateAgentRaw_returned _ _ _ _ _ _ E)
        as ((m0 & Hm0 & Hd0) & Hothers).
      destruct (IH st') as (applied & rest & -> & Hreg & Hunt & Hret & Hthr & Hhead).
      exists (a :: applied), rest. split; [reflexivity|].
      split; [|split; [|split; [exact Hret | split; [exact Hthr | exact Hhead]]]].
      * intros agent Hin.
        assert (Hdec : (exists a', In a' applied
                                   /\ Agent.agent_id a' = Agent.agent_id agent)
                       \/ forall a', In a' applied ->
                                     Agent.agent_id a' <> Agent.agent_id agent).
        { clear. induction applied as [|x applied IHa].
          - right. intros a' [].
          - destruct (string_dec (Agent.agent_id x) (Agent.agent_id agent))
              as [Heq|Hne].
            + left. exists x. split; [now left | exact Heq].
            + destruct IHa as [(a' & Ha' & Heq)|Hnone].
              * left. exists a'. split; [now right | exact Heq].
              * right. intros a' [<-|Ha']; auto. }
        destruct Hdec as [(a' & Ha' & Heq)|Hnone].
        -- destruct (Hreg a' Ha') as (m & a2 & Hm & Ha2 & Hid & Hd).
           exists m, a2. rewrite <- Heq.
           split; [exact Hm|]. split; [now right|]. split; [exact Hid | exact Hd].
        -- destruct Hin as [<-|Hin]; [|destruct (Hnone agent Hin); reflexivity].
           exists m0, a. rewrite (Hunt _ Hnone).
           split; [exact Hm0|]. split; [now left|]. split; [reflexivity | exact Hd0].
      * intros k Hk. rewrite Hunt by (intros a' Ha'; apply Hk; now right).
        apply Hothers. intros ->. apply (Hk a); [now left | reflexivity].
    + destruct (updateAgentRaw_thrown _ _ _ _ _ E) as (_ & Hreg & Hhead).
      exists [], (entry :: l). cbn [fst snd map app].
      split; [reflexivity|]. split; [intros agent []|].
      split; [intros k _; now rewrite Hreg|].
      split; [discriminate|]. split; [reflexivity|].
      destruct entry as [a|]; [|exact I]. now rewrite Hreg.
Qed.

Lemma rawGroup_incl a ag x : In x (rawGroup a ag) -> In x (rawAllAgents ag).
Proof.
  unfold rawGroup, rawAllAgents. rewrite in_app_iff.
  destruct (isCoordinator a); auto.
Qed.


(** ** The selection override *)

Lemma active_glow_below x :
  Qeq_bool ((4 # 10) + Math_sin x * (2 # 10)) (8 # 10) = false.
Proof.
  destruct (Qeq_bool _ _) eqn:E; auto.
  apply Qeq_bool_eq in E. destruct (Math_sin_range x) as [_ H].
  exfalso. Lqa.lra.
Qed.

Lemma pulse_no_override now a m : carriesOverride (pulse Math_sin now a m) = false.
Proof.
  unfold carriesOverride, pulse. destruct (isActive a); simpl.
  - now rewrite active_glow_below.
  - reflexivity.
Qed.

Lemma dress_override now sel a base :
  Mesh.ring base <> None ->
  carriesOverride (dress Math_sin now sel a base)
  = isSelected sel (Agent.agent_id a).
Proof.
  intros Hring. unfold dress, highlight, isSelected.
  destruct sel as [s|]; [|apply pulse_no_override].
  destruct (String.eqb (Agent.agent_id s) (Agent.agent_id a));
    [|apply pulse_no_override].
  unfold carriesOverride, pulse.
  destruct (isActive a); simpl; destruct (Mesh.ring base); simpl;
    congruence || reflexivity.
Qed.

(** C6 (amended). A pick changes the selected snapshot and no visual
    object.  The override is put on and taken off by the agent pass: after a
    pass, among the objects of the identifiers the snapshot lists, an object
    carries the override exactly when its identifier is the selected one, so
    at most one of them does. *)
Theorem override_follows_selection st sd ag now ev :
  reachable Math_sin intersectObjects st ->
  agents sd = Some ag ->
  agentMeshesRef (handleClick intersectObjects ev st) = agentMeshesRef st
  /\ (forall agent,
         In agent (allAgents ag) ->
         exists m,
           lookup (Agent.agent_id agent)
             (agentMeshesRef (updateAgents Math_sin (Some sd) now st)) = Some m
           /\ carriesOverride m
              = isSelected (selectedAgent st) (Agent.agent_id agent))
  /\ (forall a1 a2 m1 m2,
         In a1 (allAgents ag) -> In a2 (allAgents ag) ->
         lookup (Agent.agent_id a1)
           (agentMeshesRef (updateAgents Math_sin (Some sd) now st)) = Some m1 ->
         lookup (Agent.agent_id a2)
           (agentMeshesRef (updateAgents Math_sin (Some sd) now st)) = Some m2 ->
         carriesOverride m1 = true -> carriesOverride m2 = true ->
         Agent.agent_id a1 = Agent.agent_id a2 /\ m1 = m2).
Proof.
  intros Hreach Hag.
  pose proof (reachable_Inv _ Hreach) as HI.
  assert (Hst1 : updateAgents Math_sin (Some sd) now st
                 = fold_left
                     (updateAgent Math_sin (orEmpty (coordinators ag))
                        (orEmpty (solvers ag)) now)
                     (allAgents ag) st).
  { unfold updateAgents. destruct (sceneRef st) eqn:E.
    - now rewrite Hag.
    - destruct (inv_scene _ HI E). }
  assert (Heach : forall agent,
             In agent (allAgents ag) ->
             exists m,
               lookup (Agent.agent_id agent)
                 (agentMeshesRef (updateAgents Math_sin (Some sd) now st))
               = Some m
               /\ carriesOverride m
                  = isSelected (selectedAgent st) (Agent.agent_id agent)).
  { intros agent Hin. rewrite Hst1.
    apply forEach_updateAgent_each; auto.
    - intros a base _ Hk Hring. rewrite <- Hk. now apply dress_override.
    - exists agent. auto. }
  split; [apply handleClick_registry|]. split; [exact Heach|].
  intros a1 a2 m1 m2 H1 H2 L1 L2 C1 C2.
  destruct (Heach a1 H1) as (m1' & L1' & O1).
  destruct (Heach a2 H2) as (m2' & L2' & O2).
  assert (m1' = m1) by congruence. assert (m2' = m2) by congruence. subst.
  rewrite C1 in O1. rewrite C2 in O2. unfold isSelected in O1, O2.
  destruct (selectedAgent st) as [s|]; [|discriminate].
  symmetry in O1, O2. apply String.eqb_eq in O1, O2.
  assert (E : Agent.agent_id a1 = Agent.agent_id a2) by congruence.
  split; [exact E|]. rewrite E in L1. congruence.
Qed.

(** ** Picking *)

Lemma intersect_nothing ev : intersectObjects ev [] = [].
Proof.
  destruct (intersectObjects ev []) as [|m l] eqn:E; auto.
  destruct (intersectObjects_among ev [] m). rewrite E. now left.
Qed.

(** C8. A pick that strikes an object selects the snapshot that object
    currently holds, which is the snapshot of the object's identifier; a pick
    that strikes nothing clears the selection; no pick changes anything but
    the selection; with an empty registry, and before the component is
    mounted, a pick leaves the state as it is, with nothing selected. *)
Theorem pick_selects_or_clears st ev :
  reachable Math_sin intersectObjects st ->
  (forall m rest,
      intersectObjects ev (filter (fun _ => true) (values (agentMeshesRef st)))
      = m :: rest ->
      lookup (Mesh.agentId m) (agentMeshesRef st) = Some m
      /\ exists a,
           Mesh.agentData m = Some a
           /\ Agent.agent_id a = Mesh.agentId m
           /\ selectedAgent (handleClick intersectObjects ev st) = Some a)
  /\ (intersectObjects ev (filter (fun _ => true) (values (agentMeshesRef st)))
      = [] ->
      selectedAgent (handleClick intersectObjects ev st) = None)
  /\ handleClick intersectObjects ev st
     = set_selectedAgent st (selectedAgent (handleClick intersectObjects ev st))
  /\ (agentMeshesRef st = [] ->
      handleClick intersectObjects ev st = st /\ selectedAgent st = None)
  /\ handleClick intersectObjects ev unmounted = unmounted.
Proof.
  intros Hreach. pose proof (reachable_Inv _ Hreach) as HI.
  split; [|split; [|split; [|split]]].
  - intros m rest Hhit.
    destruct (struck_registered _ _ _ _ HI Hhit) as (Hl & a & Hd & Ha).
    split; [exact Hl|]. exists a. repeat split; auto.
    unfold handleClick. now rewrite Hhit, Hd.
  - intros Hmiss. unfold handleClick. now rewrite Hmiss.
  - unfold handleClick.
    destruct (intersectObjects ev _) as [|m rest] eqn:Hhit; [reflexivity|].
    destruct (struck_registered _ _ _ _ HI Hhit) as (_ & a & Hd & _).
    now rewrite Hd.
  - intros Hempty.
    assert (Hsel : selectedAgent st = None).
    { destruct (selectedAgent st) as [s|] eqn:E; auto.
      destruct (inv_selected _ HI s E). now rewrite Hempty. }
    split; [|exact Hsel].
    unfold handleClick. rewrite Hempty. simpl. rewrite intersect_nothing.
    destruct st; simpl in *; subst; reflexivity.
  - unfold handleClick. simpl. now rewrite intersect_nothing.
Qed.

(** ** Edges of one event *)

Lemma NoDup_map_inj {A B : Type} (f : A -> B) (l : list A) x y :
  NoDup (map f l) -> In x l -> In y l -> f x = f y -> x = y.
Proof.
  induction l as [|z l IH]; simpl; [tauto|].
  intros Hnd Hx Hy Hf. inversion Hnd as [|? ? Hz Hnd']; subst.
  destruct Hx as [->|Hx], Hy as [->|Hy]; auto.
  - exfalso. apply Hz. rewrite Hf. now apply in_map.
  - exfalso. apply Hz. rewrite <- Hf. now apply in_map.
Qed.

Lemma spawned_paired n now tx color fromMesh targets :
  Forall2
    (fun e toMesh =>
       Tube.curve (Edge.line e) = (Mesh.position fromMesh, Mesh.position toMesh)
       /\ Tube.color (Edge.line e) = color
       /\ Edge.from e = Tx.from tx
       /\ Edge.timestamp e = now)
    (spawned n now tx color fromMesh targets) targets.
Proof.
  revert n. induction targets as [|t ts IH]; intros n; simpl; constructor; auto.
Qed.

Lemma not_sender_iff st tx fromMesh m :
  Inv st ->
  lookup (Tx.from tx) (agentMeshesRef st) = Some fromMesh ->
  In m (values (agentMeshesRef st)) ->
  Mesh.id m <> Mesh.id fromMesh <-> Mesh.agentId m <> Tx.from tx.
Proof.
  intros [Hsc Hk Hi He Hs Hed] Hfrom Hin.
  pose proof (entries_agentId _ _ He) as Hag.
  pose proof (in_values_lookup _ _ Hk Hag Hin) as Hm.
  split; intros H E; apply H.
  - rewrite E in Hm. congruence.
  - assert (m = fromMesh).
    { apply (NoDup_map_inj Mesh.id (values (agentMeshesRef st))); auto.
      eapply lookup_in_values; eauto. }
    subst m. destruct (entries_lookup _ _ _ _ He Hfrom) as (H1 & _). exact H1.
Qed.

(** C7. An event that is not a duplicate and whose sender is registered
    pushes one edge per target, each running from the sender's position to
    its target's in the colour of the message kind; the targets are, each
    once, the registered objects whose current role is solver for a task
    announcement, and for any other kind the objects whose current role is
    coordinator other than the sender's.  With two solver objects an
    announcement pushes two edges, both of the announcement colour. *)
Theorem edges_to_targets st tx now fromMesh :
  reachable Math_sin intersectObjects st ->
  existsb (sameTx (Tx.timestamp tx * 1000)%Q (Tx.from tx))
    (transactionEdgesRef st) = false ->
  lookup (Tx.from tx) (agentMeshesRef st) = Some fromMesh ->
  exists new targets,
    transactionEdgesRef (processTx now st tx) = transactionEdgesRef st ++ new
    /\ Forall2
         (fun e toMesh =>
            Tube.curve (Edge.line e)
            = (Mesh.position fromMesh, Mesh.position toMesh)
            /\ Tube.color (Edge.line e) = txColor (Tx.msg_type tx)
            /\ Edge.from e = Tx.from tx
            /\ Edge.timestamp e = now)
         new targets
    /\ NoDup targets
    /\ (forall m,
           In m targets
           <-> In m (values (agentMeshesRef st))
               /\ if String.eqb (Tx.msg_type tx) "task_announcement"
                  then roleIs "solver" m = true
                  else roleIs "coordinator" m = true
                       /\ Mesh.agentId m <> Tx.from tx)
    /\ (Tx.msg_type tx = "task_announcement"%string ->
        List.length (filter (roleIs "solver") (values (agentMeshesRef st)))
        = 2%nat ->
        List.length new = 2%nat
        /\ Forall (fun e => Tube.color (Edge.line e) = 0x00ff88) new).
Proof.
  intros Hreach Hnew Hfrom. pose proof (reachable_Inv _ Hreach) as HI.
  exists (pushed now st tx), (targetMeshes tx fromMesh (agentMeshesRef st)).
  assert (Hp : pushed now st tx
               = spawned (nextObjectId st) now tx (txColor (Tx.msg_type tx))
                   fromMesh (targetMeshes tx fromMesh (agentMeshesRef st))).
  { unfold pushed. now rewrite Hnew, Hfrom. }
  assert (Hnd : NoDup (values (agentMeshesRef st))).
  { apply (NoDup_map_inv Mesh.id). apply HI. }
  split; [rewrite processTx_eq; reflexivity|].
  split; [rewrite Hp; apply spawned_paired|].
  split; [unfold targetMeshes; destruct (String.eqb _ _); now apply NoDup_filter|].
  split.
  - intros m. unfold targetMeshes.
    destruct (String.eqb (Tx.msg_type tx) "task_announcement");
      rewrite filter_In; [tauto|].
    rewrite andb_true_iff, negb_true_iff, Nat.eqb_neq.
    split; intros (Hin & Hrole & Hnot); (split; [exact Hin|split; [exact Hrole|]]);
      now apply (not_sender_iff st tx fromMesh m HI Hfrom Hin).
  - intros Hkind Htwo. rewrite Hp, spawned_length.
    unfold targetMeshes. rewrite Hkind. simpl. split; [exact Htwo|].
    apply Forall_forall. intros e He.
    destruct (pushed_from now st tx e) as (_ & _ & _ & Hc & _).
    + rewrite Hp. unfold targetMeshes. rewrite Hkind. exact He.
    + rewrite Hc, Hkind. reflexivity.
Qed.

(** C10. An event whose sender has no registered object is skipped: the
    turn changes nothing, so no edge is made and no key recorded.  Once an
    agent pass has registered the sender, the same event is not taken for a
    duplicate: its turn pushes one edge per target, under the event's key. *)
Theorem unknown_sender_not_recorded st tx now swarmData now1 now2 fromMesh :
  reachable Math_sin intersectObjects st ->
  lookup (Tx.from tx) (agentMeshesRef st) = None ->
  lookup (Tx.from tx)
    (agentMeshesRef (updateAgents Math_sin swarmData now1 st)) = Some fromMesh ->
  processTx now st tx = st
  /\ existsb (sameTx (Tx.timestamp tx * 1000)%Q (Tx.from tx))
       (transactionEdgesRef st) = false
  /\ exists new,
       transactionEdgesRef
         (processTx now2 (updateAgents Math_sin swarmData now1 st) tx)
       = transactionEdgesRef st ++ new
       /\ List.length new
          = List.length
              (targetMeshes tx fromMesh
                 (agentMeshesRef (updateAgents Math_sin swarmData now1 st)))
       /\ Forall
            (fun e =>
               sameTx (Tx.timestamp tx * 1000)%Q (Tx.from tx) e = true
               /\ Edge.timestamp e = now2)
            new.
Proof.
  intros Hreach Hnone Hsome. pose proof (reachable_Inv _ Hreach) as HI.
  assert (Hfresh : existsb (sameTx (Tx.timestamp tx * 1000)%Q (Tx.from tx))
                     (transactionEdgesRef st) = false).
  { destruct (existsb _ _) eqn:E; auto.
    apply existsb_exists in E as (e & Hin & Hsame).
    unfold sameTx in Hsame. apply andb_true_iff in Hsame as [_ Hf].
    apply String.eqb_eq in Hf.
    pose proof (inv_edges _ HI) as Hed. rewrite Forall_forall in Hed.
    destruct (Hed e Hin). now rewrite Hf. }
  split; [|split; [exact Hfresh|]].
  - unfold processTx. now rewrite Hfresh, Hnone.
  - exists (pushed now2 (updateAgents Math_sin swarmData now1 st) tx).
    split; [rewrite processTx_eq; simpl; now rewrite updateAgents_edges|].
    assert (Hp : pushed now2 (updateAgents Math_sin swarmData now1 st) tx
                 = spawned
                     (nextObjectId (updateAgents Math_sin swarmData now1 st))
                     now2 tx (txColor (Tx.msg_type tx)) fromMesh
                     (targetMeshes tx fromMesh
                        (agentMeshesRef
                           (updateAgents Math_sin swarmData now1 st)))).
    { unfold pushed. now rewrite updateAgents_edges, Hfresh, Hsome. }
    split; [rewrite Hp; apply spawned_length|].
    apply Forall_forall. intros e He.
    destruct (pushed_from _ _ _ _ He) as (Hf & Ht & Hn & _).
    split; [|exact Hn]. unfold sameTx.
    rewrite Hf, Ht, String.eqb_refl, andb_true_r.
    apply Qeq_bool_iff. reflexivity.
Qed.

(** ** Fade and expiry *)

Lemma sweepList_fresh_prefix now children pre l :
  Forall (fun e => expired now e = false) pre ->
  sweepList now children (pre ++ l)
  = (fst (sweepList now children l),
     map (faded now) pre ++ snd (sweepList now children l)).
Proof.
  induction 1 as [|e pre He Hpre IH].
  - simpl. now destruct (sweepList now children l).
  - cbn [app map]. cbn [sweepList]. rewrite He. fold sweepList.
    rewrite IH. reflexivity.
Qed.

Lemma sweepList_expired_head now children e e2 rest :
  expired now e = true ->
  sweepList now children (e :: e2 :: rest)
  = (fst (sweepList now (removeEdgeObjects e children) rest),
     e2 :: snd (sweepList now (removeEdgeObjects e children) rest)).
Proof. intros H. cbn [sweepList]. rewrite H. reflexivity. Qed.

Lemma sweepList_expired_scene now children e rest x :
  expired now e = true ->
  In x (fst (sweepList now children (e :: rest))) ->
  In x children /\ ~ In x (edgeObjects e).
Proof.
  intros H. destruct rest as [|e2 rest].
  - cbn [sweepList]. rewrite H. cbn [fst]. apply in_removeEdgeObjects.
  - rewrite sweepList_expired_head by assumption. cbn [fst]. intros Hin.
    apply sweepList_scene_subset in Hin. now apply in_removeEdgeObjects.
Qed.

Lemma in_lineIds e l : In e l -> In (Tube.id (Edge.line e)) (lineIds l).
Proof. apply (in_map (fun e => Tube.id (Edge.line e))). Qed.

(** The sweep tracks no tube that was not tracked before. *)
Lemma sweepList_lineIds now children l x :
  In x (lineIds (snd (sweepList now children l))) -> In x (lineIds l).
Proof.
  intros Hx.
  destruct (in_dec Nat.eq_dec x (lineIds l)) as [|Hno]; auto.
  exfalso.
  assert (HF : Forall (fun e => Tube.id (Edge.line e) <> x)
                 (snd (sweepList now children l))).
  { apply sweepList_Forall; auto.
    apply Forall_forall. intros e0 He0 E. apply Hno.
    rewrite <- E. now apply in_lineIds. }
  rewrite Forall_forall in HF. unfold lineIds in Hx.
  apply in_map_iff in Hx as (e0 & E & He0). now apply (HF e0).
Qed.

Lemma sweepList_expired_tracked now children e rest :
  expired now e = true ->
  forall x, In x (lineIds (snd (sweepList now children (e :: rest)))) ->
            In x (lineIds rest).
Proof.
  intros H x. destruct rest as [|e2 rest].
  - cbn [sweepList]. rewrite H. auto.
  - rewrite sweepList_expired_head by assumption. cbn [snd].
    unfold lineIds at 1 2. cbn [map]. fold (lineIds rest).
    fold (lineIds (snd (sweepList now (removeEdgeObjects e children) rest))).
    intros [Hx|Hx]; [now left | right].
    now apply sweepList_lineIds in Hx.
Qed.

Lemma expired_later now now' e :
  now <= now' -> expired now e = true -> expired now' e = true.
Proof.
  unfold expired. rewrite !Z.gtb_ltb, !Z.ltb_lt. lia.
Qed.

Lemma line_in_edgeObjects e : In (Tube.id (Edge.line e)) (edgeObjects e).
Proof. unfold edgeObjects. now left. Qed.

Lemma lineIds_in_edgeObjects x l :
  In x (lineIds l) -> In x (flat_map edgeObjects l).
Proof.
  unfold lineIds. intros H. apply in_map_iff in H as (e & <- & He).
  apply in_flat_map. exists e. split; [exact He | apply line_in_edgeObjects].
Qed.

(** C9. The frame sweep walks the tracked array by index and splices
    expired edges out of it as it goes.  When two neighbours have both
    expired, and the first is visited, the sweep removes the first and never
    visits the second: it stays in the array as it was and its tube stays in
    the scene.  At the head of the array the next sweep visits and removes
    it. *)
Theorem sweep_skips_after_removal st now children pre e1 e2 rest :
  sceneRef st = Some children ->
  transactionEdgesRef st = pre ++ e1 :: e2 :: rest ->
  Forall (fun e => expired now e = false) pre ->
  expired now e1 = true ->
  expired now e2 = true ->
  In (Tube.id (Edge.line e2)) children ->
  ~ In (Tube.id (Edge.line e2)) (flat_map edgeObjects (e1 :: rest)) ->
  (exists tail,
      transactionEdgesRef (animate now st)
      = map (faded now) pre ++ e2 :: tail)
  /\ ~ inScene (Tube.id (Edge.line e1)) (animate now st)
  /\ inScene (Tube.id (Edge.line e2)) (animate now st)
  /\ (pre = [] ->
      forall now',
        now <= now' ->
        ~ inScene (Tube.id (Edge.line e2)) (animate now' (animate now st))
        /\ ~ In (Tube.id (Edge.line e2))
               (lineIds (transactionEdgesRef (animate now' (animate now st))))).
Proof.
  intros Hsc Hed Hpre H1 H2 Hin Hother.
  cbn [flat_map] in Hother. rewrite in_app_iff in Hother.
  assert (Hst1 : animate now st
    = {| sceneRef :=
           Some (fst (sweepList now (removeEdgeObjects e1 children) rest));
         agentMeshesRef := agentMeshesRef st;
         transactionEdgesRef :=
           map (faded now) pre
           ++ e2 :: snd (sweepList now (removeEdgeObjects e1 children) rest);
         selectedAgent := selectedAgent st;
         nextObjectId := nextObjectId st |}).
  { rewrite (animate_sweepList _ _ _ Hsc), Hed.
    rewrite sweepList_fresh_prefix by assumption.
    rewrite sweepList_expired_head by assumption. reflexivity. }
  rewrite Hst1. unfold inScene. cbn [sceneRef transactionEdgesRef].
  split; [eauto|]. split; [|split].
  - intros H. apply sweepList_scene_subset in H.
    apply in_removeEdgeObjects in H. destruct H as [_ H]. apply H.
    apply line_in_edgeObjects.
  - apply sweepList_scene_keeps; [apply in_removeEdgeObjects|]; tauto.
  - intros -> now' Hle. cbn [map app].
    erewrite animate_sweepList by reflexivity.
    cbn [sceneRef transactionEdgesRef].
    pose proof (expired_later _ _ _ Hle H2) as H2'. split.
    + intros H. apply sweepList_expired_scene in H; auto.
      destruct H as [_ H]. apply H. apply line_in_edgeObjects.
    + intros H. apply sweepList_expired_tracked in H; auto.
      apply sweepList_lineIds, lineIds_in_edgeObjects in H. tauto.
Qed.

Lemma fade_monotone age1 age2 : age1 <= age2 -> (fade age2 <= fade age1)%Q.
Proof.
  intros H. unfold fade, maxAge. rewrite Zle_Qle in H.
  unfold Qdiv. change (/ inject_Z 3000)%Q with (1 # 3000).
  generalize dependent (inject_Z age1). generalize (inject_Z age2).
  intros a2 a1 H. Lqa.lra.
Qed.

Lemma fade_range age : 0 <= age <= 3000 -> (0 <= fade age <= 1)%Q.
Proof.
  intros [H0 H1]. unfold fade, maxAge. rewrite Zle_Qle in H0, H1.
  unfold Qdiv. change (/ inject_Z 3000)%Q with (1 # 3000).
  change (inject_Z 3000) with (3000 # 1) in H1.
  change (inject_Z 0) with (0 # 1) in H0.
  generalize dependent (inject_Z age). intros a H0 H1. split; Lqa.lra.
Qed.

End Properties.

(** * Instances *)

Import Fixtures.

Lemma atRest_range x : (-1 <= atRest x <= 1)%Q.
Proof. unfold atRest. split; discriminate. Qed.

Lemma rayAt_among (ev : string) objects m :
  In m (rayAt ev objects) -> In m objects.
Proof. unfold rayAt. intros H. now apply filter_In in H. Qed.


Lemma position_assigned_once_witness :
  exists m,
    lookup "s2"
      (agentMeshesRef (updateAgents atRest (snapshot [c1] [s1; s2] []) 0 mounted))
    = Some m
    /\ agentIndex (Mesh.position m) = 1
    /\ agentsInRole (Mesh.position m) = 2
    /\ position_xz (Mesh.position m)
       = Some (cos (1 / 2 * PI * 2 + PI / 4) * 25,
               sin (1 / 2 * PI * 2 + PI / 4) * 25)%R.
Proof.
  destruct (position_assigned_once atRest string rayAt rayAt_among mounted
              (data [c1] [s1; s2] []) (roster [c1] [s1; s2]) s2 0 1)
    as (m & Hm & _ & Hidx & Hsize & Hxz & _).
  - exists []. reflexivity.
  - reflexivity.
  - reflexivity.
  - reflexivity.
  - reflexivity.
  - intros j a Hj Hnth. destruct j as [|j]; [|lia].
    simpl in Hnth. injection Hnth as <-. discriminate.
  - exists m. split; [exact Hm|]. split; [exact Hidx|].
    split; [exact Hsize | exact Hxz].
Defined.


Lemma override_follows_selection_witness :
  agentMeshesRef (handleClick rayAt "c1"%string (session [UpdateAgents pair 0]))
  = agentMeshesRef (session [UpdateAgents pair 0]).
Proof.
  destruct (override_follows_selection atRest atRest_range string rayAt
              rayAt_among (session [UpdateAgents pair 0])
              (data [c1; c2] [] []) (roster [c1; c2] []) 0 "c1"%string)
    as (Hpick & _).
  - exists [UpdateAgents pair 0]. reflexivity.
  - reflexivity.
  - exact Hpick.
Defined.

Lemma pick_selects_or_clears_witness :
  exists a,
    selectedAgent (handleClick rayAt "c2"%string (session [UpdateAgents pair 0]))
    = Some a
    /\ Agent.agent_id a = "c2"%string.
Proof.
  destruct (pick_selects_or_clears atRest string rayAt rayAt_among
              (session [UpdateAgents pair 0]) "c2"%string)
    as (Hhit & _).
  - exists [UpdateAgents pair 0]. reflexivity.
  - let hits :=
      eval vm_compute in
        (rayAt "c2"
           (filter (fun _ => true)
              (values (agentMeshesRef (session [UpdateAgents pair 0])))))
    in
    match hits with
    | ?m :: ?rest => destruct (Hhit m rest) as (_ & a & _ & Hid & Hsel)
    end.
    + vm_compute. reflexivity.
    + exists a. split; [exact Hsel | exact Hid].
Defined.

Lemma edges_to_targets_witness :
  exists new,
    transactionEdgesRef
      (processTx 0 (session [UpdateAgents twoSolvers 0]) announcement)
    = transactionEdgesRef (session [UpdateAgents twoSolvers 0]) ++ new
    /\ List.length new = 2%nat
    /\ Forall (fun e => Tube.color (Edge.line e) = 0x00ff88) new.
Proof.
  edestruct (edges_to_targets atRest string rayAt rayAt_among
               (session [UpdateAgents twoSolvers 0]) announcement 0)
    as (new & targets & Hedges & _ & _ & _ & Htwo).
  - exists [UpdateAgents twoSolvers 0]. reflexivity.
  - reflexivity.
  - reflexivity.
  - exists new. split; [exact Hedges|]. apply Htwo; reflexivity.
Defined.

Lemma unknown_sender_not_recorded_witness :
  processTx 0 mounted announcement = mounted
  /\ exists new,
       transactionEdgesRef
         (processTx 10 (updateAgents atRest oneSolver 5 mounted) announcement)
       = transactionEdgesRef mounted ++ new
       /\ List.length new = 1%nat.
Proof.
  edestruct (unknown_sender_not_recorded atRest string rayAt rayAt_among
               mounted announcement 0 oneSolver 5 10)
    as (Hskip & _ & new & Hedges & Hlen & _).
  - exists []. reflexivity.
  - reflexivity.
  - reflexivity.
  - split; [exact Hskip|]. exists new. split; [exact Hedges | exact Hlen].
Defined.

Lemma sweep_skips_after_removal_witness :
  ~ inScene 8
      (animate 3001
         (session [UpdateAgents twoSolvers 0; UpdateTransactions twoSolvers 0]))
  /\ inScene 10
       (animate 3001
          (session [UpdateAgents twoSolvers 0; UpdateTransactions twoSolvers 0])).
Proof.
  let es :=
    eval vm_compute in
      (transactionEdgesRef
         (session [UpdateAgents twoSolvers 0; UpdateTransactions twoSolvers 0]))
  in
  match es with
  | ?e1 :: ?e2 :: ?rest =>
      destruct (sweep_skips_after_removal
                  (session [UpdateAgents twoSolvers 0;
                            UpdateTransactions twoSolvers 0])
                  3001 [0; 1; 2; 3; 4; 5; 6; 7; 8; 9; 10; 11]%nat [] e1 e2 rest)
        as (_ & Hfirst & Hsecond & _)
  end.
  - vm_compute. reflexivity.
  - vm_compute. reflexivity.
  - constructor.
  - vm_compute. reflexivity.
  - vm_compute. reflexivity.
  - vm_compute. tauto.
  - vm_compute. intros [H|[H|[]]]; discriminate.
  - split; [exact Hfirst | exact Hsecond].
Defined.

(** ** Where the code departs from the specification *)

(** C1. One event, delivered in two snapshots four seconds apart, has edges
    made for it twice: the test for an event already handled reads the
    tracked array, and the frame sweep has emptied it in between. *)
Theorem dedup_forgets_expired_edges :
  lineIds
    (transactionEdgesRef
       (session [UpdateAgents oneSolver 0; UpdateTransactions oneSolver 0]))
  = [7%nat]
  /\ transactionEdgesRef
       (session [UpdateAgents oneSolver 0; UpdateTransactions oneSolver 0;
                 Animate 3001])
     = []
  /\ lineIds
       (transactionEdgesRef
          (session [UpdateAgents oneSolver 0; UpdateTransactions oneSolver 0;
                    Animate 3001;
                    UpdateAgents oneSolver 4000;
                    UpdateTransactions oneSolver 4000]))
     = [9%nat]
  /\ forallb
       (sameTx (Tx.timestamp announcement * 1000)%Q (Tx.from announcement))
       (transactionEdgesRef
          (session [UpdateAgents oneSolver 0; UpdateTransactions oneSolver 0])
        ++ transactionEdgesRef
             (session [UpdateAgents oneSolver 0; UpdateTransactions oneSolver 0;
                       Animate 3001;
                       UpdateAgents oneSolver 4000;
                       UpdateTransactions oneSolver 4000]))
     = true.
Proof. vm_compute. repeat split. Qed.

(** While the first edges are still tracked, the event is ignored. *)
Example duplicate_within_ttl_ignored :
  session [UpdateAgents oneSolver 0; UpdateTransactions oneSolver 0;
           UpdateAgents oneSolver 1000; UpdateTransactions oneSolver 1000]
  = session [UpdateAgents oneSolver 0; UpdateTransactions oneSolver 0;
             UpdateAgents oneSolver 1000].
Proof. vm_compute. reflexivity. Qed.


(** A roster list that cannot be spread makes the pass throw before it
    applies anything, also the coordinators listed beside it. *)
Example unspreadable_roster_applies_nothing :
  updateAgentsRaw atRest unspreadable 0 mounted = (mounted, Thrown).
Proof. reflexivity. Qed.

(** C5. The tube is created at opacity 0.7 and the sweep 300 ms later
    raises it to 0.9; at an age of exactly 3000 ms the sweep leaves the edge
    tracked and its tube in the scene. *)
Lemma opacity_rises_at_first_sweep :
  exists e0 e1 e2,
    transactionEdgesRef
      (session [UpdateAgents oneSolver 0; UpdateTransactions oneSolver 0])
    = [e0]
    /\ transactionEdgesRef
         (session [UpdateAgents oneSolver 0; UpdateTransactions oneSolver 0;
                   Animate 300])
       = [e1]
    /\ Tube.id (Edge.line e1) = Tube.id (Edge.line e0)
    /\ ~ (Tube.opacity (Edge.line e1) <= Tube.opacity (Edge.line e0))%Q
    /\ transactionEdgesRef
         (session [UpdateAgents oneSolver 0; UpdateTransactions oneSolver 0;
                   Animate 3000])
       = [e2]
    /\ Tube.id (Edge.line e2) = Tube.id (Edge.line e0)
    /\ inScene (Tube.id (Edge.line e0))
         (session [UpdateAgents oneSolver 0; UpdateTransactions oneSolver 0;
                   Animate 3000]).
Proof.
  eexists. eexists. eexists.
  split; [vm_compute; reflexivity|].
  split; [vm_compute; reflexivity|].
  split; [reflexivity|].
  split; [vm_compute; intros H; apply H; reflexivity|].
  split; [vm_compute; reflexivity|].
  split; [reflexivity|].
  vm_compute. tauto.
Qed.

(** C6. With [c1] selected and highlighted, a pick of [c2] returns with
    [c1] still carrying the override; and when [c1] has left the roster, the
    pass that follows the pick highlights [c2] and leaves [c1] as it was:
    two objects carry the override. *)
Lemma override_outlives_selection :
  (exists m,
      lookup "c1"
        (agentMeshesRef
           (session [UpdateAgents pair 0; HandleClick "c1"%string;
                     UpdateAgents pair 0; HandleClick "c2"%string]))
      = Some m
      /\ carriesOverride m = true
      /\ isSelected
           (selectedAgent
              (session [UpdateAgents pair 0; HandleClick "c1"%string;
                        UpdateAgents pair 0; HandleClick "c2"%string]))
           "c2" = true)
  /\ ~ (List.length
          (filter carriesOverride
             (values
                (agentMeshesRef
                   (session [UpdateAgents pair 0; HandleClick "c1"%string;
                             UpdateAgents pair 0;
                             UpdateAgents c2Alone 1000;
                             HandleClick "c2"%string;
                             UpdateAgents c2Alone 1000]))))
        <= 1)%nat.
Proof.
  split.
  - eexists. split; [vm_compute; reflexivity|]. split; vm_compute; reflexivity.
  - vm_compute. lia.
Qed.

(** The sweep on the two edges of a broadcast, both expired at once. *)
Example broadcast_edges_expire_one_per_frame :
  lineIds
    (transactionEdgesRef
       (session [UpdateAgents twoSolvers 0; UpdateTransactions twoSolvers 0]))
  = [8; 10]%nat
  /\ lineIds
       (transactionEdgesRef
          (session [UpdateAgents twoSolvers 0; UpdateTransactions twoSolvers 0;
                    Animate 3001]))
     = [10%nat]
  /\ lineIds
       (transactionEdgesRef
          (session [UpdateAgents twoSolvers 0; UpdateTransactions twoSolvers 0;
                    Animate 3001; Animate 3017]))
     = [].
Proof. vm_compute. repeat split. Qed.

(** A roster that lists the solvers in the other order moves neither. *)
Example reordered_roster_keeps_positions :
  map (fun e => (fst e, Mesh.position (snd e)))
    (agentMeshesRef
       (session [UpdateAgents (snapshot [c1] [s1; s2] []) 0;
                 UpdateAgents (snapshot [c1] [s2; s1] []) 1000]))
  = map (fun e => (fst e, Mesh.position (snd e)))
      (agentMeshesRef (session [UpdateAgents (snapshot [c1] [s1; s2] []) 0])).
Proof. vm_compute. reflexivity. Qed.

(** * Further properties of the visualization *)

(** ** Redelivery *)

Lemma sameTx_newEdge n now tx color fromMesh toMesh :
  sameTx (Tx.timestamp tx * 1000)%Q (Tx.from tx)
    (newEdge n now tx color fromMesh toMesh) = true.
Proof.
  unfold sameTx. simpl. rewrite String.eqb_refl, andb_true_r.
  apply Qeq_bool_iff. reflexivity.
Qed.

Lemma settled_skip now st tx : settled st tx = true -> processTx now st tx = st.
Proof.
  unfold settled, processTx.
  destruct (existsb _ _); [reflexivity|]. simpl.
  destruct (lookup (Tx.from tx) (agentMeshesRef st)) as [fromMesh|];
    [|reflexivity].
  destruct (targetMeshes tx fromMesh (agentMeshesRef st)); [reflexivity|].
  discriminate.
Qed.

Lemma processTx_settles now st tx : settled (processTx now st tx) tx = true.
Proof.
  rewrite processTx_eq. unfold settled. simpl. rewrite existsb_app.
  unfold pushed.
  destruct (existsb _ (transactionEdgesRef st)); [reflexivity|]. simpl.
  destruct (lookup (Tx.from tx) (agentMeshesRef st)) as [fromMesh|];
    [|reflexivity].
  destruct (targetMeshes tx fromMesh (agentMeshesRef st)); [reflexivity|].
  simpl. now rewrite sameTx_newEdge.
Qed.

Lemma settled_stays now st tx tx' :
  settled st tx = true -> settled (processTx now st tx') tx = true.
Proof.
  rewrite processTx_eq. unfold settled. simpl. rewrite existsb_app.
  destruct (existsb _ (transactionEdgesRef st)); [reflexivity|]. simpl.
  intros ->. apply orb_true_r.
Qed.

Lemma forEach_settled_stays now txs st tx :
  settled st tx = true -> settled (fold_left (processTx now) txs st) tx = true.
Proof.
  revert st. induction txs as [|tx' txs IH]; simpl; intros st H; auto.
  apply IH. now apply settled_stays.
Qed.

Lemma forEach_processTx_settles now txs st :
  Forall (fun tx => settled (fold_left (processTx now) txs st) tx = true) txs.
Proof.
  revert st. induction txs as [|tx txs IH]; intros st; constructor.
  - simpl. apply forEach_settled_stays, processTx_settles.
  - apply IH.
Qed.

Lemma forEach_settled_skip now txs st :
  Forall (fun tx => settled st tx = true) txs ->
  fold_left (processTx now) txs st = st.
Proof.
  induction 1 as [|tx txs Htx Hall IH]; simpl; auto.
  now rewrite (settled_skip now st tx Htx).
Qed.

Lemma sameTx_faded now t f e : sameTx t f (faded now e) = sameTx t f e.
Proof. reflexivity. Qed.

(** A frame at which no edge has expired keeps every event settled. *)
Lemma animate_settled now st tx :
  forallb (fun e => negb (expired now e)) (transactionEdgesRef st) = true ->
  settled st tx = true -> settled (animate now st) tx = true.
Proof.
  intros Hfresh. destruct (sceneRef st) as [children|] eqn:Hsc;
    [|unfold animate; now rewrite Hsc].
  rewrite (animate_sweepList _ _ _ Hsc). unfold settled.
  cbn [transactionEdgesRef agentMeshesRef].
  assert (HF : Forall (fun e => expired now e = false) (transactionEdgesRef st)).
  { apply Forall_forall. intros e He. rewrite forallb_forall in Hfresh.
    apply negb_true_iff. now apply Hfresh. }
  pose proof (sweepList_fresh_prefix now children _ [] HF) as E.
  rewrite app_nil_r in E. rewrite E. cbn [snd sweepList]. rewrite app_nil_r.
  assert (Hex : forall l,
             existsb (sameTx (Tx.timestamp tx * 1000)%Q (Tx.from tx))
               (map (faded now) l)
             = existsb (sameTx (Tx.timestamp tx * 1000)%Q (Tx.from tx)) l).
  { induction l as [|e l IH]; simpl; [reflexivity|]. now rewrite IH. }
  now rewrite Hex.
Qed.

Lemma updateTransactions_settled swarmData now st tx :
  settled st tx = true -> settled (updateTransactions swarmData now st) tx = true.
Proof.
  intros H. unfold updateTransactions.
  destruct (sceneRef st); auto. destruct swarmData as [sd|]; auto.
  destruct (transactions sd); auto. now apply forEach_settled_stays.
Qed.

Lemma store_present_core k m m0 r :
  lookup k r = Some m0 ->
  Mesh.id m = Mesh.id m0 -> Mesh.position m = Mesh.position m0 ->
  map entryCore (store k m r) = map entryCore r.
Proof.
  induction r as [|[k1 m1] r IH]; simpl; [discriminate|].
  destruct (String.eqb k1 k); simpl; intros H Hid Hpos.
  - inversion H; subst. unfold entryCore. simpl. now rewrite Hid, Hpos.
  - now rewrite IH.
Qed.

Section Further.

Variable Math_sin : Q -> Q.
Hypothesis Math_sin_range : forall x, (-1 <= Math_sin x <= 1)%Q.

Variable Event : Type.
Variable intersectObjects : Event -> list Mesh.t -> list Mesh.t.
Hypothesis intersectObjects_among :
  forall ev objects m, In m (intersectObjects ev objects) -> In m objects.

Lemma run_unmounted ops st :
  sceneRef st = None -> sceneRef (run Math_sin intersectObjects ops st) = None.
Proof.
  unfold run. revert st. induction ops as [|op ops IH]; intros st H;
    [exact H|].
  cbn [fold_left]. apply IH. destruct op; cbn [step].
  - unfold updateAgents. now rewrite H.
  - unfold updateTransactions. now rewrite H.
  - unfold animate. now rewrite H.
  - now destruct (handleClick_rest Event intersectObjects ev st) as (-> & _).
  - exact H.
Qed.

Lemma quietRun_settled ops st tx :
  quietRun Math_sin intersectObjects ops st = true ->
  settled st tx = true ->
  settled (run Math_sin intersectObjects ops st) tx = true.
Proof.
  unfold run. revert st. induction ops as [|op ops IH]; intros st Hq Hs;
    [exact Hs|].
  cbn [quietRun] in Hq. apply andb_true_iff in Hq as [Hop Hq].
  cbn [fold_left]. apply IH; [exact Hq|].
  destruct op; cbn [step].
  - discriminate Hop.
  - now apply updateTransactions_settled.
  - now apply animate_settled.
  - unfold settled. rewrite handleClick_registry.
    destruct (handleClick_rest Event intersectObjects ev st) as (_ & -> & _).
    exact Hs.
  - exact Hs.
Qed.

(** X1. Handling the same event list a second time changes nothing at all
    (no edge, no scene object, no number is spent), whatever the time of
    the second delivery, as long as no agent pass has run in between and no
    frame has removed an edge: frames that only fade, picks and other event
    lists may come in between. *)
Theorem transactions_redelivery_is_idle swarmData now now' ops st :
  quietRun Math_sin intersectObjects ops
    (updateTransactions swarmData now st) = true ->
  updateTransactions swarmData now'
    (run Math_sin intersectObjects ops (updateTransactions swarmData now st))
  = run Math_sin intersectObjects ops (updateTransactions swarmData now st).
Proof.
  intros Hq.
  destruct (sceneRef st) as [children|] eqn:Hsc.
  - unfold updateTransactions at 1.
    destruct (sceneRef (run _ _ _ _)); [|reflexivity].
    destruct swarmData as [sd|]; [|reflexivity].
    destruct (transactions sd) as [txs|] eqn:Htx; [|reflexivity].
    apply forEach_settled_skip. apply Forall_forall. intros tx Hin.
    apply quietRun_settled; [exact Hq|].
    unfold updateTransactions. rewrite Hsc, Htx.
    pose proof (forEach_processTx_settles now txs st) as H.
    rewrite Forall_forall in H. now apply H.
  - unfold updateTransactions at 1.
    rewrite run_unmounted; [reflexivity|].
    unfold updateTransactions. now rewrite Hsc.
Qed.

Lemma updateAgent_core cs ss now st a :
  exists added,
    map entryCore (agentMeshesRef (updateAgent Math_sin cs ss now st a))
    = map entryCore (agentMeshesRef st) ++ added
    /\ (lookup (Agent.agent_id a) (agentMeshesRef st) <> None -> added = []).
Proof.
  rewrite updateAgent_registry.
  pose proof (dress_core Math_sin now (selectedAgent st) a (baseMesh cs ss st a))
    as (Did & Dpos & _).
  destruct (lookup (Agent.agent_id a) (agentMeshesRef st)) as [m0|] eqn:E.
  - exists []. rewrite app_nil_r. split; [|reflexivity].
    apply (store_present_core _ _ m0); auto.
    + rewrite Did. unfold baseMesh. now rewrite E.
    + rewrite Dpos. unfold baseMesh. now rewrite E.
  - eexists. rewrite (store_absent _ _ _ E), map_app.
    split; [reflexivity | congruence].
Qed.

Lemma forEach_updateAgent_core cs ss now l st :
  exists added,
    map entryCore
      (agentMeshesRef (fold_left (updateAgent Math_sin cs ss now) l st))
    = map entryCore (agentMeshesRef st) ++ added.
Proof.
  revert st. induction l as [|a l IH]; simpl; intros st.
  - exists []. now rewrite app_nil_r.
  - destruct (IH (updateAgent Math_sin cs ss now st a)) as (added2 & H2).
    destruct (updateAgent_core cs ss now st a) as (added1 & H1 & _).
    exists (added1 ++ added2). now rewrite H2, H1, app_assoc.
Qed.

Lemma step_core st op :
  exists added,
    map entryCore (agentMeshesRef (step Math_sin intersectObjects st op))
    = map entryCore (agentMeshesRef st) ++ added.
Proof.
  destruct op; simpl.
  - unfold updateAgents.
    destruct (sceneRef st); [|exists []; now rewrite app_nil_r].
    destruct swarmData as [sd|]; [|exists []; now rewrite app_nil_r].
    destruct (agents sd); [|exists []; now rewrite app_nil_r].
    apply forEach_updateAgent_core.
  - exists []. now rewrite updateTransactions_registry, app_nil_r.
  - exists []. now rewrite animate_registry, app_nil_r.
  - exists []. now rewrite handleClick_registry, app_nil_r.
  - exists []. now rewrite app_nil_r.
Qed.

Lemma run_core ops st :
  exists added,
    map entryCore (agentMeshesRef (run Math_sin intersectObjects ops st))
    = map entryCore (agentMeshesRef st) ++ added.
Proof.
  unfold run. revert st. induction ops as [|op ops IH]; simpl; intros st.
  - exists []. now rewrite app_nil_r.
  - destruct (IH (step Math_sin intersectObjects st op)) as (added2 & H2).
    destruct (step_core st op) as (added1 & H1).
    exists (added1 ++ added2). now rewrite H2, H1, app_assoc.
Qed.

Lemma values_meshCore r :
  map meshCore (values r)
  = ownValues (map (fun c : string * nat * Polar =>
                      (fst (fst c), (snd (fst c), snd c)))
                 (map entryCore r)).
Proof.
  unfold values. rewrite ownValues_map, map_map. reflexivity.
Qed.

(** X3. [Object.values] of the registry never drops or reorders a mesh:
    whatever operations run, the objects it listed before are listed after
    them in the same relative order, each the same object at the same
    position. *)
Theorem enumeration_order_is_stable ops st :
  Subsequence
    (map meshCore (values (agentMeshesRef st)))
    (map meshCore
       (values (agentMeshesRef (run Math_sin intersectObjects ops st)))).
Proof.
  destruct (run_core ops st) as (added & H).
  rewrite !values_meshCore, H, map_app.
  apply ownValues_app_Subsequence.
Qed.

Lemma forEach_updateAgent_registered cs ss now l st a :
  In a l ->
  lookup (Agent.agent_id a)
    (agentMeshesRef (fold_left (updateAgent Math_sin cs ss now) l st)) <> None.
Proof.
  intros Hin. apply in_split in Hin as (l1 & l2 & ->).
  rewrite fold_left_app. simpl.
  set (st' := fold_left (updateAgent Math_sin cs ss now) l1 st).
  destruct (forEach_updateAgent_persists Math_sin cs ss now l2
              (updateAgent Math_sin cs ss now st' a) (Agent.agent_id a)
              (dress Math_sin now (selectedAgent st') a (baseMesh cs ss st' a)))
    as (m & Hm & _).
  - rewrite updateAgent_registry. apply lookup_store_same.
  - congruence.
Qed.

Lemma forEach_updateAgent_no_creation cs ss now l st :
  (forall a, In a l -> lookup (Agent.agent_id a) (agentMeshesRef st) <> None) ->
  sceneRef (fold_left (updateAgent Math_sin cs ss now) l st) = sceneRef st
  /\ nextObjectId (fold_left (updateAgent Math_sin cs ss now) l st)
     = nextObjectId st
  /\ map entryCore
       (agentMeshesRef (fold_left (updateAgent Math_sin cs ss now) l st))
     = map entryCore (agentMeshesRef st).
Proof.
  revert st. induction l as [|a l IH]; simpl; intros st Hall; auto.
  assert (Ha : lookup (Agent.agent_id a) (agentMeshesRef st) <> None)
    by (apply Hall; now left).
  destruct (IH (updateAgent Math_sin cs ss now st a)) as (H1 & H2 & H3).
  { intros b Hb. rewrite updateAgent_registry. apply lookup_store_some.
    apply Hall. now right. }
  rewrite H1, H2, H3.
  destruct (updateAgent_core cs ss now st a) as (added & Hc & Hnil).
  rewrite Hc, (Hnil Ha), app_nil_r. rewrite updateAgent_next.
  unfold updateAgent.
  destruct (lookup (Agent.agent_id a) (agentMeshesRef st)); [auto | congruence].
Qed.

Lemma updateAgents_skip swarmData now st :
  sceneRef st = None \/ swarmData = None
  \/ (exists sd, swarmData = Some sd /\ agents sd = None) ->
  updateAgents Math_sin swarmData now st = st.
Proof.
  unfold updateAgents. intros [H|[H|(sd & H1 & H2)]].
  - now rewrite H.
  - rewrite H. now destruct (sceneRef st).
  - rewrite H1, H2. now destruct (sceneRef st).
Qed.

Lemma updateAgents_loop sd ag now st children :
  sceneRef st = Some children -> agents sd = Some ag ->
  updateAgents Math_sin (Some sd) now st
  = fold_left
      (updateAgent Math_sin (orEmpty (coordinators ag)) (orEmpty (solvers ag))
         now)
      (allAgents ag) st.
Proof. intros H1 H2. unfold updateAgents. now rewrite H1, H2. Qed.

(** X2. A roster delivered again creates nothing: the second pass, at
    whatever time, adds no object to the scene, spends no object number and
    leaves every registry entry under its identifier with its object and
    position; it does not touch the edges or the selection either. *)
Theorem roster_redelivery_creates_nothing swarmData now now' st :
  sceneRef (updateAgents Math_sin swarmData now'
              (updateAgents Math_sin swarmData now st))
  = sceneRef (updateAgents Math_sin swarmData now st)
  /\ nextObjectId (updateAgents Math_sin swarmData now'
                     (updateAgents Math_sin swarmData now st))
     = nextObjectId (updateAgents Math_sin swarmData now st)
  /\ map entryCore
       (agentMeshesRef (updateAgents Math_sin swarmData now'
                          (updateAgents Math_sin swarmData now st)))
     = map entryCore (agentMeshesRef (updateAgents Math_sin swarmData now st))
  /\ transactionEdgesRef (updateAgents Math_sin swarmData now'
                            (updateAgents Math_sin swarmData now st))
     = transactionEdgesRef st
  /\ selectedAgent (updateAgents Math_sin swarmData now'
                      (updateAgents Math_sin swarmData now st))
     = selectedAgent st.
Proof.
  rewrite !updateAgents_edges, !updateAgents_selected.
  cut (sceneRef (updateAgents Math_sin swarmData now'
                   (updateAgents Math_sin swarmData now st))
       = sceneRef (updateAgents Math_sin swarmData now st)
       /\ nextObjectId (updateAgents Math_sin swarmData now'
                          (updateAgents Math_sin swarmData now st))
          = nextObjectId (updateAgents Math_sin swarmData now st)
       /\ map entryCore
            (agentMeshesRef (updateAgents Math_sin swarmData now'
                               (updateAgents Math_sin swarmData now st)))
          = map entryCore
              (agentMeshesRef (updateAgents Math_sin swarmData now st))).
  { tauto. }
  destruct swarmData as [sd|];
    [|rewrite !updateAgents_skip by (right; left; reflexivity); auto].
  destruct (agents sd) as [ag|] eqn:Hag;
    [|rewrite !updateAgents_skip by (right; right; eauto); auto].
  destruct (sceneRef st) as [children|] eqn:Hsc;
    [|rewrite (updateAgents_skip (Some sd) now st) by (left; assumption);
      rewrite (updateAgents_skip (Some sd) now' st) by (left; assumption);
      auto].
  rewrite (updateAgents_loop sd ag now st children Hsc Hag).
  set (st1 := fold_left _ (allAgents ag) st).
  destruct (sceneRef st1) as [children1|] eqn:Hsc1;
    [|rewrite updateAgents_skip by (left; assumption); auto].
  rewrite (updateAgents_loop sd ag now' st1 children1 Hsc1 Hag).
  rewrite <- Hsc1.
  apply forEach_updateAgent_no_creation.
  intros a Ha. unfold st1. now apply forEach_updateAgent_registered.
Qed.

(** ** What the scene holds *)

Lemma NoDup_app_inv {A : Type} (l1 l2 : list A) :
  NoDup (l1 ++ l2) ->
  NoDup l1 /\ NoDup l2 /\ forall x, In x l1 -> ~ In x l2.
Proof.
  induction l1 as [|a l1 IH]; simpl; intros H.
  - repeat split; [constructor | assumption | tauto].
  - inversion H as [|? ? Ha Hnd]; subst. destruct (IH Hnd) as (H1 & H2 & H3).
    repeat split; auto.
    + constructor; auto. intros Hin. apply Ha. apply in_or_app. now left.
    + intros x [<-|Hx] Hin2; [apply Ha; apply in_or_app; now right|].
      now apply (H3 x).
Qed.

Lemma edgeObjects_faded now e : edgeObjects (faded now e) = edgeObjects e.
Proof.
  unfold edgeObjects, faded, fadeEdge. simpl.
  destruct (Edge.particles e); reflexivity.
Qed.

Lemma spawned_objects n now tx color fromMesh targets :
  flat_map edgeObjects (spawned n now tx color fromMesh targets)
  = seq n (2 * List.length targets).
Proof.
  revert n. induction targets as [|t ts IH]; intros n; [reflexivity|].
  cbn [spawned flat_map List.length].
  replace (2 * S (List.length ts))%nat with (S (S (2 * List.length ts)))
    by lia.
  rewrite IH. reflexivity.
Qed.

Lemma pushed_objects now st tx :
  flat_map edgeObjects (pushed now st tx)
  = seq (nextObjectId st)
      (List.length (flat_map edgeObjects (pushed now st tx))).
Proof.
  unfold pushed. destruct (existsb _ _); [reflexivity|].
  destruct (lookup (Tx.from tx) (agentMeshesRef st)); [|reflexivity].
  now rewrite spawned_objects, length_seq.
Qed.

Lemma sceneObjects_essential st x :
  In x (essentialObjects st) -> In x (sceneObjects st).
Proof.
  unfold essentialObjects, sceneObjects. rewrite !in_app_iff.
  intros [H|[H|H]]; auto. right. right. now apply lineIds_in_edgeObjects.
Qed.

Lemma lineIds_app l1 l2 : lineIds (l1 ++ l2) = lineIds l1 ++ lineIds l2.
Proof. apply map_app. Qed.

Lemma processTx_Tidy now st tx : Tidy st -> Tidy (processTx now st tx).
Proof.
  intros (children & Hsc & Hnd & Hsub & Hess & Hno & Hlt).
  rewrite processTx_eq. unfold Tidy, sceneObjects, essentialObjects in *.
  cbn [sceneRef agentMeshesRef transactionEdgesRef nextObjectId].
  rewrite Hsc. cbn [option_map].
  set (P := flat_map edgeObjects (pushed now st tx)).
  assert (HP : P = seq (nextObjectId st) (List.length P))
    by apply pushed_objects.
  assert (HPin : forall x, In x P ->
                   (nextObjectId st <= x < nextObjectId st + List.length P)%nat).
  { intros x Hx. rewrite HP in Hx. apply in_seq in Hx. lia. }
  assert (HPnd : NoDup P) by (rewrite HP; apply seq_NoDup).
  assert (Hobj : baseObjects
                 ++ map Mesh.id (values (agentMeshesRef st))
                 ++ flat_map edgeObjects (transactionEdgesRef st ++ pushed now st tx)
                 = (baseObjects
                    ++ map Mesh.id (values (agentMeshesRef st))
                    ++ flat_map edgeObjects (transactionEdgesRef st)) ++ P).
  { unfold P. now rewrite flat_map_app, !app_assoc. }
  rewrite Hobj.
  eexists. split; [reflexivity|]. split; [|split; [|split; [|split]]].
  - apply NoDup_app; auto. intros x Hx HxP.
    apply Hsub, Hlt in Hx. apply HPin in HxP. lia.
  - intros x. rewrite !in_app_iff. intros [Hx|Hx]; auto.
    left. apply Hsub in Hx. now rewrite !in_app_iff in Hx.
  - intros x. rewrite lineIds_app, !in_app_iff.
    intros [Hx|[Hx|[Hx|Hx]]].
    + left. apply Hess. rewrite !in_app_iff. tauto.
    + left. apply Hess. rewrite !in_app_iff. tauto.
    + left. apply Hess. rewrite !in_app_iff. tauto.
    + right. now apply lineIds_in_edgeObjects.
  - apply NoDup_app; auto. intros x Hx HxP.
    apply Hlt in Hx. apply HPin in HxP. lia.
  - intros x Hx. apply in_app_iff in Hx as [Hx|Hx].
    + apply Hlt in Hx. lia.
    + apply HPin in Hx. lia.
Qed.

Lemma updateAgent_Tidy cs ss now st a :
  Tidy st -> Tidy (updateAgent Math_sin cs ss now st a).
Proof.
  intros (children & Hsc & Hnd & Hsub & Hess & Hno & Hlt).
  pose proof (dress_core Math_sin now (selectedAgent st) a (baseMesh cs ss st a))
    as (Did & _).
  unfold Tidy, sceneObjects, essentialObjects in *.
  rewrite updateAgent_registry, updateAgent_edges, updateAgent_next.
  destruct (lookup (Agent.agent_id a) (agentMeshesRef st)) as [m0|] eqn:E.
  - exists children. rewrite (store_present_ids _ _ m0); auto.
    + repeat split; auto.
      unfold updateAgent. now rewrite E.
    + rewrite Did. unfold baseMesh. now rewrite E.
  - assert (Hid : Mesh.id (dress Math_sin now (selectedAgent st) a
                             (baseMesh cs ss st a)) = nextObjectId st).
    { rewrite Did. unfold baseMesh. now rewrite E. }
    set (old := baseObjects
                ++ map Mesh.id (values (agentMeshesRef st))
                ++ flat_map edgeObjects (transactionEdgesRef st)) in *.
    assert (Hfresh : ~ In (nextObjectId st) old).
    { intros H. apply Hlt in H. lia. }
    rewrite (store_absent _ _ _ E).
    set (ids' := map Mesh.id
                   (values (agentMeshesRef st
                            ++ [(Agent.agent_id a,
                                 dress Math_sin now (selectedAgent st) a
                                   (baseMesh cs ss st a))]))).
    assert (Pids : Permutation ids'
                     (nextObjectId st
                      :: map Mesh.id (values (agentMeshesRef st)))).
    { unfold ids'. rewrite values_ids_perm, !map_app. cbn [map snd].
      rewrite Hid, <- values_ids_perm. symmetry. apply Permutation_cons_append. }
    assert (Hin' : forall x,
               In x ids'
               <-> x = nextObjectId st
                   \/ In x (map Mesh.id (values (agentMeshesRef st)))).
    { intros x. split; intros H.
      - apply (Permutation_in _ Pids) in H. destruct H as [<-|H]; auto.
      - apply (Permutation_in _ (Permutation_sym Pids)).
        destruct H as [->|H]; [now left | now right]. }
    exists (children ++ [nextObjectId st]).
    split; [unfold updateAgent; rewrite E; simpl; now rewrite Hsc|].
    split; [|split; [|split; [|split]]].
    + apply NoDup_snoc; auto.
    + intros x. rewrite !in_app_iff, Hin'. cbn [In].
      intros [Hx|[<-|[]]]; [|tauto].
      apply Hsub in Hx. unfold old in Hx. rewrite !in_app_iff in Hx. tauto.
    + intros x. rewrite !in_app_iff, Hin'. cbn [In].
      intros [Hx|[[<-|Hx]|Hx]]; auto; left; apply Hess;
        rewrite !in_app_iff; tauto.
    + apply (Permutation_NoDup (l := nextObjectId st :: old)).
      * unfold old. rewrite Pids. cbn [app]. apply Permutation_middle.
      * constructor; auto.
    + intros x. rewrite !in_app_iff, Hin'. intros Hx.
      destruct Hx as [Hx|[[->|Hx]|Hx]]; [|lia| |];
        (enough (x < nextObjectId st)%nat by lia; apply Hlt;
         unfold old; rewrite !in_app_iff; tauto).
Qed.

Lemma forEach_updateAgent_Tidy cs ss now l st :
  Tidy st -> Tidy (fold_left (updateAgent Math_sin cs ss now) l st).
Proof.
  revert st. induction l as [|x l IH]; simpl; intros st H; auto.
  apply IH. now apply updateAgent_Tidy.
Qed.

Lemma updateAgents_Tidy swarmData now st :
  Tidy st -> Tidy (updateAgents Math_sin swarmData now st).
Proof.
  intros H. unfold updateAgents.
  destruct (sceneRef st); auto. destruct swarmData as [sd|]; auto.
  destruct (agents sd); auto. now apply forEach_updateAgent_Tidy.
Qed.

Lemma updateTransactions_Tidy swarmData now st :
  Tidy st -> Tidy (updateTransactions swarmData now st).
Proof.
  intros H. unfold updateTransactions.
  destruct (sceneRef st); auto. destruct swarmData as [sd|]; auto.
  destruct (transactions sd) as [txs|]; auto.
  revert st H. induction txs as [|tx txs IH]; simpl; intros st H; auto.
  apply IH. now apply processTx_Tidy.
Qed.

Lemma removeEdgeObjects_NoDup e children :
  NoDup children -> NoDup (removeEdgeObjects e children).
Proof.
  intros H. unfold removeEdgeObjects, scene_remove.
  destruct (Edge.particles e); repeat apply NoDup_filter; exact H.
Qed.

Lemma sweepList_NoDup now edges :
  forall children, NoDup children -> NoDup (fst (sweepList now children edges)).
Proof.
  induction edges as [|e|e e2 rest IH1 IH2] using pair_induction;
    intros children H.
  - exact H.
  - simpl. destruct (expired now e); simpl; auto.
    now apply removeEdgeObjects_NoDup.
  - change (sweepList now children (e :: e2 :: rest))
      with (if expired now e
            then (fst (sweepList now (removeEdgeObjects e children) rest),
                  e2 :: snd (sweepList now (removeEdgeObjects e children) rest))
            else (fst (sweepList now children (e2 :: rest)),
                  faded now e :: snd (sweepList now children (e2 :: rest)))).
    destruct (expired now e); cbn [fst].
    + apply IH1. now apply removeEdgeObjects_NoDup.
    + now apply IH2.
Qed.

(** The objects of the edges a sweep keeps are objects of the edges it
    started from, each still once. *)
Lemma sweepList_objects now edges :
  forall children,
    NoDup (flat_map edgeObjects edges) ->
    NoDup (flat_map edgeObjects (snd (sweepList now children edges)))
    /\ (forall x,
           In x (flat_map edgeObjects (snd (sweepList now children edges))) ->
           In x (flat_map edgeObjects edges)).
Proof.
  induction edges as [|e|e e2 rest IH1 IH2] using pair_induction;
    intros children Hnd.
  - cbn [sweepList snd]. auto.
  - cbn [sweepList]. destruct (expired now e); cbn [snd flat_map].
    + split; [constructor | intros x []].
    + rewrite edgeObjects_faded. auto.
  - cbn [flat_map] in Hnd.
    apply NoDup_app_inv in Hnd as (Hnd1 & Hnd23 & Hd1).
    pose proof (NoDup_app_inv _ _ Hnd23) as (Hnd2 & Hnd3 & Hd2).
    change (sweepList now children (e :: e2 :: rest))
      with (if expired now e
            then (fst (sweepList now (removeEdgeObjects e children) rest),
                  e2 :: snd (sweepList now (removeEdgeObjects e children) rest))
            else (fst (sweepList now children (e2 :: rest)),
                  faded now e :: snd (sweepList now children (e2 :: rest)))).
    destruct (expired now e); cbn [snd flat_map].
    + destruct (IH1 (removeEdgeObjects e children) Hnd3) as (Hb & Hc).
      split.
      * apply NoDup_app; auto. intros x Hx Hin. apply Hc in Hin.
        now apply (Hd2 x).
      * intros x. rewrite !in_app_iff. intros [Hx|Hx]; auto.
    + destruct (IH2 children Hnd23) as (Hb & Hc).
      rewrite edgeObjects_faded. split.
      * apply NoDup_app; auto. intros x Hx Hin. apply Hc in Hin.
        now apply (Hd1 x).
      * intros x. rewrite !in_app_iff. intros [Hx|Hx]; auto.
        apply Hc in Hx. cbn [flat_map] in Hx. rewrite in_app_iff in Hx. tauto.
Qed.

(** What a sweep leaves in the scene: what was there, less the objects of
    the edges it dropped. *)
Lemma sweepList_scene now edges :
  forall children x,
    NoDup (flat_map edgeObjects edges) ->
    (In x (fst (sweepList now children edges))
     <-> In x children
         /\ (In x (flat_map edgeObjects edges) ->
             In x (flat_map edgeObjects (snd (sweepList now children edges))))).
Proof.
  induction edges as [|e|e e2 rest IH1 IH2] using pair_induction;
    intros children x Hnd.
  - cbn [sweepList fst snd]. tauto.
  - cbn [sweepList]. destruct (expired now e); cbn [fst snd flat_map].
    + rewrite in_removeEdgeObjects, app_nil_r. cbn [In]. tauto.
    + rewrite edgeObjects_faded. tauto.
  - pose proof Hnd as Hnd0. cbn [flat_map] in Hnd.
    apply NoDup_app_inv in Hnd as (Hnd1 & Hnd23 & Hd1).
    pose proof (NoDup_app_inv _ _ Hnd23) as (Hnd2 & Hnd3 & Hd2).
    change (sweepList now children (e :: e2 :: rest))
      with (if expired now e
            then (fst (sweepList now (removeEdgeObjects e children) rest),
                  e2 :: snd (sweepList now (removeEdgeObjects e children) rest))
            else (fst (sweepList now children (e2 :: rest)),
                  faded now e :: snd (sweepList now children (e2 :: rest)))).
    destruct (expired now e); cbn [fst snd flat_map].
    + destruct (sweepList_objects now rest (removeEdgeObjects e children) Hnd3)
        as (_ & Hc).
      rewrite (IH1 (removeEdgeObjects e children) x Hnd3).
      rewrite in_removeEdgeObjects, !in_app_iff.
      specialize (Hd1 x). specialize (Hd2 x). specialize (Hc x).
      rewrite in_app_iff in Hd1. tauto.
    + destruct (sweepList_objects now (e2 :: rest) children Hnd23)
        as (_ & Hc).
      rewrite (IH2 children x Hnd23), edgeObjects_faded.
      cbn [flat_map]. rewrite !in_app_iff.
      specialize (Hd1 x). specialize (Hc x). cbn [flat_map] in Hc.
      rewrite in_app_iff in Hd1, Hc. tauto.
Qed.

Lemma animate_Tidy now st : Tidy st -> Tidy (animate now st).
Proof.
  intros (children & Hsc & Hnd & Hsub & Hess & Hno & Hlt).
  rewrite (animate_sweepList _ _ _ Hsc).
  unfold Tidy, sceneObjects, essentialObjects in *.
  cbn [sceneRef agentMeshesRef transactionEdgesRef nextObjectId].
  rewrite app_assoc in Hno, Hsub, Hlt, Hess.
  apply NoDup_app_inv in Hno as (HndF & HndE & Hdis).
  destruct (sweepList_objects now (transactionEdgesRef st) children HndE)
    as (Hb & Hc).
  pose proof (fun x => sweepList_scene now (transactionEdgesRef st) children x
                         HndE) as Ha.
  eexists. split; [reflexivity|]. rewrite !app_assoc.
  split; [now apply sweepList_NoDup|]. split; [|split; [|split]].
  - intros x Hx. apply Ha in Hx as (Hx & Hkeep).
    apply Hsub in Hx. rewrite in_app_iff in *. tauto.
  - intros x Hx. apply Ha. rewrite in_app_iff in Hx.
    destruct Hx as [Hx|Hx].
    + split; [apply Hess; rewrite in_app_iff; now left|].
      intros He. now destruct (Hdis x Hx).
    + split; [|intros _; now apply lineIds_in_edgeObjects].
      apply Hess. rewrite in_app_iff. right.
      now apply (sweepList_lineIds now children).
  - apply NoDup_app; auto. intros x Hx Hin. apply Hc in Hin.
    now apply (Hdis x).
  - intros x Hx. apply Hlt. rewrite in_app_iff in *.
    destruct Hx as [Hx|Hx]; auto.
Qed.

Lemma removeMarker_Tidy particle st :
  ~ In particle (essentialObjects st) -> Tidy st ->
  Tidy (removeMarker particle st).
Proof.
  intros Hp (children & Hsc & Hnd & Hsub & Hess & Hno & Hlt).
  exists (scene_remove particle children).
  unfold removeMarker, sceneObjects, essentialObjects in *.
  cbn [sceneRef agentMeshesRef transactionEdgesRef nextObjectId].
  rewrite Hsc. split; [reflexivity|]. split; [|split; [|split; [|split]]];
    auto.
  - now apply NoDup_filter.
  - intros x Hx. apply in_scene_remove in Hx. now apply Hsub.
  - intros x Hx. apply in_scene_remove. split; [now apply Hess|].
    intros ->. contradiction.
Qed.

Lemma step_Tidy st op :
  Tidy st -> Tidy (step Math_sin intersectObjects st op).
Proof.
  destruct op; simpl.
  - apply updateAgents_Tidy.
  - apply updateTransactions_Tidy.
  - apply animate_Tidy.
  - intros (children & H). exists children.
    unfold Tidy, sceneObjects, essentialObjects.
    rewrite handleClick_registry.
    destruct (handleClick_rest Event intersectObjects ev st) as (-> & -> & ->).
    exact H.
  - auto.
Qed.

Lemma mounted_Tidy : Tidy mounted.
Proof.
  exists baseObjects. unfold sceneObjects, essentialObjects, baseObjects.
  simpl. repeat split; auto.
  - repeat constructor; simpl; intuition discriminate.
  - repeat constructor; simpl; intuition discriminate.
  - intros x Hx. simpl in Hx. lia.
Qed.

(** X4. Whatever the order of renders, frames, clicks and marker
    animations, the scene holds no object twice; it holds the five objects
    of the initial scene, the mesh of every registered agent and the tube of
    every tracked edge; it holds nothing but these and markers of tracked
    edges; and every object number in it lies below the next one to be given
    out. *)
Theorem scene_holds_what_is_tracked st :
  displayed Math_sin intersectObjects st ->
  exists children,
    sceneRef st = Some children
    /\ NoDup children
    /\ incl (essentialObjects st) children
    /\ incl children (sceneObjects st)
    /\ Forall (fun x => (x < nextObjectId st)%nat) children.
Proof.
  intros H.
  assert (HT : Tidy st).
  { induction H as [|st op _ IH|st particle _ IH Hp].
    - apply mounted_Tidy.
    - now apply step_Tidy.
    - now apply removeMarker_Tidy. }
  destruct HT as (children & Hsc & Hnd & Hsub & Hess & Hno & Hlt).
  exists children. repeat split; auto.
  apply Forall_forall. intros x Hx. now apply Hlt, Hsub.
Qed.

(** ** Fading *)

Lemma displayed_Tidy st : displayed Math_sin intersectObjects st -> Tidy st.
Proof.
  induction 1 as [|st op _ IH|st particle _ IH Hp].
  - apply mounted_Tidy.
  - now apply step_Tidy.
  - now apply removeMarker_Tidy.
Qed.

Lemma visits_past now len index children edges :
  (List.length edges <= index)%nat ->
  visits now len index (children, edges) = [].
Proof.
  revert index. induction len as [|len IH]; intros index H; simpl; auto.
  destruct (nth_error edges index) eqn:E.
  - apply nth_error_None in H. congruence.
  - apply IH. lia.
Qed.

(** The loop visits what [visitList] lists. *)
Lemma visits_visitList now len done rest children :
  (List.length rest <= len)%nat ->
  visits now len (List.length done) (children, done ++ rest)
  = visitList now rest.
Proof.
  revert done rest children.
  induction len as [|len IH]; intros done rest children Hlen.
  - destruct rest; [reflexivity | simpl in Hlen; lia].
  - destruct rest as [|e rest].
    + cbn [visitList]. apply visits_past. rewrite app_nil_r. lia.
    + cbn [visits snd]. rewrite nth_error_middle.
      unfold sweepAt. cbn [fst snd visitList]. unfold expired.
      destruct (now - Edge.timestamp e >? maxAge).
      * rewrite splice1_app. f_equal. destruct rest as [|e2 rest].
        -- apply visits_past. rewrite app_nil_r. lia.
        -- replace (S (List.length done)) with (List.length (done ++ [e2]))
             by (rewrite length_app; simpl; lia).
           replace (done ++ e2 :: rest) with ((done ++ [e2]) ++ rest)
             by (rewrite <- app_assoc; reflexivity).
           apply IH. simpl in Hlen. lia.
      * rewrite setNth_app. f_equal.
        replace (S (List.length done))
          with (List.length (done ++ [fadeEdge (fade (now - Edge.timestamp e)) e]))
          by (rewrite length_app; simpl; lia).
        replace (done ++ fadeEdge (fade (now - Edge.timestamp e)) e :: rest)
          with ((done ++ [fadeEdge (fade (now - Edge.timestamp e)) e]) ++ rest)
          by (rewrite <- app_assoc; reflexivity).
        apply IH. simpl in Hlen. lia.
Qed.

Lemma visitList_incl now edges e : In e (visitList now edges) -> In e edges.
Proof.
  induction edges as [|e0|e0 e2 rest IH1 IH2] using pair_induction.
  - intros [].
  - cbn [visitList]. destruct (expired now e0); cbn [In]; tauto.
  - change (visitList now (e0 :: e2 :: rest))
      with (if expired now e0 then e0 :: visitList now rest
            else e0 :: visitList now (e2 :: rest)).
    destruct (expired now e0).
    + intros [<-|H]; [now left | right; right; now apply IH1].
    + intros [<-|H]; [now left | right; now apply IH2].
Qed.

(** A visited edge that has not expired is tracked after the sweep, with
    the new opacity. *)
Lemma visitList_fresh now edges e :
  forall children,
    In e (visitList now edges) -> expired now e = false ->
    In (faded now e) (snd (sweepList now children edges)).
Proof.
  induction edges as [|e0|e0 e2 rest IH1 IH2] using pair_induction;
    intros children.
  - intros [].
  - cbn [visitList sweepList].
    destruct (expired now e0) eqn:E0; cbn [snd In].
    + intros [<-|[]] He. congruence.
    + intros [<-|[]] _. now left.
  - change (sweepList now children (e0 :: e2 :: rest))
      with (if expired now e0
            then (fst (sweepList now (removeEdgeObjects e0 children) rest),
                  e2 :: snd (sweepList now (removeEdgeObjects e0 children) rest))
            else (fst (sweepList now children (e2 :: rest)),
                  faded now e0 :: snd (sweepList now children (e2 :: rest)))).
    change (visitList now (e0 :: e2 :: rest))
      with (if expired now e0 then e0 :: visitList now rest
            else e0 :: visitList now (e2 :: rest)).
    destruct (expired now e0) eqn:E0; cbn [snd].
    + intros [<-|H] He; [congruence|]. right. now apply IH1.
    + intros [<-|H] He; [now left|]. right. now apply IH2.
Qed.

(** A visited edge that has expired is gone after the sweep, from the scene
    and from the array. *)
Lemma visitList_expired now edges e :
  forall children,
    NoDup (flat_map edgeObjects edges) ->
    In e (visitList now edges) -> expired now e = true ->
    ~ In (Tube.id (Edge.line e)) (fst (sweepList now children edges))
    /\ ~ In (Tube.id (Edge.line e))
           (lineIds (snd (sweepList now children edges))).
Proof.
  induction edges as [|e0|e0 e2 rest IH1 IH2] using pair_induction;
    intros children Hnd.
  - intros [].
  - cbn [visitList sweepList].
    destruct (expired now e0) eqn:E0; cbn [fst snd In].
    + intros [<-|[]] _. split; [|intros []].
      rewrite in_removeEdgeObjects. intros [_ H]. apply H.
      apply line_in_edgeObjects.
    + intros [<-|[]] He. congruence.
  - cbn [flat_map] in Hnd.
    apply NoDup_app_inv in Hnd as (Hnd1 & Hnd23 & Hd1).
    pose proof (NoDup_app_inv _ _ Hnd23) as (Hnd2 & Hnd3 & Hd2).
    change (sweepList now children (e0 :: e2 :: rest))
      with (if expired now e0
            then (fst (sweepList now (removeEdgeObjects e0 children) rest),
                  e2 :: snd (sweepList now (removeEdgeObjects e0 children) rest))
            else (fst (sweepList now children (e2 :: rest)),
                  faded now e0 :: snd (sweepList now children (e2 :: rest)))).
    change (visitList now (e0 :: e2 :: rest))
      with (if expired now e0 then e0 :: visitList now rest
            else e0 :: visitList now (e2 :: rest)).
    destruct (expired now e0) eqn:E0; cbn [fst snd].
    + intros [<-|H] He.
      * split.
        -- intros Hin. apply sweepList_scene_subset in Hin.
           apply in_removeEdgeObjects in Hin. destruct Hin as [_ Hin].
           apply Hin, line_in_edgeObjects.
        -- unfold lineIds. cbn [map]. fold (lineIds (snd (sweepList now
             (removeEdgeObjects e0 children) rest))).
           intros Hin. apply (Hd1 (Tube.id (Edge.line e0)));
             [apply line_in_edgeObjects|].
           rewrite in_app_iff. destruct Hin as [Hin|Hin].
           ++ left. rewrite <- Hin. apply line_in_edgeObjects.
           ++ right. apply sweepList_lineIds in Hin.
              now apply lineIds_in_edgeObjects.
      * destruct (IH1 (removeEdgeObjects e0 children) Hnd3 H He) as [Ha Hb].
        split; [exact Ha|].
        unfold lineIds. cbn [map]. fold (lineIds (snd (sweepList now
          (removeEdgeObjects e0 children) rest))).
        intros [Hin|Hin]; [|now apply Hb].
        apply (Hd2 (Tube.id (Edge.line e2)));
          [apply line_in_edgeObjects|].
        rewrite Hin. apply lineIds_in_edgeObjects, in_lineIds.
        now apply (visitList_incl now).
    + intros [<-|H] He; [congruence|].
      destruct (IH2 children Hnd23 H He) as [Ha Hb].
      split; [exact Ha|].
      unfold lineIds. cbn [map]. fold (lineIds (snd (sweepList now children
        (e2 :: rest)))).
      intros [Hin|Hin]; [|now apply Hb].
      apply (Hd1 (Tube.id (Edge.line e0)));
        [apply line_in_edgeObjects|].
      change (Tube.id (Edge.line (faded now e0)))
        with (Tube.id (Edge.line e0)) in Hin.
      rewrite Hin.
      change (edgeObjects e2 ++ flat_map edgeObjects rest)
        with (flat_map edgeObjects (e2 :: rest)).
      apply lineIds_in_edgeObjects, in_lineIds.
      now apply (visitList_incl now).
Qed.

(** C5 (amended). An edge is created with opacity 0.7.  Every frame sweep
    that visits it at an age of at most 3000 ms sets the opacity of its tube
    to 1 - age / 3000, a value that does not increase with age, is 1 at
    age 0, 0 at age 3000 and lies between 0 and 1 in between, and that of
    its marker to 0.8 times as much; the edge stays tracked and its tube in
    the scene.  A sweep that visits it at an age above 3000 ms takes its
    tube out of the scene and the edge out of the tracked array.  This holds
    wherever the edge stands in the array, also behind edges the sweep
    removes. *)
Theorem edge_fades_after_first_sweep st now e age1 age2 :
  displayed Math_sin intersectObjects st ->
  In e (visited now st) ->
  age1 <= age2 ->
  (forall n now0 tx color fromMesh toMesh,
      Tube.opacity (Edge.line (newEdge n now0 tx color fromMesh toMesh))
      = 7 # 10)
  /\ (fade age2 <= fade age1)%Q
  /\ (fade 0 == 1)%Q
  /\ (fade 3000 == 0)%Q
  /\ (0 <= age1 <= 3000 -> (0 <= fade age1 <= 1)%Q)
  /\ In e (transactionEdgesRef st)
  /\ (now - Edge.timestamp e <= 3000 ->
      exists e',
        In e' (transactionEdgesRef (animate now st))
        /\ Tube.id (Edge.line e') = Tube.id (Edge.line e)
        /\ Tube.opacity (Edge.line e') = fade (now - Edge.timestamp e)
        /\ (forall p, Edge.particles e = Some p ->
              exists p', Edge.particles e' = Some p'
                         /\ Particle.id p' = Particle.id p
                         /\ Particle.opacity p'
                            = (fade (now - Edge.timestamp e) * (8 # 10))%Q)
        /\ Edge.timestamp e' = Edge.timestamp e
        /\ inScene (Tube.id (Edge.line e)) (animate now st))
  /\ (3000 < now - Edge.timestamp e ->
      ~ inScene (Tube.id (Edge.line e)) (animate now st)
      /\ ~ In (Tube.id (Edge.line e))
             (lineIds (transactionEdgesRef (animate now st)))).
Proof.
  intros Hdisp Hvis Hage.
  split; [reflexivity|]. split; [now apply fade_monotone|].
  split; [reflexivity|]. split; [reflexivity|].
  split; [apply fade_range|].
  pose proof (displayed_Tidy st Hdisp) as HT.
  pose proof (animate_Tidy now st HT)
    as (children' & Hsc' & _ & _ & Hess' & _ & _).
  destruct HT as (children & Hsc & _ & _ & _ & Hno & _).
  unfold visited in Hvis. rewrite Hsc in Hvis.
  rewrite (visits_visitList now _ [] (transactionEdgesRef st) children) in Hvis
    by lia.
  unfold sceneObjects in Hno. rewrite app_assoc in Hno.
  apply NoDup_app_inv in Hno as (_ & HndE & _).
  split; [now apply (visitList_incl now)|].
  unfold inScene. rewrite Hsc'.
  rewrite (animate_sweepList _ _ _ Hsc) in Hsc', Hess' |- *.
  cbn [sceneRef transactionEdgesRef agentMeshesRef] in *.
  injection Hsc' as <-.
  split; intros Hcase.
  - assert (He : expired now e = false).
    { unfold expired, maxAge. rewrite Z.gtb_ltb. apply Z.ltb_ge. lia. }
    pose proof (visitList_fresh now _ e children Hvis He) as Hin.
    exists (faded now e). split; [exact Hin|]. split; [reflexivity|].
    split; [reflexivity|]. split; [|split; [reflexivity|]].
    + intros p Hp. unfold faded, fadeEdge. cbn [Edge.particles]. rewrite Hp.
      eexists. split; [reflexivity|]. split; reflexivity.
    + apply Hess'. unfold essentialObjects.
      cbn [agentMeshesRef transactionEdgesRef].
      rewrite !in_app_iff. right. right.
      apply (in_lineIds (faded now e)). exact Hin.
  - assert (He : expired now e = true).
    { unfold expired, maxAge. rewrite Z.gtb_ltb. apply Z.ltb_lt. lia. }
    now apply visitList_expired.
Qed.

(** ** Ranges of the animated values *)

Lemma reputationScale_range a : ((8 # 10) <= reputationScale a <= 2)%Q.
Proof.
  unfold reputationScale. destruct (Agent.reputation a) as [r|].
  - destruct (Qeq_bool r 0); [split; discriminate|]. split.
    + apply Q.le_max_l.
    + apply Q.max_lub; [discriminate | apply Q.le_min_l].
  - split; discriminate.
Qed.

Lemma dress_inBounds now sel a base :
  inBounds (dress Math_sin now sel a base).
Proof.
  pose proof (reputationScale_range a) as [R1 R2].
  pose proof (Math_sin_range (inject_Z now * (3 # 1000))) as [S1 S2].
  pose proof (Math_sin_range (inject_Z now * (5 # 1000))) as [T1 T2].
  unfold inBounds, dress, highlight, pulse.
  generalize dependent (reputationScale a).
  generalize dependent (Math_sin (inject_Z now * (3 # 1000))).
  generalize dependent (Math_sin (inject_Z now * (5 # 1000))).
  intros t T1 T2 s S1 S2 r R1 R2.
  destruct sel as [x|]; [destruct (String.eqb _ _)|];
    destruct (isActive a);
    unfold Mesh.set_ring_opacity, Mesh.set_emissiveIntensity, Mesh.set_scale,
      Mesh.set_agentData;
    cbn [Mesh.emissiveIntensity Mesh.scale Mesh.ring ring_opacity];
    destruct (Mesh.ring base);
    cbn [ring_opacity];
    repeat split; try Lqa.lra; try Lqa.nra.
Qed.

Lemma updateAgent_bounded cs ss now st a :
  Forall (fun e => inBounds (snd e)) (agentMeshesRef st) ->
  Forall (fun e => inBounds (snd e))
    (agentMeshesRef (updateAgent Math_sin cs ss now st a)).
Proof.
  intros H. rewrite updateAgent_registry.
  apply store_Forall; auto. apply dress_inBounds.
Qed.

Lemma forEach_updateAgent_bounded cs ss now roster st :
  Forall (fun e => inBounds (snd e)) (agentMeshesRef st) ->
  Forall (fun e => inBounds (snd e))
    (agentMeshesRef (fold_left (updateAgent Math_sin cs ss now) roster st)).
Proof.
  revert st. induction roster as [|a roster IH]; simpl; intros st H; auto.
  apply IH. now apply updateAgent_bounded.
Qed.

Lemma step_bounded st op :
  Forall (fun e => inBounds (snd e)) (agentMeshesRef st) ->
  Forall (fun e => inBounds (snd e))
    (agentMeshesRef (step Math_sin intersectObjects st op)).
Proof.
  destruct op; simpl.
  - unfold updateAgents.
    destruct (sceneRef st); auto. destruct swarmData as [sd|]; auto.
    destruct (agents sd) as [ag|]; auto.
    apply forEach_updateAgent_bounded.
  - now rewrite updateTransactions_registry.
  - now rewrite animate_registry.
  - now rewrite handleClick_registry.
  - auto.
Qed.

Lemma run_bounded ops st :
  Forall (fun e => inBounds (snd e)) (agentMeshesRef st) ->
  Forall (fun e => inBounds (snd e))
    (agentMeshesRef (run Math_sin intersectObjects ops st)).
Proof.
  unfold run. revert st.
  induction ops as [|op ops IH]; simpl; intros st H; auto.
  apply IH. now apply step_bounded.
Qed.

(** X5. Whatever the roster says, the animated values of a registered
    mesh stay in fixed ranges: emissive intensity between 0.1 and 0.8, ring
    opacity between 0 and 0.8, and scale between 0.68 and 2.3 (reputation
    enters the scale clamped to 0.8 .. 2, the pulse adds or takes at most
    15 per cent). *)
Theorem animated_values_stay_in_range st k m :
  reachable Math_sin intersectObjects st ->
  lookup k (agentMeshesRef st) = Some m ->
  inBounds m.
Proof.
  intros [ops ->] Hm.
  assert (H : Forall (fun e => inBounds (snd e))
                (agentMeshesRef (run Math_sin intersectObjects ops mounted)))
    by (apply run_bounded; constructor).
  rewrite Forall_forall in H. apply (H (k, m)). now apply lookup_in.
Qed.

(** ** The selection between picks *)

(** X7. Only the pointer changes the selection: through agent passes,
    transaction passes and frames the selected snapshot stays the one taken
    at the pick, so the panel is not refreshed by later snapshots of the
    selected agent. *)
Theorem selection_changes_only_on_pointer ops st :
  forallb (fun op => negb (isPointerOp op)) ops = true ->
  selectedAgent (run Math_sin intersectObjects ops st) = selectedAgent st.
Proof.
  unfold run. revert st. induction ops as [|op ops IH]; simpl; intros st H; auto.
  apply andb_true_iff in H as [Hop Hops]. rewrite IH by assumption.
  destruct op; simpl in *; try discriminate.
  - apply updateAgents_selected.
  - apply updateTransactions_selected.
  - apply animate_selected.
Qed.

End Further.

(** ** Sweeps over expired edges *)

Lemma oddIndexed_length {A : Type} (l : list A) :
  List.length (oddIndexed l) = Nat.div2 (List.length l).
Proof.
  induction l as [|x|x y l IH _] using pair_induction; simpl; auto.
Qed.

Lemma oddIndexed_Forall {A : Type} (P : A -> Prop) (l : list A) :
  Forall P l -> Forall P (oddIndexed l).
Proof.
  induction l as [|x|x y l IH _] using pair_induction; simpl; intros H;
    try constructor.
  - inversion H as [|? ? _ H1]; subst. now inversion H1.
  - apply IH. inversion H as [|? ? _ H1]; subst. now inversion H1.
Qed.

Lemma even_or_odd {A B : Type} (f : A -> list B) (l : list A) x :
  In x (flat_map f l) ->
  In x (flat_map f (evenIndexed l)) \/ In x (flat_map f (oddIndexed l)).
Proof.
  induction l as [|a|a b l IH _] using pair_induction; simpl; auto.
  rewrite !in_app_iff. intros [H|[H|H]]; auto.
  destruct (IH H); auto.
Qed.

Lemma sweepList_all_expired now edges :
  forall children,
    Forall (fun e => expired now e = true) edges ->
    snd (sweepList now children edges) = oddIndexed edges
    /\ forall x,
         In x (fst (sweepList now children edges))
         <-> In x children
             /\ ~ In x (flat_map edgeObjects (evenIndexed edges)).
Proof.
  induction edges as [|e|e e2 rest IH _] using pair_induction;
    intros children H.
  - simpl. split; [reflexivity | tauto].
  - inversion H as [|? ? He _]; subst. cbn [sweepList]. rewrite He.
    cbn [fst snd evenIndexed oddIndexed flat_map]. rewrite app_nil_r.
    split; [reflexivity|]. intros x. apply in_removeEdgeObjects.
  - inversion H as [|? ? He H1]; subst. inversion H1 as [|? ? _ H2]; subst.
    rewrite sweepList_expired_head by assumption.
    destruct (IH (removeEdgeObjects e children) H2) as (Ha & Hb).
    cbn [fst snd evenIndexed oddIndexed flat_map]. rewrite Ha.
    split; [reflexivity|]. intros x.
    rewrite Hb, in_removeEdgeObjects, in_app_iff. tauto.
Qed.

Lemma frames_scene_shrinks nows st x :
  inScene x (frames nows st) -> inScene x st.
Proof.
  unfold frames. revert st. induction nows as [|t ts IH]; simpl; intros st H;
    auto.
  apply IH in H. unfold inScene in *.
  destruct (sceneRef st) as [children|] eqn:E.
  - rewrite (animate_sweepList _ _ _ E) in H. simpl in H.
    now apply sweepList_scene_subset in H.
  - unfold animate in H. rewrite E in H. rewrite E in H. exact H.
Qed.

(** X6. When every tracked edge has expired, a frame removes the edges at
    the even indices and keeps, untouched, those at the odd indices: half
    the array, rounded down, survives.  So it takes more than one frame to
    clear a broadcast, but k frames clear fewer than 2^k expired edges: the
    array is then empty and no tube or marker of theirs is in the scene. *)
Theorem expired_edges_halve st children now nows :
  sceneRef st = Some children ->
  Forall (fun e => expired now e = true) (transactionEdgesRef st) ->
  Forall (fun t => now <= t) nows ->
  (forall t,
      now <= t ->
      transactionEdgesRef (animate t st) = oddIndexed (transactionEdgesRef st)
      /\ List.length (transactionEdgesRef (animate t st))
         = Nat.div2 (List.length (transactionEdgesRef st)))
  /\ ((List.length (transactionEdgesRef st) < 2 ^ List.length nows)%nat ->
      transactionEdgesRef (frames nows st) = []
      /\ forall x,
           In x (flat_map edgeObjects (transactionEdgesRef st)) ->
           ~ inScene x (frames nows st)).
Proof.
  intros Hsc Hexp Hnows.
  assert (Hone : forall st children t,
             sceneRef st = Some children ->
             Forall (fun e => expired now e = true) (transactionEdgesRef st) ->
             now <= t ->
             transactionEdgesRef (animate t st)
             = oddIndexed (transactionEdgesRef st)
             /\ (exists children', sceneRef (animate t st) = Some children')
             /\ forall x,
                  In x (flat_map edgeObjects
                          (evenIndexed (transactionEdgesRef st))) ->
                  ~ inScene x (animate t st)).
  { intros st0 ch0 t H0 E0 Ht.
    rewrite (animate_sweepList _ _ _ H0). unfold inScene. simpl.
    destruct (sweepList_all_expired t (transactionEdgesRef st0) ch0)
      as (Ha & Hb).
    - eapply Forall_impl; [|exact E0]. intros e. now apply expired_later.
    - split; [exact Ha|]. split; [eauto|].
      intros x Hx Hin. apply Hb in Hin. tauto. }
  split.
  - intros t Ht. destruct (Hone st children t Hsc Hexp Ht) as (Ha & _).
    split; [exact Ha|]. rewrite Ha. apply oddIndexed_length.
  - revert st children Hsc Hexp.
    induction Hnows as [|t ts Ht Hts IH]; intros st children Hsc Hexp Hlen.
    + simpl in Hlen.
      destruct (transactionEdgesRef st) eqn:E; [|simpl in Hlen; lia].
      split; [exact E | intros x []].
    + destruct (Hone st children t Hsc Hexp Ht) as (Ha & (ch1 & Hsc1) & Hgone).
      destruct (IH (animate t st) ch1 Hsc1) as (Hb & Hc).
      * rewrite Ha. now apply oddIndexed_Forall.
      * rewrite Ha, oddIndexed_length. cbn [List.length] in Hlen.
        rewrite Nat.pow_succ_r' in Hlen. rewrite Nat.div2_div.
        apply Nat.Div0.div_lt_upper_bound. lia.
      * split; [exact Hb|]. intros x Hx.
        destruct (even_or_odd edgeObjects _ x Hx) as [He|Ho].
        -- intros Hin. apply (Hgone x He).
           now apply (frames_scene_shrinks ts).
        -- apply Hc. now rewrite Ha.
Qed.

(** ** Places on the rings *)

(** X8. The place on the ring depends on the index and the size of the
    role group only through their ratio: two agents of the same kind whose
    index / size agree (all those created first in their group, for one)
    are put at the same point, whenever they were created. *)
Theorem equal_ratio_same_point a1 cs1 ss1 a2 cs2 ss2 :
  isCoordinator a1 = isCoordinator a2 ->
  agentsInRole (place a1 cs1 ss1) <> 0 ->
  agentsInRole (place a2 cs2 ss2) <> 0 ->
  agentIndex (place a1 cs1 ss1) * agentsInRole (place a2 cs2 ss2)
  = agentIndex (place a2 cs2 ss2) * agentsInRole (place a1 cs1 ss1) ->
  position_xz (place a1 cs1 ss1) = position_xz (place a2 cs2 ss2).
Proof.
  intros Hkind Hn1 Hn2 Hratio.
  assert (Hr : radius (place a1 cs1 ss1) = radius (place a2 cs2 ss2))
    by (unfold place; simpl; now rewrite Hkind).
  assert (Ho : angleOffset (place a1 cs1 ss1) = angleOffset (place a2 cs2 ss2))
    by (unfold place; simpl; now rewrite Hkind).
  unfold position_xz, angle.
  destruct (Z.eqb_spec (agentsInRole (place a1 cs1 ss1)) 0); [contradiction|].
  destruct (Z.eqb_spec (agentsInRole (place a2 cs2 ss2)) 0); [contradiction|].
  rewrite Hr, Ho.
  assert (E : (IZR (agentIndex (place a1 cs1 ss1))
               / IZR (agentsInRole (place a1 cs1 ss1))
               = IZR (agentIndex (place a2 cs2 ss2))
                 / IZR (agentsInRole (place a2 cs2 ss2)))%R).
  { apply (f_equal IZR) in Hratio. rewrite !mult_IZR in Hratio.
    apply not_0_IZR in Hn1, Hn2.
    generalize dependent (IZR (agentsInRole (place a1 cs1 ss1))).
    generalize dependent (IZR (agentsInRole (place a2 cs2 ss2))).
    intros n2 Hn2 n1 Hn1 Hratio.
    apply (Rmult_eq_reg_r (n1 * n2)).
    - transitivity (IZR (agentIndex (place a1 cs1 ss1)) * n2)%R;
        [field; assumption|].
      rewrite Hratio. field. assumption.
    - now apply Rmult_integral_contrapositive_currified. }
  now rewrite E.
Qed.

(** * Properties of the other components *)

(** ** utils/config *)

Lemma append_assoc (a b c : string) :
  ((a ++ b) ++ c)%string = (a ++ (b ++ c))%string.
Proof. induction a as [|x a IH]; simpl; congruence. Qed.

Lemma append_length (a b : string) :
  String.length (a ++ b) = (String.length a + String.length b)%nat.
Proof. induction a as [|x a IH]; simpl; congruence. Qed.

Lemma eqb_longer c a suffix : String.eqb (String c (a ++ suffix)) suffix = false.
Proof.
  apply String.eqb_neq. intros H. apply (f_equal String.length) in H.
  simpl in H. rewrite append_length in H. lia.
Qed.

Lemma endsWith_append suffix a : Config.endsWith suffix (a ++ suffix) = true.
Proof.
  induction a as [|c a IH].
  - destruct suffix; simpl; now rewrite ?Ascii.eqb_refl, ?String.eqb_refl.
  - cbn [append Config.endsWith]. rewrite IH.
    now destruct (String.eqb _ _).
Qed.

Lemma replaceEnd_append pat a : Config.replaceEnd pat (a ++ pat) = a.
Proof.
  induction a as [|c a IH].
  - destruct pat; simpl; now rewrite ?Ascii.eqb_refl, ?String.eqb_refl.
  - cbn [append Config.replaceEnd]. rewrite eqb_longer. now rewrite IH.
Qed.

Lemma replaceEnd_id pat s :
  Config.endsWith pat s = false -> Config.replaceEnd pat s = s.
Proof.
  induction s as [|c s IH]; cbn [Config.endsWith Config.replaceEnd].
  - now destruct (String.eqb "" pat).
  - destruct (String.eqb (String c s) pat); [discriminate|].
    intros H. now rewrite IH.
Qed.

(** What [replaceEnd] returns is the string without what it removed. *)
Lemma replaceEnd_split pat s :
  s = (Config.replaceEnd pat s ++ "")%string
  \/ s = (Config.replaceEnd pat s ++ pat)%string.
Proof.
  induction s as [|c s IH]; cbn [Config.replaceEnd].
  - destruct (String.eqb_spec "" pat); [right | left]; simpl; auto.
  - destruct (String.eqb_spec (String c s) pat) as [E|E].
    + right. simpl. auto.
    + destruct IH as [IH|IH]; [left | right]; simpl; now rewrite <- IH.
Qed.

Lemma dropPrefix_blocked pat :
  Forall (fun c => c <> "/"%char) (list_ascii_of_string pat) ->
  pat <> EmptyString ->
  forall v x y,
    x = EmptyString \/ (exists x', x = String "/" x') ->
    Config.dropPrefix pat (v ++ x) = None ->
    Config.dropPrefix pat (v ++ String "/" y) = None.
Proof.
  induction pat as [|c pat IH]; intros Hall Hne v x y Hx H; [congruence|].
  simpl in Hall. inversion Hall as [|? ? Hc Hall']; subst.
  destruct v as [|d v]; simpl in *.
  - destruct (Ascii.eqb_spec c "/"); [contradiction | reflexivity].
  - destruct (Ascii.eqb c d); [|reflexivity].
    destruct pat as [|c' pat]; [discriminate|].
    apply (IH Hall' ltac:(discriminate) v x y Hx H).
Qed.

Lemma getWsUrl_not_http env :
  Config.dropPrefix "http" (Config.getWsUrl env) = None.
Proof.
  unfold Config.getWsUrl.
  destruct (Config.orElse _ _) as [[|c u]|];
    try (destruct (String.eqb _ "https:"); reflexivity).
  unfold Config.replaceStart.
  destruct (Config.dropPrefix "http" (String c u)) as [rest|] eqn:E.
  - destruct (Config.endsWith "/ws" ("ws" ++ rest)); reflexivity.
  - destruct (Config.endsWith "/ws" (String c u)); [exact E|].
    destruct (replaceEnd_split "/" (String c u)) as [H|H].
    + apply (dropPrefix_blocked "http") with (x := EmptyString);
        [repeat constructor; discriminate | discriminate | now left |].
      rewrite <- H. exact E.
    + apply (dropPrefix_blocked "http") with (x := "/"%string);
        [repeat constructor; discriminate | discriminate | right; eauto |].
      rewrite <- H. exact E.
Qed.

(** X9. The socket address always ends in "/ws", whether it comes from the
    environment or from the page's location; and it is a fixed point of the
    normalisation: used as [VITE_WS_URL], it comes back unchanged. *)
Theorem getWsUrl_normal env :
  Config.endsWith "/ws" (Config.getWsUrl env) = true
  /\ Config.getWsUrl (Config.withWsUrl (Config.getWsUrl env) env)
     = Config.getWsUrl env.
Proof.
  assert (Hends : forall e, Config.endsWith "/ws" (Config.getWsUrl e) = true).
  { intros e. unfold Config.getWsUrl.
    destruct (Config.orElse _ _) as [[|c u]|].
    - rewrite <- !append_assoc. apply endsWith_append.
    - cbv zeta.
      destruct (Config.endsWith "/ws"
                  (Config.replaceStart "http" "ws" (String c u))) eqn:E;
        [exact E|].
      apply endsWith_append.
    - rewrite <- !append_assoc. apply endsWith_append. }
  split; [apply Hends|].
  pose proof (Hends env) as He. pose proof (getWsUrl_not_http env) as Hn.
  destruct (Config.getWsUrl env) as [|c u] eqn:E; [discriminate|].
  unfold Config.getWsUrl at 1. unfold Config.withWsUrl, Config.orElse.
  cbn [Config.VITE_WS_URL Config.truthy]. unfold Config.replaceStart.
  now rewrite Hn, He.
Qed.

(** X10. An http or https base address that ends neither in "/" nor in
    "/ws" survives the round trip: the socket address is the base with
    "http" turned into "ws" and "/ws" appended, and the API base computed
    back from it is the address that was configured. *)
Theorem getApiBase_round_trip env rest :
  Config.orElse (Config.VITE_WS_URL env) (Config.VITE_API_URL env)
  = Some ("http" ++ rest)%string ->
  Config.endsWith "/" ("http" ++ rest) = false ->
  Config.endsWith "/ws" ("http" ++ rest) = false ->
  Config.getWsUrl env = ("ws" ++ rest ++ "/ws")%string
  /\ Config.getApiBase env = ("http" ++ rest)%string.
Proof.
  intros Hurl Hslash Hws.
  assert (Hw : Config.getWsUrl env = ("ws" ++ rest ++ "/ws")%string).
  { unfold Config.getWsUrl. rewrite Hurl.
    cbn [append Config.replaceStart Config.dropPrefix Ascii.eqb Bool.eqb].
    change (Config.endsWith "/ws" (String "w" (String "s" rest)))
      with (Config.endsWith "/ws" ("http" ++ rest)).
    rewrite Hws. rewrite replaceEnd_id; [reflexivity|].
    exact Hslash. }
  split; [exact Hw|].
  unfold Config.getApiBase. rewrite Hw.
  assert (Ht : negb (Config.truthy (Config.VITE_WS_URL env))
               && negb (Config.truthy (Config.VITE_API_URL env)) = false).
  { unfold Config.orElse in Hurl.
    destruct (Config.truthy (Config.VITE_WS_URL env)); [reflexivity|].
    rewrite Hurl. reflexivity. }
  rewrite Ht.
  change (Config.replaceStart "ws" "http" ("ws" ++ rest ++ "/ws"))
    with (("http" ++ rest) ++ "/ws")%string.
  apply replaceEnd_append.
Qed.

(** ** hooks/useWebSocket *)

Lemma deliver_unaccepted events h :
  forallb (fun ev => negb (Socket.isAccepted ev)) events = true ->
  Socket.swarmData (Socket.deliver events h) = Socket.swarmData h.
Proof.
  unfold Socket.deliver. revert h.
  induction events as [|ev events IH]; simpl; intros h H; auto.
  apply andb_true_iff in H as [Hev H]. rewrite IH by assumption.
  destruct ev as [|[m|]| |]; simpl in *; auto.
  destruct (Socket.accepted m); [discriminate | reflexivity].
Qed.

Lemma deliver_quiet events h :
  forallb (fun ev => negb (Socket.isOpenOrClose ev)) events = true ->
  Socket.isConnected (Socket.deliver events h) = Socket.isConnected h.
Proof.
  unfold Socket.deliver. revert h.
  induction events as [|ev events IH]; simpl; intros h H; auto.
  apply andb_true_iff in H as [Hev H]. rewrite IH by assumption.
  destruct ev as [|[m|]| |]; simpl in *; try discriminate; auto.
  destruct (Socket.accepted m); reflexivity.
Qed.

(** X11. What the hook hands out is decided by the last relevant event
    only: the data is that of the last frame that parsed and carried the
    type swarm_update or initial_state, whatever came before it and whatever
    frames of other types, unparsable frames, errors, openings or closings
    came after it, so a lost connection keeps the last snapshot on screen;
    the connection flag is true after an opening and false after a closing
    until the next of the two. *)
Theorem hook_keeps_last_accepted_frame before message after h :
  Socket.accepted message = true ->
  forallb (fun ev => negb (Socket.isAccepted ev)) after = true ->
  Socket.swarmData
    (Socket.deliver (before ++ Socket.Frame (Some message) :: after) h)
  = Socket.data message
  /\ (forallb (fun ev => negb (Socket.isOpenOrClose ev)) after = true ->
      Socket.isConnected (Socket.deliver (before ++ Socket.Open :: after) h)
      = true
      /\ Socket.isConnected (Socket.deliver (before ++ Socket.Close :: after) h)
         = false).
Proof.
  intros Hacc Hafter. unfold Socket.deliver. split.
  - rewrite fold_left_app. simpl. rewrite Hacc.
    now rewrite (deliver_unaccepted after).
  - intros Hquiet. rewrite !fold_left_app. simpl.
    now rewrite !(deliver_quiet after).
Qed.

(** ** PerformanceCharts *)

Lemma tally_counts taskHistory :
  forall c f,
    fold_left
      (fun counts task =>
         (if String.eqb (Task.status task) "completed"
          then fst counts + 1 else fst counts,
          if String.eqb (Task.status task) "failed"
          then snd counts + 1 else snd counts))
      taskHistory (c, f)
    = (c + Z.of_nat
             (List.length (filter (Charts.hasStatus "completed") taskHistory)),
       f + Z.of_nat
             (List.length (filter (Charts.hasStatus "failed") taskHistory))).
Proof.
  induction taskHistory as [|task l IH]; intros c f.
  - simpl. f_equal; lia.
  - cbn [fold_left filter fst snd]. rewrite IH. unfold Charts.hasStatus.
    destruct (String.eqb (Task.status task) "completed");
      destruct (String.eqb (Task.status task) "failed");
      cbn [List.length]; f_equal; lia.
Qed.

Lemma statuses_partition taskHistory :
  List.length taskHistory
  = (List.length (filter (Charts.hasStatus "completed") taskHistory)
     + List.length (filter (Charts.hasStatus "failed") taskHistory)
     + List.length (filter Charts.isOpen taskHistory))%nat.
Proof.
  induction taskHistory as [|task l IH]; [reflexivity|].
  cbn [filter List.length]. unfold Charts.isOpen, Charts.hasStatus in *.
  destruct (String.eqb_spec (Task.status task) "completed") as [E|E].
  - rewrite E. simpl. lia.
  - destruct (String.eqb (Task.status task) "failed"); simpl; lia.
Qed.

(** X12. The three segments of the doughnut are the numbers of completed
    tasks, of failed tasks, and of the tasks that are neither: the third,
    computed by subtraction, is never negative, and the three add up to the
    length of the history. *)
Theorem doughnut_partitions_history taskHistory :
  Charts.doughnutData taskHistory
  = [Z.of_nat (List.length (filter (Charts.hasStatus "completed") taskHistory));
     Z.of_nat (List.length (filter (Charts.hasStatus "failed") taskHistory));
     Z.of_nat (List.length (filter Charts.isOpen taskHistory))]
  /\ fold_right Z.add 0 (Charts.doughnutData taskHistory)
     = Z.of_nat (List.length taskHistory).
Proof.
  unfold Charts.doughnutData, Charts.tally. rewrite tally_counts.
  cbn [fst snd fold_right].
  pose proof (statuses_partition taskHistory) as H.
  split; [repeat f_equal|]; lia.
Qed.

(** ** StatsOverlay *)

Lemma inject_Z_succ n :
  inject_Z (Z.of_nat (S n)) = (inject_Z (Z.of_nat n) + 1)%Q.
Proof. rewrite Nat2Z.inj_succ. unfold Z.succ. apply inject_Z_plus. Qed.

Lemma reduceSum_throws p solvers :
  forall sum, Stats.reduceSum p solvers sum = None <-> In None solvers.
Proof.
  induction solvers as [|[s|] l IH]; intros sum; cbn [Stats.reduceSum In].
  - split; [discriminate | tauto].
  - rewrite IH. split; [tauto | intros [H|H]; [discriminate | exact H]].
  - split; auto.
Qed.

Lemma reduceSum_between p solvers lo hi :
  Forall (fun s => match s with
                   | Some s => lo <= Stats.orZero (p s) <= hi
                   | None => True
                   end)%Q solvers ->
  forall acc total,
    Stats.reduceSum p solvers acc = Some total ->
    (acc + lo * inject_Z (Z.of_nat (List.length solvers))
     <= total
     <= acc + hi * inject_Z (Z.of_nat (List.length solvers)))%Q.
Proof.
  induction 1 as [|s l Hs Hall IH]; intros acc total.
  - cbn [Stats.reduceSum List.length]. intros H. inversion H; subst.
    change (inject_Z (Z.of_nat 0)) with 0%Q. split; Lqa.lra.
  - destruct s as [s|]; cbn [Stats.reduceSum List.length]; [|discriminate].
    intros H. rewrite inject_Z_succ.
    destruct (IH _ _ H) as [H1 H2]. destruct Hs as [Hlo Hhi].
    generalize dependent (inject_Z (Z.of_nat (List.length l))).
    generalize dependent (Stats.orZero (p s)).
    intros x Hlo Hhi H n H1 H2. split; Lqa.nra.
Qed.

Lemma avgSuccessRate_between solvers lo hi avg :
  (lo <= 0 <= hi)%Q ->
  Forall (fun s => match s with
                   | Some s => lo <= Stats.orZero (Stats.success_rate s) <= hi
                   | None => True
                   end)%Q solvers ->
  Stats.avgSuccessRate solvers = Some avg ->
  (lo <= avg <= hi)%Q.
Proof.
  intros Hzero Hall. unfold Stats.avgSuccessRate.
  destruct solvers as [|s l]; [intros H; inversion H; subst; exact Hzero|].
  change (0 <? List.length (s :: l))%nat with true. cbv iota.
  destruct (Stats.reduceSum Stats.success_rate (s :: l) 0) as [sum|] eqn:E;
    [|discriminate].
  intros H. injection H as <-.
  destruct (reduceSum_between Stats.success_rate (s :: l) lo hi Hall 0%Q sum E)
    as [H1 H2].
  assert (Hpos : (0 < inject_Z (Z.of_nat (List.length (s :: l))))%Q).
  { unfold Qlt. simpl. lia. }
  change (Z.pos (Pos.of_succ_nat (List.length l)))
    with (Z.of_nat (List.length (s :: l))).
  split.
  - apply Qle_shift_div_l; [exact Hpos|]. Lqa.lra.
  - apply Qle_shift_div_r; [exact Hpos|]. Lqa.lra.
Qed.

Lemma totals_throws agents :
  Stats.totals agents = None
  <-> exists a,
        agents = Stats.Defined a
        /\ (Stats.solvers a = Stats.Null
            \/ Stats.solvers a = Stats.Other
            \/ exists l, Stats.solvers a = Stats.Defined l /\ In None l).
Proof.
  unfold Stats.totals. split.
  - destruct agents as [| | |[[| | |l]]]; cbn [Stats.solvers]; try discriminate.
    + intros _. eexists. split; [reflexivity|]. now left.
    + intros _. eexists. split; [reflexivity|]. right. now left.
    + intros H. eexists. split; [reflexivity|]. right. right. exists l.
      split; [reflexivity|].
      destruct (Stats.totalEarnings l) as [total|] eqn:Et;
        [|now apply reduceSum_throws in Et].
      destruct (Stats.avgSuccessRate l) as [avg|] eqn:Ea; [discriminate|].
      unfold Stats.avgSuccessRate in Ea.
      destruct (0 <? List.length l)%nat; [|discriminate].
      destruct (Stats.reduceSum Stats.success_rate l 0) eqn:Er;
        [discriminate|].
      now apply reduceSum_throws in Er.
  - intros (a & -> & [H|[H|(l & H & Hin)]]); rewrite H; try reflexivity.
    assert (Et : Stats.totalEarnings l = None) by now apply reduceSum_throws.
    now rewrite Et.
Qed.

Lemma totals_between agents lo hi total avg :
  (lo <= 0 <= hi)%Q ->
  (forall a l s,
      agents = Stats.Defined a -> Stats.solvers a = Stats.Defined l ->
      In (Some s) l ->
      (lo <= Stats.orZero (Stats.success_rate s) <= hi)%Q) ->
  Stats.totals agents = Some (total, avg) ->
  (lo <= avg <= hi)%Q.
Proof.
  intros Hzero Hall. unfold Stats.totals.
  destruct agents as [| | |[[| | |l]]]; cbn [Stats.solvers];
    try discriminate;
    try (intros H; injection H as <- <-; exact Hzero).
  destruct (Stats.totalEarnings l); [|discriminate].
  destruct (Stats.avgSuccessRate l) as [avg'|] eqn:Ea; [|discriminate].
  intros H. injection H as <- <-.
  apply (avgSuccessRate_between l); auto.
  apply Forall_forall. intros [s|] Hs; [|exact I].
  now apply (Hall {| Stats.solvers := Stats.Defined l |} l).
Qed.


(** ** TaskHistory *)

Lemma split_free sep s : History.free sep s -> History.split sep s = [s].
Proof.
  unfold History.free. induction s as [|c s IH]; simpl; intros H; auto.
  inversion H as [|? ? Hc Hs]; subst.
  destruct (Ascii.eqb_spec c sep); [contradiction|]. now rewrite IH.
Qed.

Lemma split_at_first sep a b :
  History.free sep a ->
  History.split sep (a ++ String sep b) = a :: History.split sep b.
Proof.
  unfold History.free. induction a as [|c a IH]; simpl; intros H.
  - now rewrite Ascii.eqb_refl.
  - inversion H as [|? ? Hc Hs]; subst.
    destruct (Ascii.eqb_spec c sep); [contradiction|]. now rewrite IH.
Qed.

(** X14. A card shows as solver the piece of [assigned_to] between its
    first and its second underscore: for "role_number" the number, and the
    same whatever follows a second underscore; for an identifier without
    underscore it shows nothing. *)
Theorem solver_label_is_second_piece role number rest plain :
  History.free "_" role ->
  History.free "_" number ->
  History.free "_" plain ->
  History.solverLabel (Some (role ++ "_" ++ number)%string) = Some number
  /\ History.solverLabel (Some (role ++ "_" ++ number ++ "_" ++ rest)%string)
     = Some number
  /\ History.solverLabel (Some plain) = None.
Proof.
  intros Hrole Hnumber Hplain.
  assert (Hshape : forall tail,
             History.solverLabel (Some (role ++ String "_" tail)%string)
             = nth_error (History.split "_" (role ++ String "_" tail)) 1).
  { intros tail. unfold History.solverLabel. now destruct role. }
  split; [|split].
  - change (role ++ "_" ++ number)%string
      with (role ++ String "_" number)%string.
    rewrite Hshape, split_at_first by assumption.
    now rewrite split_free.
  - change (role ++ "_" ++ number ++ "_" ++ rest)%string
      with (role ++ String "_" (number ++ String "_" rest))%string.
    rewrite Hshape, split_at_first by assumption.
    now rewrite split_at_first.
  - unfold History.solverLabel. destruct plain as [|c s]; [reflexivity|].
    now rewrite split_free.
Qed.

(** ** Edges tracked under one key *)

Lemma Qeq_bool_sym x y : Qeq_bool x y = Qeq_bool y x.
Proof.
  destruct (Qeq_bool x y) eqn:E1, (Qeq_bool y x) eqn:E2; auto.
  - apply Qeq_bool_iff in E1. apply Qeq_bool_neq in E2.
    exfalso. apply E2. now symmetry.
  - apply Qeq_bool_iff in E2. apply Qeq_bool_neq in E1.
    exfalso. apply E1. now symmetry.
Qed.

Lemma sameKey_sym e1 e2 : sameKey e1 e2 = sameKey e2 e1.
Proof.
  unfold sameKey, sameTx. now rewrite Qeq_bool_sym, String.eqb_sym.
Qed.

Lemma sameKey_madeAlike e1 e1' e2 e2' :
  madeAlike e1 e1' -> madeAlike e2 e2' -> sameKey e1' e2' = sameKey e1 e2.
Proof.
  intros (_ & T1 & F1 & _) (_ & T2 & F2 & _). unfold sameKey, sameTx.
  now rewrite T1, F1, T2, F2.
Qed.

Lemma madeAlike_faded now e : madeAlike e (faded now e).
Proof. unfold madeAlike, faded, fadeEdge. simpl. auto. Qed.

Lemma sweepList_origin now children edges e' :
  In e' (snd (sweepList now children edges)) ->
  exists e, In e edges /\ madeAlike e e'.
Proof.
  intros Hin.
  assert (H : Forall (fun e' => exists e, In e edges /\ madeAlike e e')
                (snd (sweepList now children edges))).
  { apply sweepList_Forall.
    - intros e1 (e & He & (A & B & C & D & E)). exists e. split; auto.
      unfold madeAlike, faded, fadeEdge. simpl. auto.
    - apply Forall_forall. intros e He. exists e. split; auto.
      unfold madeAlike. auto. }
  rewrite Forall_forall in H. now apply H.
Qed.

Lemma animate_OneTurnPerKey now st :
  OneTurnPerKey (transactionEdgesRef st) ->
  OneTurnPerKey (transactionEdgesRef (animate now st)).
Proof.
  intros H. unfold animate.
  destruct (sceneRef st) as [children|]; [|exact H].
  rewrite (forEachEdge_sweepList now _ [] (transactionEdgesRef st) children)
    by lia.
  cbn [snd app transactionEdgesRef].
  intros e1' e2' H1 H2 Hkey.
  apply sweepList_origin in H1 as (e1 & I1 & M1).
  apply sweepList_origin in H2 as (e2 & I2 & M2).
  rewrite (sameKey_madeAlike e1 e1' e2 e2' M1 M2) in Hkey.
  destruct (H e1 e2 I1 I2 Hkey) as (B & C).
  destruct M1 as (_ & _ & _ & B1 & C1). destruct M2 as (_ & _ & _ & B2 & C2).
  rewrite B1, B2, C1, C2. auto.
Qed.

Lemma pushed_source now st tx e :
  In e (pushed now st tx) ->
  exists fromMesh,
    lookup (Tx.from tx) (agentMeshesRef st) = Some fromMesh
    /\ fst (Tube.curve (Edge.line e)) = Mesh.position fromMesh.
Proof.
  unfold pushed. destruct (existsb _ _); [intros []|].
  destruct (lookup (Tx.from tx) (agentMeshesRef st)) as [fromMesh|];
    [|intros []].
  intros H. exists fromMesh. split; [reflexivity|]. revert H.
  generalize (nextObjectId st).
  induction (targetMeshes tx fromMesh (agentMeshesRef st)) as [|t ts IH];
    intros n; simpl; [intros []|].
  intros [<-|H]; [reflexivity | eauto].
Qed.

Lemma processTx_OneTurnPerKey now st tx :
  OneTurnPerKey (transactionEdgesRef st) ->
  OneTurnPerKey (transactionEdgesRef (processTx now st tx)).
Proof.
  intros H. rewrite processTx_eq. cbn [transactionEdgesRef].
  assert (Hnew : forall e,
             In e (pushed now st tx) ->
             existsb (sameTx (Tx.timestamp tx * 1000)%Q (Tx.from tx))
               (transactionEdgesRef st) = false).
  { intros e. unfold pushed. destruct (existsb _ _); [intros []|reflexivity]. }
  assert (Hmixed : forall old new,
             In old (transactionEdgesRef st) -> In new (pushed now st tx) ->
             sameKey new old = false).
  { intros old new Hold Hin. pose proof (Hnew new Hin) as Hex.
    destruct (pushed_from _ _ _ _ Hin) as (F & T & _).
    unfold sameKey. rewrite F, T.
    destruct (sameTx _ _ old) eqn:E; [|reflexivity].
    assert (existsb (sameTx (Tx.timestamp tx * 1000)%Q (Tx.from tx))
              (transactionEdgesRef st) = true)
      by (apply existsb_exists; eauto).
    congruence. }
  intros e1 e2 H1 H2 Hkey.
  apply in_app_iff in H1 as [H1|H1]; apply in_app_iff in H2 as [H2|H2].
  - now apply H.
  - rewrite sameKey_sym, (Hmixed e1 e2 H1 H2) in Hkey. discriminate.
  - rewrite (Hmixed e2 e1 H2 H1) in Hkey. discriminate.
  - destruct (pushed_from _ _ _ _ H1) as (_ & _ & _ & C1 & _).
    destruct (pushed_from _ _ _ _ H2) as (_ & _ & _ & C2 & _).
    destruct (pushed_source _ _ _ _ H1) as (f1 & L1 & S1).
    destruct (pushed_source _ _ _ _ H2) as (f2 & L2 & S2).
    rewrite C1, C2, S1, S2. split; congruence.
Qed.

Section OneKey.

Variable Math_sin : Q -> Q.
Variable Event : Type.
Variable intersectObjects : Event -> list Mesh.t -> list Mesh.t.

Lemma step_OneTurnPerKey st op :
  OneTurnPerKey (transactionEdgesRef st) ->
  OneTurnPerKey (transactionEdgesRef (step Math_sin intersectObjects st op)).
Proof.
  destruct op; simpl.
  - now rewrite updateAgents_edges.
  - unfold updateTransactions.
    destruct (sceneRef st); auto. destruct swarmData as [sd|]; auto.
    destruct (transactions sd) as [txs|]; auto.
    revert st. induction txs as [|tx txs IH]; simpl; intros st H; auto.
    apply IH. now apply processTx_OneTurnPerKey.
  - apply animate_OneTurnPerKey.
  - now destruct (handleClick_rest Event intersectObjects ev st) as (_ & -> & _).
  - auto.
Qed.

(** X15. At any moment the edges tracked under one dedup key all come from
    one turn of the transaction loop: their tubes have the same colour and
    start at the same point, also when events of different types share
    sender and timestamp.  A second set for a key is only ever made once no
    edge of the first is tracked any more. *)
Theorem one_turn_per_tracked_key ops e1 e2 :
  In e1 (transactionEdgesRef (run Math_sin intersectObjects ops mounted)) ->
  In e2 (transactionEdgesRef (run Math_sin intersectObjects ops mounted)) ->
  sameKey e1 e2 = true ->
  Tube.color (Edge.line e1) = Tube.color (Edge.line e2)
  /\ fst (Tube.curve (Edge.line e1)) = fst (Tube.curve (Edge.line e2)).
Proof.
  assert (H : OneTurnPerKey
                (transactionEdgesRef (run Math_sin intersectObjects ops mounted))).
  { unfold run.
    assert (H0 : OneTurnPerKey (transactionEdgesRef mounted))
      by (intros ? ? []).
    revert H0. generalize mounted.
    induction ops as [|op ops IH]; simpl; intros st H; auto.
    apply IH. now apply step_OneTurnPerKey. }
  apply H.
Qed.

End OneKey.

(** ** Instances of the further properties *)

Lemma scene_holds_what_is_tracked_witness :
  exists children,
    sceneRef
      (removeMarker 8
         (session [UpdateAgents oneSolver 0; UpdateTransactions oneSolver 0]))
    = Some children
    /\ NoDup children
    /\ incl
         (essentialObjects
            (removeMarker 8
               (session [UpdateAgents oneSolver 0;
                         UpdateTransactions oneSolver 0])))
         children
    /\ incl children
         (sceneObjects
            (removeMarker 8
               (session [UpdateAgents oneSolver 0;
                         UpdateTransactions oneSolver 0])))
    /\ Forall
         (fun x =>
            (x < nextObjectId
                   (removeMarker 8
                      (session [UpdateAgents oneSolver 0;
                                UpdateTransactions oneSolver 0])))%nat)
         children.
Proof.
  apply (scene_holds_what_is_tracked atRest string rayAt).
  apply displayed_marker.
  - exact (displayed_step atRest rayAt _ (UpdateTransactions oneSolver 0)
             (displayed_step atRest rayAt _ (UpdateAgents oneSolver 0)
                (displayed_mounted atRest rayAt))).
  - vm_compute. intros H.
    repeat (destruct H as [H|H]; [discriminate H|]). exact H.
Defined.

Lemma animated_values_stay_in_range_witness :
  exists m,
    lookup "c1"%string (agentMeshesRef (session [UpdateAgents oneSolver 0; Animate 16]))
    = Some m
    /\ inBounds m.
Proof.
  let v := eval vm_compute in
      (lookup "c1"%string
         (agentMeshesRef (session [UpdateAgents oneSolver 0; Animate 16]))) in
  match v with
  | Some ?m =>
      exists m; split;
      [ vm_compute; reflexivity
      | apply (animated_values_stay_in_range atRest atRest_range string rayAt
                 (session [UpdateAgents oneSolver 0; Animate 16]) "c1"%string m);
        [ exists [UpdateAgents oneSolver 0; Animate 16]; reflexivity
        | vm_compute; reflexivity ] ]
  end.
Defined.

Lemma expired_edges_halve_witness :
  transactionEdgesRef
    (frames [3001; 3002]
       (session [UpdateAgents twoSolvers 0; UpdateTransactions twoSolvers 0]))
  = []
  /\ forall x,
       In x
         (flat_map edgeObjects
            (transactionEdgesRef
               (session [UpdateAgents twoSolvers 0;
                         UpdateTransactions twoSolvers 0]))) ->
       ~ inScene x
           (frames [3001; 3002]
              (session [UpdateAgents twoSolvers 0;
                        UpdateTransactions twoSolvers 0])).
Proof.
  let v := eval vm_compute in
      (sceneRef
         (session [UpdateAgents twoSolvers 0; UpdateTransactions twoSolvers 0]))
  in
  match v with
  | Some ?children =>
      destruct (expired_edges_halve
                  (session [UpdateAgents twoSolvers 0;
                            UpdateTransactions twoSolvers 0])
                  children 3001 [3001; 3002]) as [_ H]
  end.
  - vm_compute. reflexivity.
  - vm_compute. repeat constructor.
  - repeat constructor; lia.
  - apply H. vm_compute. lia.
Defined.

Lemma selection_changes_only_on_pointer_witness :
  selectedAgent
    (run atRest rayAt [UpdateAgents twoSolvers 20; Animate 36]
       (session [UpdateAgents oneSolver 0; HandleClick "c1"%string]))
  = selectedAgent (session [UpdateAgents oneSolver 0; HandleClick "c1"%string]).
Proof.
  apply (selection_changes_only_on_pointer atRest string rayAt
           [UpdateAgents twoSolvers 20; Animate 36]
           (session [UpdateAgents oneSolver 0; HandleClick "c1"%string])).
  reflexivity.
Defined.

Lemma equal_ratio_same_point_witness :
  position_xz (place s2 [c1] [s1; s2])
  = position_xz
      (place (agent "s3"%string "solver"%string) [c1; c2]
         [s1; s2; agent "s3"%string "solver"%string; agent "s4"%string "solver"%string]).
Proof.
  apply (equal_ratio_same_point s2 [c1] [s1; s2]
           (agent "s3"%string "solver"%string) [c1; c2]
           [s1; s2; agent "s3"%string "solver"%string; agent "s4"%string "solver"%string]).
  - reflexivity.
  - vm_compute. discriminate.
  - vm_compute. discriminate.
  - vm_compute. reflexivity.
Defined.

Lemma getApiBase_round_trip_witness :
  Config.getWsUrl Samples.production = "wss://swarm.example/ws"%string
  /\ Config.getApiBase Samples.production = "https://swarm.example"%string.
Proof.
  apply (getApiBase_round_trip Samples.production "s://swarm.example"%string);
    reflexivity.
Defined.

Lemma hook_keeps_last_accepted_frame_witness :
  Socket.swarmData
    (Socket.deliver
       ([Socket.Open; Socket.Frame (Some Samples.update)]
        ++ Socket.Frame
             (Some {| Socket.type := Some "initial_state"%string;
                      Socket.data := oneSolver |})
           :: [Socket.Frame None; Socket.Error])
       Socket.initial)
  = oneSolver.
Proof.
  apply (hook_keeps_last_accepted_frame
           [Socket.Open; Socket.Frame (Some Samples.update)]
           {| Socket.type := Some "initial_state"%string;
              Socket.data := oneSolver |}
           [Socket.Frame None; Socket.Error] Socket.initial);
    reflexivity.
Defined.


Lemma solver_label_is_second_piece_witness :
  History.solverLabel (Some "solver_3"%string) = Some "3"%string
  /\ History.solverLabel (Some "solver_3_eu"%string) = Some "3"%string
  /\ History.solverLabel (Some "coordinator"%string) = None.
Proof.
  apply (solver_label_is_second_piece "solver"%string "3"%string "eu"%string "coordinator"%string);
    repeat constructor; discriminate.
Defined.

Lemma one_turn_per_tracked_key_witness :
  exists e1 e2,
    transactionEdgesRef
      (session [UpdateAgents twoSolvers 0; UpdateTransactions twoSolvers 7])
    = [e1; e2]
    /\ Tube.color (Edge.line e1) = Tube.color (Edge.line e2)
    /\ fst (Tube.curve (Edge.line e1)) = fst (Tube.curve (Edge.line e2)).
Proof.
  let v := eval vm_compute in
      (transactionEdgesRef
         (session [UpdateAgents twoSolvers 0; UpdateTransactions twoSolvers 7]))
  in
  match v with
  | [?e1; ?e2] =>
      exists e1, e2; split;
      [ vm_compute; reflexivity
      | apply (one_turn_per_tracked_key atRest string rayAt
                 [UpdateAgents twoSolvers 0; UpdateTransactions twoSolvers 7]
                 e1 e2);
        [ vm_compute; left; reflexivity
        | vm_compute; right; left; reflexivity
        | vm_compute; reflexivity ] ]
  end.
Defined.

Lemma edge_fades_after_first_sweep_witness :
  exists e0 e,
    nth_error
      (transactionEdgesRef
         (session [UpdateAgents twoSolvers 0; UpdateTransactions twoSolvers 0;
                   UpdateTransactions
                     (snapshot [c1] [s1; s2]
                        [{| Tx.from := "c1"%string;
                            Tx.msg_type := "task_announcement"%string;
                            Tx.timestamp := 101 |}]) 1500])) 0
    = Some e0
    /\ expired 3001 e0 = true
    /\ nth_error
         (transactionEdgesRef
            (session [UpdateAgents twoSolvers 0; UpdateTransactions twoSolvers 0;
                      UpdateTransactions
                        (snapshot [c1] [s1; s2]
                           [{| Tx.from := "c1"%string;
                               Tx.msg_type := "task_announcement"%string;
                               Tx.timestamp := 101 |}]) 1500])) 2
       = Some e
    /\ exists e',
         In e'
           (transactionEdgesRef
              (animate 3001
                 (session [UpdateAgents twoSolvers 0;
                           UpdateTransactions twoSolvers 0;
                           UpdateTransactions
                             (snapshot [c1] [s1; s2]
                                [{| Tx.from := "c1"%string;
                                    Tx.msg_type := "task_announcement"%string;
                                    Tx.timestamp := 101 |}]) 1500])))
         /\ Tube.id (Edge.line e') = Tube.id (Edge.line e)
         /\ Tube.opacity (Edge.line e') = fade 1501.
Proof.
  set (st := session [UpdateAgents twoSolvers 0; UpdateTransactions twoSolvers 0;
                      UpdateTransactions
                        (snapshot [c1] [s1; s2]
                           [{| Tx.from := "c1"%string;
                               Tx.msg_type := "task_announcement"%string;
                               Tx.timestamp := 101 |}]) 1500]).
  let es := eval vm_compute in (transactionEdgesRef st) in
  match es with
  | ?e0 :: _ :: ?e :: _ =>
      exists e0, e;
      split; [vm_compute; reflexivity|];
      split; [vm_compute; reflexivity|];
      split; [vm_compute; reflexivity|];
      destruct (edge_fades_after_first_sweep atRest string rayAt st 3001 e 0 0)
        as (_ & _ & _ & _ & _ & _ & Hfresh & _)
  end.
  - exact (displayed_step atRest rayAt _
             (UpdateTransactions
                (snapshot [c1] [s1; s2]
                   [{| Tx.from := "c1"%string;
                       Tx.msg_type := "task_announcement"%string;
                       Tx.timestamp := 101 |}]) 1500)
             (displayed_step atRest rayAt _ (UpdateTransactions twoSolvers 0)
                (displayed_step atRest rayAt _ (UpdateAgents twoSolvers 0)
                   (displayed_mounted atRest rayAt)))).
  - vm_compute. right. left. reflexivity.
  - lia.
  - destruct Hfresh as (e' & Hin & Hid & Hop & _); [vm_compute; discriminate|].
    exists e'. split; [exact Hin|]. split; [exact Hid | exact Hop].
Defined.

Lemma transactions_redelivery_is_idle_witness :
  updateTransactions twoSolvers 2500
    (run atRest rayAt
       [Animate 1000; HandleClick "c1"%string;
        UpdateTransactions
          (snapshot [c1] [s1; s2]
             [{| Tx.from := "c1"%string;
                 Tx.msg_type := "task_announcement"%string;
                 Tx.timestamp := 101 |}]) 1200;
        Animate 2000]
       (updateTransactions twoSolvers 0 (session [UpdateAgents twoSolvers 0])))
  = run atRest rayAt
      [Animate 1000; HandleClick "c1"%string;
       UpdateTransactions
         (snapshot [c1] [s1; s2]
            [{| Tx.from := "c1"%string;
                Tx.msg_type := "task_announcement"%string;
                Tx.timestamp := 101 |}]) 1200;
       Animate 2000]
      (updateTransactions twoSolvers 0 (session [UpdateAgents twoSolvers 0])).
Proof.
  apply (transactions_redelivery_is_idle atRest string rayAt twoSolvers 0 2500
           [Animate 1000; HandleClick "c1"%string;
            UpdateTransactions
              (snapshot [c1] [s1; s2]
                 [{| Tx.from := "c1"%string;
                     Tx.msg_type := "task_announcement"%string;
                     Tx.timestamp := 101 |}]) 1200;
            Animate 2000]
           (session [UpdateAgents twoSolvers 0])).
  vm_compute. reflexivity.
Defined.

(** Identifiers that are array indices are listed first by [Object.values],
    in ascending order, whatever the order of their registration. *)
Example values_lists_indices_first :
  map Mesh.agentId
    (values
       (agentMeshesRef
          (session [UpdateAgents
                      (snapshot
                         [agent "c1" "coordinator"; agent "b" "coordinator";
                          agent "2" "coordinator"; agent "1" "coordinator"]
                         [] []) 0])))
  = ["1"; "2"; "c1"; "b"]%string.
Proof. vm_compute. reflexivity. Qed.
